(** * Wizard: card model, rules engine, round loop and MCTS agent

    A shallow embedding of the Python sources
    [game/deck.py], [game/rules.py], [game/simulator.py],
    [agents/mcts_agent.py], [agents/heuristic_agent.py] and
    [agents/mcts_simple.py], followed by the properties of the
    specification that were checked against it and by further properties
    of the code.

    Conventions of the embedding.
    - Python lists are [list]; [l[i]] is stdpp's lookup [l !! i] and an
      index out of range raises [IndexError], which is written out.
    - Counters that the code only uses as loop bounds or list indices
      ([num_players], [round_num], seat indices, [visits]) are [nat];
      numbers the code computes with (ranks, bids, trick counts, scores)
      are [Z].
    - An exception is a value of [Exn]; a function that can raise returns
      [result].  The methods of [WizardGame] mutate [self]; they are
      functions [WizardGame -> WizardGame * result A], so that the object as
      it was left by a raise can still be inspected.
    - [random.shuffle] is a parameter [shuffle : list Card -> list Card].
    - Python floats are an abstract type with the operations the code uses
      (section [Search]). *)

From Stdlib Require Import ZArith Lia.
From Stdlib Require QArith.
From stdpp Require Import base decidable option list numbers countable gmap.

Set Default Proof Using "Type".
Set Warnings "-clear-no-such-hyp".

(* ===================================================================== *)
(** * Exceptions and results *)
(* ===================================================================== *)

Inductive Exn : Type :=
  | ValueError | IndexError | TypeError | KeyError | AttributeError
  | ZeroDivisionError
  | BadRef | OutOfFuel.

Inductive result (A : Type) : Type :=
  | Ok (a : A)
  | Raise (e : Exn).
Arguments Ok {A} a.
Arguments Raise {A} e.

#[global] Instance result_ret : MRet result := fun A a => Ok a.
#[global] Instance result_bind : MBind result := fun A B k r =>
  match r with
  | Ok a => k a
  | Raise e => Raise e
  end.

(** [l[i]], raising [IndexError] out of range. *)
Definition index {A} (l : list A) (i : nat) : result A :=
  match l !! i with
  | Some x => Ok x
  | None => Raise IndexError
  end.

(** [l[i] = x], raising [IndexError] out of range. *)
Definition store {A} (l : list A) (i : nat) (x : A) : result (list A) :=
  if decide (i < length l) then Ok (<[i:=x]> l) else Raise IndexError.

(** [for x in l: acc = body(acc, x)], stopping at the first raise. *)
Fixpoint foldR {A B} (body : A -> B -> result A) (acc : A) (l : list B) : result A :=
  match l with
  | [] => Ok acc
  | x :: l' => (acc' ← body acc x; foldR body acc' l')
  end.

(** [max(l, key=...)] of Python: the first element that no later element
    beats; [gt x y] says that [x] beats the current best [y]. *)
Fixpoint max_from {A} (gt : A -> A -> bool) (best : A) (l : list A) : A :=
  match l with
  | [] => best
  | x :: l' => max_from gt (if gt x best then x else best) l'
  end.

Definition py_max {A} (gt : A -> A -> bool) (l : list A) : result A :=
  match l with
  | [] => Raise ValueError
  | x :: l' => Ok (max_from gt x l')
  end.

(** [l.remove(x)]: drops the first element equal to [x]. *)
Fixpoint remove_first {A} `{EqDecision A} (x : A) (l : list A) : result (list A) :=
  match l with
  | [] => Raise ValueError
  | y :: l' => if decide (x = y) then Ok l'
               else (r ← remove_first x l'; Ok (y :: r))
  end.

(* ===================================================================== *)
(** * game/deck.py *)
(* ===================================================================== *)

Inductive Suit : Type := HEARTS | DIAMONDS | CLUBS | SPADES | WIZARD | JESTER.

Record Card : Type := mkCard { suit : Suit; rank : Z }.

#[global] Instance Suit_eq_dec : EqDecision Suit.
Proof. solve_decision. Defined.

#[global] Instance Card_eq_dec : EqDecision Card.
Proof. solve_decision. Defined.

Definition option_list {A} (o : option A) : list A :=
  match o with Some x => [x] | None => [] end.

Module Deck.

(** [create_standard_deck]: 4 Jesters, 4 Wizards, then ranks 1..13 of
    Hearts, Diamonds, Clubs, Spades, in this order. *)
Definition create_standard_deck : list Card :=
  replicate 4 (mkCard JESTER 0) ++
  replicate 4 (mkCard WIZARD 0) ++
  (s ← [HEARTS; DIAMONDS; CLUBS; SPADES];
   (fun r => mkCard s r) <$> seqZ 1 13).

(** One pass of the inner loop body:
    [hands[player_idx].append(deck[card_idx]); card_idx += 1]. *)
Definition deal_card (deck : list Card)
    (acc : list (list Card) * nat) (player_idx : nat)
    : result (list (list Card) * nat) :=
  let '(hands, card_idx) := acc in
  (hand ← index hands player_idx;
   card ← index deck card_idx;
   Ok (<[player_idx := hand ++ [card]]> hands, S card_idx)).

(** [for player_idx in range(num_players): ...]. *)
Definition deal_pass (deck : list Card) (num_players : nat)
    (acc : list (list Card) * nat) (_ : nat) : result (list (list Card) * nat) :=
  foldR (deal_card deck) acc (seq 0 num_players).

Definition shuffle_and_deal (shuffle : list Card -> list Card)
    (num_players round_num : nat)
    : result (list (list Card) * option Card * list Card) :=
  let deck := shuffle create_standard_deck in
  let hands := replicate num_players [] in
  ('(hands, card_idx) ← foldR (deal_pass deck num_players) (hands, 0)
                                (seq 0 round_num);
   (* deck[card_idx] if card_idx < len(deck) else None *)
   let trump_card := deck !! card_idx in
   Ok (hands, trump_card, drop (card_idx + 1) deck)).

End Deck.

(* ===================================================================== *)
(** * game/rules.py *)
(* ===================================================================== *)

Module WizardRules.

Definition get_trump_suit (trump_card : option Card) : option Suit :=
  match trump_card with
  | None => None
  | Some c =>
      match suit c with
      | JESTER => None
      | WIZARD => Some HEARTS
      | s => Some s
      end
  end.

Definition get_valid_plays (hand : list Card) (led_suit : option Suit) : list Card :=
  match led_suit with
  | None => hand
  | Some _ =>
      let same_suit := filter (fun c => Some (suit c) = led_suit) hand in
      match same_suit with
      | _ :: _ =>
          let wizards_jesters :=
            filter (fun c => suit c ∈ [WIZARD; JESTER]) hand in
          same_suit ++ wizards_jesters
      | [] => hand
      end
  end.

(** The key comparison of [max(..., key=lambda x: x[1].rank)]. *)
Definition rank_gt (x y : nat * Card) : bool := (rank y.2 <? rank x.2)%Z.

(** [cards_played[0][0]]. *)
Definition first_player (cards_played : list (nat * Card)) : result nat :=
  (pc ← index cards_played 0; Ok pc.1).

Definition determine_trick_winner (cards_played : list (nat * Card))
    (led_suit trump_suit : option Suit) : result nat :=
  (* Rule 1: first Wizard played wins *)
  match list_find (fun pc => suit pc.2 = WIZARD) cards_played with
  | Some (_, pc) => Ok pc.1
  | None =>
    (* Rule 2: if all Jesters, first Jester wins *)
    if forallb (fun pc => bool_decide (suit pc.2 = JESTER)) cards_played
    then first_player cards_played
    else
      let non_jesters := filter (fun pc => suit pc.2 ≠ JESTER) cards_played in
      (* Rule 3: highest trump wins *)
      let trumps :=
        match trump_suit with
        | Some t => filter (fun pc => suit pc.2 = t) non_jesters
        | None => []
        end in
      match trumps with
      | x :: rest => Ok (max_from rank_gt x rest).1
      | [] =>
        (* Rule 4: highest card of led suit wins *)
        let led_cards :=
          filter (fun pc => Some (suit pc.2) = led_suit) non_jesters in
        match led_cards with
        | x :: rest => Ok (max_from rank_gt x rest).1
        | [] => first_player cards_played
        end
      end
  end.

Definition score_round (bid tricks_won : Z) : Z :=
  if decide (bid = tricks_won) then 20 + 10 * bid
  else -10 * Z.abs (bid - tricks_won).

End WizardRules.

(* ===================================================================== *)
(** * game/simulator.py *)
(* ===================================================================== *)

Record GameState : Type := mkGameState {
  num_players : nat;
  round_num : nat;
  hands : list (list Card);
  trump_card : option Card;
  trump_suit : option Suit;
  bids : list (option Z);          (* None if not yet bid *)
  tricks_won : list Z;
  scores : list Z;
  current_trick : list (nat * Card);
  trick_leader : nat
}.

(** [GameState.copy]: every list is copied, so the copy shares nothing with
    the original; on immutable values that is the same record again. *)
Definition copy (self : GameState) : GameState :=
  {| num_players := num_players self;
     round_num := round_num self;
     hands := hands self;
     trump_card := trump_card self;
     trump_suit := trump_suit self;
     bids := bids self;
     tricks_won := tricks_won self;
     scores := scores self;
     current_trick := current_trick self;
     trick_leader := trick_leader self |}.

Definition set_hands (h : list (list Card)) (s : GameState) : GameState :=
  {| num_players := num_players s; round_num := round_num s; hands := h;
     trump_card := trump_card s; trump_suit := trump_suit s; bids := bids s;
     tricks_won := tricks_won s; scores := scores s;
     current_trick := current_trick s; trick_leader := trick_leader s |}.

Definition set_bids (b : list (option Z)) (s : GameState) : GameState :=
  {| num_players := num_players s; round_num := round_num s; hands := hands s;
     trump_card := trump_card s; trump_suit := trump_suit s; bids := b;
     tricks_won := tricks_won s; scores := scores s;
     current_trick := current_trick s; trick_leader := trick_leader s |}.

Definition set_tricks_won (t : list Z) (s : GameState) : GameState :=
  {| num_players := num_players s; round_num := round_num s; hands := hands s;
     trump_card := trump_card s; trump_suit := trump_suit s; bids := bids s;
     tricks_won := t; scores := scores s;
     current_trick := current_trick s; trick_leader := trick_leader s |}.

Definition set_current_trick (t : list (nat * Card)) (s : GameState) : GameState :=
  {| num_players := num_players s; round_num := round_num s; hands := hands s;
     trump_card := trump_card s; trump_suit := trump_suit s; bids := bids s;
     tricks_won := tricks_won s; scores := scores s;
     current_trick := t; trick_leader := trick_leader s |}.

Definition set_trick_leader (l : nat) (s : GameState) : GameState :=
  {| num_players := num_players s; round_num := round_num s; hands := hands s;
     trump_card := trump_card s; trump_suit := trump_suit s; bids := bids s;
     tricks_won := tricks_won s; scores := scores s;
     current_trick := current_trick s; trick_leader := l |}.

(** The policy interface: any object with [bid] and [play].  Within one
    round no two calls of the same seat have equal arguments (a seat bids
    once and its hand shrinks with every play), so a pair of functions
    describes any sequence of answers, including those of a randomised
    agent. *)
Record Agent : Type := mkAgent {
  bid : list Card -> option Suit -> nat -> nat -> list (option Z) -> Z;
  play : list Card -> list Card -> list (nat * Card) -> option Suit ->
         option Suit -> nat -> GameState -> Card
}.

Record WizardGame : Type := mkWizardGame {
  self_num_players : nat;
  self_total_rounds : nat;
  self_scores : list Z;
  self_state : option GameState
}.

(** A method of [WizardGame]: it may mutate [self] and may raise. *)
Definition Prog (A : Type) : Type := WizardGame -> WizardGame * result A.

#[global] Instance Prog_ret : MRet Prog := fun A a self => (self, Ok a).
#[global] Instance Prog_bind : MBind Prog := fun A B k m self =>
  match m self with
  | (self', Ok a) => k a self'
  | (self', Raise e) => (self', Raise e)
  end.

Definition get_self : Prog WizardGame := fun self => (self, Ok self).

Definition raise {A} (e : Exn) : Prog A := fun self => (self, Raise e).

Definition lift {A} (r : result A) : Prog A := fun self => (self, r).

(** Reading [self.state]; before the first round it is [None]. *)
Definition get_state : Prog GameState := fun self =>
  match self_state self with
  | Some st => (self, Ok st)
  | None => (self, Raise AttributeError)
  end.

Definition put_state (st : GameState) : Prog unit := fun self =>
  ({| self_num_players := self_num_players self;
      self_total_rounds := self_total_rounds self;
      self_scores := self_scores self;
      self_state := Some st |}, Ok tt).

Definition put_scores (sc : list Z) : Prog unit := fun self =>
  ({| self_num_players := self_num_players self;
      self_total_rounds := self_total_rounds self;
      self_scores := sc;
      self_state := self_state self |}, Ok tt).

(** [for x in l: ...] with a local variable [acc] carried through. *)
Fixpoint foldP {A B} (body : A -> B -> Prog A) (acc : A) (l : list B) : Prog A :=
  match l with
  | [] => mret acc
  | x :: l' => acc' ← body acc x; foldP body acc' l'
  end.

Definition for_each {B} (l : list B) (body : B -> Prog unit) : Prog unit :=
  foldP (fun _ x => body x) tt l.

Module WizardGame.
Import WizardRules.

(** [WizardGame.__init__]. *)
Definition __init__ (num_players : nat) : result WizardGame :=
  if decide (num_players < 3 \/ 6 < num_players) then Raise ValueError
  else Ok {| self_num_players := num_players;
             self_total_rounds := 60 / num_players;
             self_scores := replicate num_players 0%Z;
             self_state := None |}.

(** Body of the loop of [_bidding_phase]. *)
Definition bid_step (agents : list Agent) (player_idx : nat) : Prog unit :=
  agent ← lift (index agents player_idx);
  st ← get_state;
  hand ← lift (index (hands st) player_idx);
  let b := bid agent hand (trump_suit st) (round_num st) player_idx
               (take player_idx (bids st)) in
  (* Validate bid *)
  if negb ((0 <=? b)%Z && (b <=? Z.of_nat (round_num st))%Z)
  then raise ValueError
  else
    bids' ← lift (store (bids st) player_idx (Some b));
    put_state (set_bids bids' st).

Definition _bidding_phase (agents : list Agent) : Prog unit :=
  self ← get_self;
  for_each (seq 0 (self_num_players self)) (bid_step agents).

(** The update of the local [led_suit] after the [i]-th card of a trick. *)
Definition led_suit_update (i : nat) (led_suit : option Suit) (card : Card)
    : option Suit :=
  if decide (i = 0 /\ suit card ∉ [JESTER; WIZARD]) then Some (suit card)
  else if decide (i = 1 /\ led_suit = None /\ suit card ∉ [JESTER; WIZARD])
  then Some (suit card)
  else led_suit.

(** Body of the loop of [_play_trick]; [led_suit] is the loop's local. *)
Definition play_step (agents : list Agent) (led_suit : option Suit) (i : nat)
    : Prog (option Suit) :=
  st ← get_state;
  self ← get_self;
  if decide (self_num_players self = 0) then raise ZeroDivisionError else
  let player_idx := (trick_leader st + i) mod self_num_players self in
  hand ← lift (index (hands st) player_idx);
  let valid_cards := get_valid_plays hand led_suit in
  agent ← lift (index agents player_idx);
  let card := play agent hand valid_cards (current_trick st) (trump_suit st)
                   led_suit player_idx st in
  (* Validate card choice *)
  if decide (card ∉ valid_cards) then raise ValueError else
  hand' ← lift (remove_first card hand);
  let st := set_hands (<[player_idx := hand']> (hands st)) st in
  let st := set_current_trick (current_trick st ++ [(player_idx, card)]) st in
  put_state st;;
  mret (led_suit_update i led_suit card).

(** The loop of [_play_trick]; returns the final [led_suit]. *)
Definition trick_loop (agents : list Agent) : Prog (option Suit) :=
  st ← get_state;
  put_state (set_current_trick [] st);;
  self ← get_self;
  foldP (play_step agents) None (seq 0 (self_num_players self)).

Definition _play_trick (agents : list Agent) : Prog unit :=
  led_suit ← trick_loop agents;
  st ← get_state;
  winner ← lift (determine_trick_winner (current_trick st) led_suit
                                        (trump_suit st));
  won ← lift (index (tricks_won st) winner);
  let st := set_tricks_won (<[winner := (won + 1)%Z]> (tricks_won st)) st in
  put_state (set_trick_leader winner st).

(** Body of the loop of [_score_round]. *)
Definition score_step (player_idx : nat) : Prog unit :=
  st ← get_state;
  b ← lift (index (bids st) player_idx);
  won ← lift (index (tricks_won st) player_idx);
  match b with
  | None => raise TypeError        (* abs(None - won) *)
  | Some b =>
      let round_score := score_round b won in
      self ← get_self;
      old ← lift (index (self_scores self) player_idx);
      put_scores (<[player_idx := (old + round_score)%Z]> (self_scores self))
  end.

Definition _score_round : Prog unit :=
  self ← get_self;
  for_each (seq 0 (self_num_players self)) score_step.

Definition _play_round (shuffle : list Card -> list Card) (round_num : nat)
    (agents : list Agent) : Prog unit :=
  self ← get_self;
  '(hands, trump_card, _) ←
     lift (Deck.shuffle_and_deal shuffle (self_num_players self) round_num);
  let trump_suit := get_trump_suit trump_card in
  put_state {| num_players := self_num_players self;
               round_num := round_num;
               hands := hands;
               trump_card := trump_card;
               trump_suit := trump_suit;
               bids := replicate (self_num_players self) None;
               tricks_won := replicate (self_num_players self) 0%Z;
               scores := self_scores self;
               current_trick := [];
               trick_leader := 0 |};;
  _bidding_phase agents;;
  for_each (seq 0 round_num) (fun _ => _play_trick agents);;
  _score_round.

End WizardGame.

(* ===================================================================== *)
(** * agents/mcts_agent.py *)
(* ===================================================================== *)

Definition Suit_to_nat (s : Suit) : nat :=
  match s with
  | HEARTS => 0 | DIAMONDS => 1 | CLUBS => 2 | SPADES => 3
  | WIZARD => 4 | JESTER => 5
  end.

Definition Suit_of_nat (n : nat) : Suit :=
  match n with
  | 0 => HEARTS | 1 => DIAMONDS | 2 => CLUBS | 3 => SPADES
  | 4 => WIZARD | _ => JESTER
  end.

#[global] Instance Suit_countable : Countable Suit.
Proof. apply (inj_countable' Suit_to_nat Suit_of_nat). by intros []. Defined.

#[global] Instance Card_countable : Countable Card.
Proof.
  apply (inj_countable' (fun c => (suit c, rank c)) (fun p => mkCard p.1 p.2)).
  by intros [].
Defined.

Module MCTSAgent.

(** [_determinize_state].  [known_cards] is a Python set; the hands other
    than [my_hand] are added to it by the loop over [state.hands]. *)
Definition known_cards (state : GameState) (my_hand : list Card) : gset Card :=
  let known := list_to_set my_hand in
  let known :=
    foldl (fun (known : gset Card) hand =>
             if decide (hand ≠ my_hand) then known ∪ list_to_set hand
             else known)
          known (hands state) in
  let known :=
    foldl (fun (known : gset Card) pc => known ∪ {[ pc.2 ]})
          known (current_trick state) in
  match trump_card state with
  | Some c => known ∪ {[ c ]}
  | None => known
  end.

(** Body of the redistribution loop; [acc] is [(det_state.hands, idx)]. *)
Definition redistribute (state : GameState) (player_idx : nat)
    (unknown_cards : list Card) (acc : list (list Card) * nat) (i : nat)
    : result (list (list Card) * nat) :=
  let '(det_hands, idx) := acc in
  if decide (i ≠ player_idx) then
    hand ← index (hands state) i;
    let hand_size := length hand in
    (* unknown_cards[idx:idx + hand_size] *)
    det_hands ← store det_hands i (take hand_size (drop idx unknown_cards));
    Ok (det_hands, idx + hand_size)
  else Ok acc.

Definition _determinize_state (shuffle : list Card -> list Card)
    (state : GameState) (player_idx : nat) : result GameState :=
  let det_state := copy state in
  my_hand ← index (hands state) player_idx;
  let deck := Deck.create_standard_deck in
  let known := known_cards state my_hand in
  let unknown_cards := filter (fun c => c ∉ known) deck in
  let unknown_cards := shuffle unknown_cards in
  '(det_hands, _) ← foldR (redistribute state player_idx unknown_cards)
                          (hands det_state, 0) (seq 0 (num_players state));
  Ok (set_hands det_hands det_state).


(** ** The search tree

    Python floats enter through eight operations; they are the parameters
    of this section.  [of_int] is the conversion of an [int] operand,
    [finf] is [float('inf')], [fltb x y] is [x < y].

    The nodes of one search live in an arena, a list of nodes addressed by
    position: a reference to a node ([parent], an element of [children],
    the local [node]) is its index, so that the updates of
    [_backpropagate] and [_expand] reach the one shared object.  The root
    is node 0 and [_expand] allocates at the end.  [BadRef] and
    [OutOfFuel] are not Python exceptions: the first is a reference
    outside the arena, the second a loop that used up its bound. *)
Section Search.
Context {F : Type}.
Variable of_int : Z -> F.
Variables fadd fmul fdiv : F -> F -> F.
Variables fsqrt flog : F -> F.
Variable finf : F.
Variable fltb : F -> F -> bool.

Record MCTSNode : Type := mkNode {
  state : GameState;
  parent : option nat;
  action : option Card;
  children : list nat;
  visits : nat;
  total_value : F;
  untried_actions : list Card;
  player_idx : nat
}.

Local Abbreviation Arena := (list MCTSNode).

Definition deref (heap : Arena) (id : nat) : result MCTSNode :=
  match heap !! id with
  | Some n => Ok n
  | None => Raise BadRef
  end.

(** [MCTSNode.value]. *)
Definition value (self : MCTSNode) : F :=
  if decide (visits self = 0) then of_int 0
  else fdiv (total_value self) (of_int (Z.of_nat (visits self))).

(** [MCTSNode.ucb1]. *)
Definition ucb1 (heap : Arena) (self : MCTSNode) (exploration_constant : F)
    : result F :=
  if decide (visits self = 0) then Ok finf
  else
    let exploitation := value self in
    match parent self with
    | None => Raise AttributeError            (* self.parent.visits *)
    | Some pid =>
        p ← deref heap pid;
        if decide (visits p = 0) then Raise ValueError   (* math.log(0) *)
        else
          let q := fdiv (flog (of_int (Z.of_nat (visits p))))
                        (of_int (Z.of_nat (visits self))) in
          if fltb q (of_int 0) then Raise ValueError     (* math.sqrt *)
          else Ok (fadd exploitation (fmul exploration_constant (fsqrt q)))
    end.

Definition is_fully_expanded (self : MCTSNode) : bool :=
  bool_decide (length (untried_actions self) = 0).

Definition is_terminal (self : MCTSNode) : bool :=
  forallb (fun hand => bool_decide (length hand = 0)) (hands (state self)).

(** [_select_child]: the keys are computed in order, then compared. *)
Definition _select_child (exploration_constant : F) (heap : Arena) (id : nat)
    : result nat :=
  node ← deref heap id;
  keyed ← foldR (fun acc cid =>
                   c ← deref heap cid;
                   k ← ucb1 heap c exploration_constant;
                   Ok (acc ++ [(cid, k)]))
                [] (children node);
  best ← py_max (fun x y => fltb y.2 x.2) keyed;
  Ok best.1.

Definition _apply_action (state : GameState) (card : Card) (player_idx : nat)
    : result GameState :=
  hand ← index (hands state) player_idx;
  if decide (card ∈ hand) then
    hand' ← remove_first card hand;
    Ok (set_hands (<[player_idx := hand']> (hands state)) state)
  else Ok state.

Definition _get_valid_actions (state : GameState) (player_idx : nat)
    : result (list Card) :=
  index (hands state) player_idx.

Definition _simulate (state : GameState) (player_idx : nat) : result Z :=
  my_bid ← index (bids state) player_idx;
  my_tricks ← index (tricks_won state) player_idx;
  match my_bid with
  | None => Raise TypeError                   (* None - my_tricks *)
  | Some my_bid =>
      if decide (my_bid = my_tricks) then Ok (20 + 10 * my_bid)%Z
      else Ok (-10 * Z.abs (my_bid - my_tricks))%Z
  end.

(** [untried_actions.pop()]: the last element and the list without it. *)
Definition pop (l : list Card) : result (Card * list Card) :=
  match last l with
  | Some a => Ok (a, take (length l - 1) l)
  | None => Raise IndexError
  end.

Definition _expand (heap : Arena) (id : nat) (sim_state : GameState)
    : result (Arena * nat) :=
  node ← deref heap id;
  '(a, rest) ← pop (untried_actions node);
  child_state ← _apply_action (copy sim_state) a (player_idx node);
  untried ← _get_valid_actions child_state (player_idx node);
  let child := {| state := child_state; parent := Some id;
                  action := Some a; children := [];
                  visits := 0; total_value := of_int 0;
                  untried_actions := untried;
                  player_idx := player_idx node |} in
  let cid := length heap in
  let node' := {| state := state node; parent := parent node;
                  action := action node;
                  children := children node ++ [cid];
                  visits := visits node; total_value := total_value node;
                  untried_actions := rest;
                  player_idx := player_idx node |} in
  Ok (<[id := node']> heap ++ [child], cid).

(** [_backpropagate]: [while node is not None]. *)
Fixpoint _backpropagate (fuel : nat) (heap : Arena) (node : option nat)
    (v : F) : result Arena :=
  match node with
  | None => Ok heap
  | Some id =>
      match fuel with
      | 0 => Raise OutOfFuel
      | S fuel =>
          n ← deref heap id;
          let n' := {| state := state n; parent := parent n;
                       action := action n; children := children n;
                       visits := visits n + 1;
                       total_value := fadd (total_value n) v;
                       untried_actions := untried_actions n;
                       player_idx := player_idx n |} in
          _backpropagate fuel (<[id := n']> heap) (parent n) v
      end
  end.

(** [if node.action: sim_state = self._apply_action(...)]. *)
Definition apply_node_action (heap : Arena) (id : nat) (sim_state : GameState)
    : result GameState :=
  node ← deref heap id;
  match action node with
  | Some a => _apply_action sim_state a (player_idx node)
  | None => Ok sim_state
  end.

(** The selection loop of [_mcts_search]. *)
Fixpoint select_loop (fuel : nat) (c : F) (heap : Arena) (id : nat)
    (sim_state : GameState) : result (nat * GameState) :=
  node ← deref heap id;
  if negb (is_terminal node) && is_fully_expanded node then
    match fuel with
    | 0 => Raise OutOfFuel
    | S fuel =>
        cid ← _select_child c heap id;
        sim_state ← apply_node_action heap cid sim_state;
        select_loop fuel c heap cid sim_state
    end
  else Ok (id, sim_state).

(** One pass of the simulation loop of [_mcts_search]. *)
Definition simulation (c : F) (state : GameState) (player_idx : nat)
    (heap : Arena) (_ : nat) : result Arena :=
  (* Selection *)
  '(id, sim_state) ← select_loop (length heap) c heap 0 (copy state);
  node ← deref heap id;
  (* Expansion *)
  '(heap, id, sim_state) ←
    (if negb (is_terminal node) && negb (is_fully_expanded node) then
       '(heap, cid) ← _expand heap id sim_state;
       sim_state ← apply_node_action heap cid sim_state;
       Ok (heap, cid, sim_state)
     else Ok (heap, id, sim_state));
  (* Simulation *)
  v ← _simulate sim_state player_idx;
  (* Backpropagation *)
  _backpropagate (length heap) heap (Some id) (of_int v).

Definition root_node (state : GameState) (player_idx : nat)
    (valid_cards : list Card) : MCTSNode :=
  {| state := copy state; parent := None; action := None; children := [];
     visits := 0; total_value := of_int 0;
     untried_actions := valid_cards; player_idx := player_idx |}.

(** The tree after [num_simulations] simulations. *)
Definition search_tree (num_simulations : nat) (c : F) (state : GameState)
    (player_idx : nat) (valid_cards : list Card) : result Arena :=
  foldR (simulation c state player_idx)
        [root_node state player_idx valid_cards] (seq 0 num_simulations).

(** [max(root.children, key=lambda c: c.visits)]. *)
Definition most_visited (heap : Arena) (kids : list nat) : result MCTSNode :=
  nodes ← foldR (fun acc cid => c ← deref heap cid; Ok (acc ++ [c])) [] kids;
  py_max (fun x y => bool_decide (visits y < visits x)) nodes.

Definition _mcts_search (num_simulations : nat) (c : F) (state : GameState)
    (player_idx : nat) (valid_cards : list Card) : result (option Card * F) :=
  heap ← search_tree num_simulations c state player_idx valid_cards;
  root ← deref heap 0;
  match children root with
  | [] => card ← index valid_cards 0; Ok (Some card, of_int 0)
  | _ :: _ =>
      best_child ← most_visited heap (children root);
      Ok (action best_child, value best_child)
  end.

(** A Python dict from cards to floats, in insertion order (the order in
    which [max] later walks the keys). *)
Local Abbreviation Dict := (list (Card * F)).

Fixpoint dict_set (d : Dict) (k : Card) (v : F) : Dict :=
  match d with
  | [] => [(k, v)]
  | (k', v') :: d' =>
      if decide (k = k') then (k, v) :: d' else (k', v') :: dict_set d' k v
  end.

Fixpoint dict_get (d : Dict) (k : Card) : result F :=
  match d with
  | [] => Raise KeyError
  | (k', v') :: d' => if decide (k = k') then Ok v' else dict_get d' k
  end.

(** [{card: 0.0 for card in valid_cards}]. *)
Definition zero_values (valid_cards : list Card) : Dict :=
  foldl (fun d card => dict_set d card (of_int 0)) [] valid_cards.

(** Body of the loop of [play]; the [k]-th determinization draws the
    [k]-th shuffle. *)
Definition play_step (shuffles : nat -> list Card -> list Card)
    (num_simulations : nat) (c : F) (state : GameState) (player_idx : nat)
    (valid_cards : list Card) (action_values : Dict) (k : nat)
    : result Dict :=
  determinized_state ← _determinize_state (shuffles k) state player_idx;
  '(best_card, v) ← _mcts_search num_simulations c determinized_state
                                 player_idx valid_cards;
  match best_card with
  | None => Raise KeyError
  | Some best_card =>
      old ← dict_get action_values best_card;
      Ok (dict_set action_values best_card (fadd old v))
  end.

Definition action_values_after (shuffles : nat -> list Card -> list Card)
    (num_simulations num_determinizations : nat) (c : F)
    (state : GameState) (player_idx : nat) (valid_cards : list Card)
    : result Dict :=
  foldR (play_step shuffles num_simulations c state player_idx valid_cards)
        (zero_values valid_cards) (seq 0 num_determinizations).

Definition play (shuffles : nat -> list Card -> list Card)
    (num_simulations num_determinizations : nat) (c : F)
    (hand valid_cards : list Card) (current_trick : list (nat * Card))
    (trump_suit led_suit : option Suit) (player_idx : nat)
    (state : GameState) : result Card :=
  action_values ← action_values_after shuffles num_simulations
                    num_determinizations c state player_idx valid_cards;
  best ← py_max (fun x y => fltb y.2 x.2) action_values;
  Ok best.1.

End Search.

Arguments MCTSNode F : clear implicits.
Abbreviation Arena F := (list (MCTSNode F)).
Abbreviation Dict F := (list (Card * F)).

End MCTSAgent.

(* ===================================================================== *)
(** * Vocabulary of the statements *)
(* ===================================================================== *)

(** The plays of a trick that are Wizards, that are not Jesters, and that
    have a given suit, each in play order. *)
Definition wizards (l : list (nat * Card)) := filter (fun pc => suit pc.2 = WIZARD) l.
Definition non_jesters (l : list (nat * Card)) := filter (fun pc => suit pc.2 ≠ JESTER) l.
Definition of_suit (s : option Suit) (l : list (nat * Card)) :=
  filter (fun pc => Some (suit pc.2) = s) l.


(** [p] is the seat of the highest-ranked card of [l], the first one if
    several entries share that rank. *)
Definition first_highest (l : list (nat * Card)) (p : nat) : Prop :=
  exists pre c post,
    l = pre ++ (p, c) :: post /\
    Forall (fun x => (rank x.2 < rank c)%Z) pre /\
    Forall (fun x => (rank x.2 <= rank c)%Z) post.


(** The hand that a round-robin deal of [m] cards per seat to [n] seats
    gives seat [p]: the cards at positions [p], [n + p], [2 n + p], ... of
    the deck. *)
Definition dealt (deck : list Card) (n p m : nat) : list Card :=
  omap (fun k => deck !! (k * n + p)) (seq 0 m).

(** State of the deal after [k] full passes and [j] cards of the next. *)
Definition deal_inv (deck : list Card) (n k j : nat)
    (acc : list (list Card) * nat) : Prop :=
  acc.2 = k * n + j /\
  length acc.1 = n /\
  (forall p, p < n ->
     acc.1 !! p = Some (dealt deck n p (if decide (p < j) then S k else k))) /\
  concat acc.1 ≡ₚ take acc.2 deck.

(** [self] with [self.state] replaced. *)
Definition with_state (self : WizardGame) (st : GameState) : WizardGame :=
  {| self_num_players := self_num_players self;
     self_total_rounds := self_total_rounds self;
     self_scores := self_scores self;
     self_state := Some st |}.

(** What the agent of seat [p] answers when asked to bid in state [st] after
    the bids [sofar]. *)
Definition bid_asked (agents : list Agent) (st : GameState) (p : nat)
    (sofar : list Z) : Z :=
  match agents !! p, hands st !! p with
  | Some a, Some hand =>
      bid a hand (trump_suit st) (round_num st) p (Some <$> sofar)
  | _, _ => 0%Z
  end.

(** The bids that the first [k] seats return when asked in seat order, each
    one seeing the bids before it. *)
Fixpoint bids_returned (agents : list Agent) (st : GameState) (k : nat) : list Z :=
  match k with
  | 0 => []
  | S k' =>
      let sofar := bids_returned agents st k' in
      sofar ++ [bid_asked agents st k' sofar]
  end.

Definition bid_in_range (round_num : nat) (b : Z) : Prop :=
  (0 <= b <= Z.of_nat round_num)%Z.

(** The bids recorded once the first [p] seats were accepted. *)
Definition bids_after (agents : list Agent) (st : GameState) (n p : nat)
    : list (option Z) :=
  (Some <$> bids_returned agents st p) ++ replicate (n - p) None.

(** [sum(tricks_won)]. *)
Definition sumZ (l : list Z) : Z := foldr Z.add 0%Z l.

(** Seat [p] is among the first [i] to play in the trick led by [l]. *)
Definition played (l n i p : nat) : Prop :=
  exists j, j < i /\ p = (l + j) mod n.

(** State of the trick after [i] plays: the seats that played hold one
    card less, the others hold what they held. *)
Definition trick_inv (self : WizardGame) (st : GameState) (i : nat)
    (g : WizardGame) : Prop :=
  let n := self_num_players self in
  exists sti,
    g = with_state self sti /\
    length (hands sti) = length (hands st) /\
    (forall p hand, hands st !! p = Some hand ->
       exists hand', hands sti !! p = Some hand' /\
         (played (trick_leader st) n i p -> length hand = S (length hand')) /\
         (~ played (trick_leader st) n i p -> hand' = hand)) /\
    length (current_trick sti) = i /\
    Forall (fun pc => pc.1 < n) (current_trick sti) /\
    trick_leader sti = trick_leader st /\
    tricks_won sti = tricks_won st /\
    bids sti = bids st /\
    trump_suit sti = trump_suit st /\
    round_num sti = round_num st.

(** State of the round after [k] completed tricks. *)
Definition round_inv (self : WizardGame) (r k : nat) (g : WizardGame) : Prop :=
  exists st,
    g = with_state self st /\
    length (hands st) = self_num_players self /\
    Forall (fun hand => length hand + k = r) (hands st) /\
    sumZ (tricks_won st) = Z.of_nat k.

(** An agent that keeps the contract of the policy interface: its bid lies
    in [0, round_num] and its card is one of the valid cards. *)
Definition lawful_agent (a : Agent) : Prop :=
  (forall hand trump_suit round_num player_idx bids_so_far,
     bid_in_range round_num
       (bid a hand trump_suit round_num player_idx bids_so_far)) /\
  (forall hand valid_cards current_trick trump_suit led_suit player_idx state,
     valid_cards ≠ [] ->
     play a hand valid_cards current_trick trump_suit led_suit player_idx state
       ∈ valid_cards).

(** State of the round after [k] completed tricks, with what the next trick
    and the scoring need to go through. *)
Definition round_ready (self : WizardGame) (r k : nat) (g : WizardGame) : Prop :=
  exists st,
    g = with_state self st /\
    length (hands st) = self_num_players self /\
    Forall (fun hand => length hand + k = r) (hands st) /\
    length (tricks_won st) = self_num_players self /\
    length (bids st) = self_num_players self /\
    Forall (fun b => is_Some b) (bids st).

(** The led suit in the words of the specification: the suit of the first
    card of the trick that is neither a Wizard nor a Jester. *)
Definition first_suit_bearing (cards : list Card) : option Suit :=
  suit <$> head (filter (fun c => suit c ∉ [JESTER; WIZARD]) cards).

(** The led suit that the loop of [_play_trick] holds after the cards
    [cards], the first of which is the [i]-th of the trick. *)
Fixpoint led_suit_after (i : nat) (led_suit : option Suit) (cards : list Card)
    : option Suit :=
  match cards with
  | [] => led_suit
  | card :: cards' =>
      led_suit_after (S i) (WizardGame.led_suit_update i led_suit card) cards'
  end.

(* ===================================================================== *)
(** * Concrete agents and states *)
(* ===================================================================== *)

(** An agent that bids [b] and plays the first of its valid cards. *)
Definition first_card_agent (b : Z) : Agent :=
  {| bid := fun _ _ _ _ _ => b;
     play := fun _ valid_cards _ _ _ _ _ =>
               default (mkCard JESTER 0) (head valid_cards) |}.

(** The last trick of a 3-player round: seats 0 and 1 hold a Jester each,
    seat 2 holds the 5 of Hearts, seat 0 leads, no trump. *)
Definition jesters_first : WizardGame :=
  {| self_num_players := 3;
     self_total_rounds := 20;
     self_scores := [0; 0; 0]%Z;
     self_state :=
       Some {| num_players := 3; round_num := 1;
               hands := [[mkCard JESTER 0]; [mkCard JESTER 0];
                         [mkCard HEARTS 5]];
               trump_card := Some (mkCard JESTER 0); trump_suit := None;
               bids := [Some 0; Some 0; Some 1]%Z;
               tricks_won := [0; 0; 0]%Z; scores := [0; 0; 0]%Z;
               current_trick := []; trick_leader := 0 |} |}.

(** The state at the start of round 20 of a 3-player game, dealt from the
    deck in the order [create_standard_deck] builds it: all 60 cards are in
    the three hands and there is no trump card. *)
Definition last_round_start : GameState :=
  match Deck.shuffle_and_deal (fun deck => deck) 3 20 with
  | Ok (hands, trump_card, _) =>
      {| num_players := 3; round_num := 20; hands := hands;
         trump_card := trump_card;
         trump_suit := WizardRules.get_trump_suit trump_card;
         bids := [Some 7; Some 6; Some 7]%Z;
         tricks_won := [0; 0; 0]%Z; scores := [0; 0; 0]%Z;
         current_trick := []; trick_leader := 0 |}
  | Raise _ =>
      {| num_players := 0; round_num := 0; hands := []; trump_card := None;
         trump_suit := None; bids := []; tricks_won := []; scores := [];
         current_trick := []; trick_leader := 0 |}
  end.

(** ** Vocabulary for the search tree *)

(** The actions of the children of a node, in the order of their creation. *)
Definition child_actions {F} (heap : MCTSAgent.Arena F)
    (node : MCTSAgent.MCTSNode F) : list Card :=
  omap (fun cid => heap !! cid ≫= MCTSAgent.action) (MCTSAgent.children node).

(** Two versions of a node that differ at most in their statistics. *)
Definition same_shape {F} (n n' : MCTSAgent.MCTSNode F) : Prop :=
  MCTSAgent.state n' = MCTSAgent.state n /\
  MCTSAgent.parent n' = MCTSAgent.parent n /\
  MCTSAgent.action n' = MCTSAgent.action n /\
  MCTSAgent.children n' = MCTSAgent.children n /\
  MCTSAgent.untried_actions n' = MCTSAgent.untried_actions n /\
  MCTSAgent.player_idx n' = MCTSAgent.player_idx n /\
  MCTSAgent.visits n <= MCTSAgent.visits n'.

(** The actions a node starts with: the valid cards given to the search at
    the root, and at any other node the whole hand that the deciding seat
    holds in the node's state. *)
Definition initial_actions {F} (valid_cards : list Card) (id : nat)
    (node : MCTSAgent.MCTSNode F) : option (list Card) :=
  if decide (id = 0) then Some valid_cards
  else hands (MCTSAgent.state node) !! MCTSAgent.player_idx node.

(** Invariant of the arena: the children of a node are nodes of the arena
    other than the root, every node but the root has been visited, and at every node the untried actions followed
    by the actions of its children, latest first, are the actions the node
    started with. *)
Definition tree_inv {F} (valid_cards : list Card) (heap : MCTSAgent.Arena F)
    : Prop :=
  forall id node, heap !! id = Some node ->
    Forall (fun cid => 0 < cid < length heap) (MCTSAgent.children node) /\
    (id ≠ 0 -> 1 <= MCTSAgent.visits node) /\
    initial_actions valid_cards id node
      = Some (MCTSAgent.untried_actions node ++ reverse (child_actions heap node)).

(** The sum that [play] accumulates for [card] over the recorded results. *)
Definition summed {F} (of_int : Z -> F) (fadd : F -> F -> F)
    (recorded : list (Card * F)) (card : Card) : F :=
  foldl (fun acc rec => if decide (rec.1 = card) then fadd acc rec.2 else acc)
        (of_int 0%Z) recorded.

(** The [k]-th recorded result [rec] of [play] is the most visited child of
    the root of the [k]-th search, with its mean value. *)
Definition records_most_visited {F} (of_int : Z -> F)
    (fadd fmul fdiv : F -> F -> F) (fsqrt flog : F -> F) (finf : F)
    (fltb : F -> F -> bool) (shuffles : nat -> list Card -> list Card)
    (num_simulations : nat) (c : F) (state : GameState) (player_idx : nat)
    (valid_cards : list Card) (k : nat) (rec : Card * F) : Prop :=
  exists determinized_state heap root best_child,
    MCTSAgent._determinize_state (shuffles k) state player_idx
      = Ok determinized_state /\
    MCTSAgent.search_tree of_int fadd fmul fdiv fsqrt flog finf fltb
      num_simulations c determinized_state player_idx valid_cards = Ok heap /\
    heap !! 0 = Some root /\
    (exists cid, cid ∈ MCTSAgent.children root /\ heap !! cid = Some best_child) /\
    (forall cid child, cid ∈ MCTSAgent.children root -> heap !! cid = Some child ->
       MCTSAgent.visits child <= MCTSAgent.visits best_child) /\
    MCTSAgent.action best_child = Some rec.1 /\
    1 <= MCTSAgent.visits best_child /\
    rec.2 = fdiv (MCTSAgent.total_value best_child)
                 (of_int (Z.of_nat (MCTSAgent.visits best_child))).

(** A dict with the keys [keys], in this order, and the values [f]. *)
Definition dict_of {F} (keys : list Card) (f : Card -> F) : list (Card * F) :=
  (fun card => (card, f card)) <$> keys.

(** The root of the arena has a child. *)
Definition has_root_child {F} (heap : MCTSAgent.Arena F) : Prop :=
  exists root, heap !! 0 = Some root /\ MCTSAgent.children root ≠ [].

(** The references of the arena point where [_expand] put them: the
    children of a node come after it, its parent before it. *)
Definition arena_wf {F} (heap : MCTSAgent.Arena F) : Prop :=
  forall id node, heap !! id = Some node ->
    Forall (fun cid => id < cid < length heap) (MCTSAgent.children node) /\
    (forall pid, MCTSAgent.parent node = Some pid -> pid < id).

(** The exceptions that Python can raise, as opposed to the two that only
    the arena and the loop bounds of the model add. *)
Definition python_exn (e : Exn) : Prop := e ≠ BadRef /\ e ≠ OutOfFuel.

(** Integer arithmetic in place of the float operations, to run the search
    on concrete inputs: floor division, integer square root, binary
    logarithm, and a bound no value of a search reaches for infinity. *)
Module IntArith.
Definition of_int (z : Z) : Z := z.
Definition fadd : Z -> Z -> Z := Z.add.
Definition fmul : Z -> Z -> Z := Z.mul.
Definition fdiv : Z -> Z -> Z := Z.div.
Definition fsqrt : Z -> Z := Z.sqrt.
Definition flog : Z -> Z := Z.log2.
Definition finf : Z := (2 ^ 1024)%Z.
Definition fltb : Z -> Z -> bool := Z.ltb.

Definition search_tree :=
  MCTSAgent.search_tree of_int fadd fmul fdiv fsqrt flog finf fltb.
Definition _mcts_search :=
  MCTSAgent._mcts_search of_int fadd fmul fdiv fsqrt flog finf fltb.
Definition play :=
  MCTSAgent.play of_int fadd fmul fdiv fsqrt flog finf fltb.
End IntArith.

(** Seat 1 decides after seat 0 led the 5 of Hearts; it holds two Hearts and
    a Spade, so that the rules engine allows the two Hearts. *)
Definition hearts_led : GameState :=
  {| num_players := 3; round_num := 3;
     hands := [[mkCard CLUBS 2; mkCard CLUBS 3];
               [mkCard HEARTS 7; mkCard HEARTS 8; mkCard SPADES 3];
               [mkCard DIAMONDS 2; mkCard DIAMONDS 3; mkCard DIAMONDS 4]];
     trump_card := Some (mkCard CLUBS 9); trump_suit := Some CLUBS;
     bids := [Some 1; Some 1; Some 0]%Z;
     tricks_won := [0; 0; 0]%Z; scores := [0; 0; 0]%Z;
     current_trick := [(0, mkCard HEARTS 5)]; trick_leader := 0 |}.

(* ===================================================================== *)
(** * game/simulator.py: the full game *)
(* ===================================================================== *)

(** What ends a call of [play_full_game] without a result: its [assert],
    or the exception of a round. *)
Inductive Failure : Type := AssertionError | Raised (e : Exn).

(** [WizardGame.play_full_game]; [shuffles round_num] is the shuffle of the
    round's deal.  The result is [self.scores] at the end. *)
Definition play_full_game (shuffles : nat -> list Card -> list Card)
    (agents : list Agent) (self : WizardGame)
    : WizardGame * (Failure + list Z) :=
  if decide (length agents = self_num_players self) then
    match for_each (seq 1 (self_total_rounds self))
            (fun round_num =>
               WizardGame._play_round (shuffles round_num) round_num agents)
            self with
    | (self', Ok _) => (self', inr (self_scores self'))
    | (self', Raise e) => (self', inl (Raised e))
    end
  else (self, inl AssertionError).

(* ===================================================================== *)
(** * agents/heuristic_agent.py *)
(* ===================================================================== *)

Module HeuristicAgent.
Import WizardRules.

(** [max(l, key=...)] and [min(l, key=...)] with an integer key: the first
    element of the largest, of the smallest key. *)
Definition max_key (key : Card -> Z) (l : list Card) : result Card :=
  py_max (fun x y => (key y <? key x)%Z) l.

Definition min_key (key : Card -> Z) (l : list Card) : result Card :=
  py_max (fun x y => (key x <? key y)%Z) l.

(** [lambda c: c.rank if c.suit != Suit.JESTER else -1]. *)
Definition low_key (c : Card) : Z :=
  if decide (suit c ≠ JESTER) then rank c else (-1)%Z.

(** [bid].  The estimate is a Python float; its operations are the
    parameters of this section: [of_int] converts an [int] operand,
    [lit_0_6], [lit_0_3] and [lit_0_5] are the three literals, [to_int] is
    [int(...)]. *)
Section Bid.
Context {F : Type}.
Variable of_int : Z -> F.
Variables fadd fmul : F -> F -> F.
Variables lit_0_6 lit_0_3 lit_0_5 : F.
Variable to_int : F -> Z.

Definition bid (hand : list Card) (trump_suit : option Suit) (round_num : nat)
    (player_idx : nat) (bids_so_far : list (option Z)) : Z :=
  (* Wizards always win *)
  let wizards := filter (fun c => suit c = WIZARD) hand in
  let likely_tricks := of_int (Z.of_nat (length wizards)) in
  (* High trump cards *)
  let likely_tricks :=
    match trump_suit with
    | Some t =>
        let trumps := filter (fun c => suit c = t) hand in
        let high_trumps :=
          filter (fun c => (13 <= rank c)%Z \/ rank c = 1%Z) trumps in
        fadd likely_tricks
             (fmul (of_int (Z.of_nat (length high_trumps))) lit_0_6)
    | None => likely_tricks
    end in
  (* Aces in non-trump suits *)
  let likely_tricks :=
    foldl (fun likely_tricks s =>
             if decide (Some s ≠ trump_suit) then
               let aces :=
                 filter (fun c => suit c = s /\ rank c = 1%Z) hand in
               fadd likely_tricks
                    (fmul (of_int (Z.of_nat (length aces))) lit_0_3)
             else likely_tricks)
          likely_tricks [HEARTS; DIAMONDS; CLUBS; SPADES] in
  let bid := to_int (fmul likely_tricks lit_0_5) in
  let bid :=
    if decide (bid = 0%Z /\ length wizards = 0 /\ 1 < round_num) then
      let high_cards :=
        filter (fun c => (11 <= rank c)%Z /\ suit c ≠ JESTER) hand in
      match high_cards with
      | _ :: _ => 1%Z
      | [] => bid
      end
    else bid in
  (* Clamp to valid range *)
  Z.max 0 (Z.min bid (Z.of_nat round_num)).

End Bid.

(** [_get_current_winner]; [None] is Python's [None]. *)
Definition _get_current_winner (current_trick : list (nat * Card))
    (led_suit trump_suit : option Suit) : result (option Card) :=
  match current_trick with
  | [] => Ok None
  | first :: _ =>
      winner_idx ← determine_trick_winner current_trick led_suit trump_suit;
      match list_find (fun pc => pc.1 = winner_idx) current_trick with
      | Some (_, pc) => Ok (Some pc.2)
      | None => Ok (Some first.2)
      end
  end.

Definition _try_to_beat_trick (valid_cards : list Card)
    (current_trick : list (nat * Card)) (trump_suit led_suit : option Suit)
    : result Card :=
  w ← _get_current_winner current_trick led_suit trump_suit;
  match w with
  | None => Raise AttributeError              (* None.suit *)
  | Some current_winner_card =>
      let lowest := min_key low_key valid_cards in
      if decide (suit current_winner_card = WIZARD) then
        (* Can't beat a Wizard, play lowest *)
        lowest
      else
        (* Try to beat with higher card of led suit *)
        let on_led_suit :=
          match led_suit with
          | Some l =>
              match filter (fun c => suit c = l /\
                                     (rank current_winner_card < rank c)%Z)
                           valid_cards with
              | (_ :: _) as higher_led => min_key rank higher_led
              | [] => lowest
              end
          | None => lowest
          end in
        (* Try trump if we have it *)
        let on_trump :=
          match trump_suit with
          | Some t =>
              match filter (fun c => suit c = t) valid_cards with
              | (_ :: _) as trumps => min_key rank trumps
              | [] => on_led_suit
              end
          | None => on_led_suit
          end in
        (* Try to play higher card of the same category *)
        match trump_suit with
        | Some t =>
            if decide (suit current_winner_card = t) then
              match filter (fun c => suit c = t /\
                                     (rank current_winner_card < rank c)%Z)
                           valid_cards with
              | (_ :: _) as higher_trumps => min_key rank higher_trumps
              | [] =>
                  match filter (fun c => suit c = t) valid_cards with
                  | (_ :: _) as trumps => min_key rank trumps
                  | [] => on_trump
                  end
              end
            else on_trump
        | None => on_trump
        end
  end.

Definition _play_to_win (valid_cards : list Card)
    (current_trick : list (nat * Card)) (trump_suit led_suit : option Suit)
    : result Card :=
  (* If we have a Wizard, play it! *)
  match filter (fun c => suit c = WIZARD) valid_cards with
  | wizard :: _ => Ok wizard
  | [] =>
      match current_trick with
      | [] =>
          (* If we're leading, play highest card *)
          let highest :=
            match filter (fun c => suit c ≠ JESTER) valid_cards with
            | (_ :: _) as non_jesters => max_key rank non_jesters
            | [] => index valid_cards 0
            end in
          match trump_suit with
          | Some t =>
              match filter (fun c => suit c = t) valid_cards with
              | (_ :: _) as trumps => max_key rank trumps
              | [] => highest
              end
          | None => highest
          end
      | _ :: _ =>
          _try_to_beat_trick valid_cards current_trick trump_suit led_suit
      end
  end.

Definition _play_to_lose (valid_cards : list Card)
    (current_trick : list (nat * Card)) (trump_suit led_suit : option Suit)
    : result Card :=
  (* Never play Wizards when trying to lose *)
  let valid_cards :=
    match filter (fun c => suit c ≠ WIZARD) valid_cards with
    | (_ :: _) as non_wizards => non_wizards
    | [] => valid_cards
    end in
  (* Play Jesters if possible *)
  match filter (fun c => suit c = JESTER) valid_cards with
  | jester :: _ => Ok jester
  | [] => min_key low_key valid_cards
  end.

(** [play]; [tricks_remaining] is computed and not used. *)
Definition play (hand valid_cards : list Card)
    (current_trick : list (nat * Card)) (trump_suit led_suit : option Suit)
    (player_idx : nat) (state : GameState) : result Card :=
  my_bid ← index (bids state) player_idx;
  my_tricks_won ← index (tricks_won state) player_idx;
  match my_bid with
  | None => Raise TypeError                   (* my_tricks_won < None *)
  | Some my_bid =>
      let want_to_win := bool_decide (my_tricks_won < my_bid)%Z in
      if want_to_win
      then _play_to_win valid_cards current_trick trump_suit led_suit
      else _play_to_lose valid_cards current_trick trump_suit led_suit
  end.

End HeuristicAgent.

(* ===================================================================== *)
(** * agents/mcts_simple.py *)
(* ===================================================================== *)

Module SimpleMCTSAgent.

(** The floats enter through [of_int], [fadd], [fdiv], the comparison
    [fltb] and the literals 0.3 and 0.5; [random k] is what the [k]-th call
    of [random.random()] returns, and every method that may draw takes the
    number of draws so far and returns the number after it. *)
Section Simple.
Context {F : Type}.
Variable of_int : Z -> F.
Variables fadd fdiv : F -> F -> F.
Variable fltb : F -> F -> bool.
Variables lit_0_3 lit_0_5 : F.
Variable random : nat -> F.

Definition _estimate_win_probability (card : Card) (state : GameState)
    (player_idx : nat) (k : nat) : bool * nat :=
  (* Wizard always wins *)
  if decide (suit card = WIZARD) then (true, k)
  (* Jester rarely wins *)
  else if decide (suit card = JESTER) then (false, k)
  (* High trump very likely *)
  else if decide (Some (suit card) = trump_suit state /\ (10 <= rank card)%Z)
  then (true, k)
  (* Aces somewhat likely *)
  else if decide (rank card = 1%Z) then (fltb lit_0_3 (random k), S k)
  (* High cards maybe *)
  else if decide (11 <= rank card)%Z then (fltb lit_0_5 (random k), S k)
  else (false, k).

(** [_simulate_card]; [tricks_left] is computed and not used. *)
Definition _simulate_card (card : Card) (state : GameState) (player_idx : nat)
    (k : nat) : result (Z * nat) :=
  my_bid ← index (bids state) player_idx;
  my_tricks ← index (tricks_won state) player_idx;
  let '(will_win, k) := _estimate_win_probability card state player_idx k in
  match my_bid with
  | None => Raise TypeError                   (* my_tricks < None *)
  | Some my_bid =>
      let want_to_win := bool_decide (my_tricks < my_bid)%Z in
      Ok (if want_to_win && will_win then 10%Z
          else if negb want_to_win && negb will_win then 10%Z
          else if want_to_win && negb will_win then (-5)%Z
          else (-10)%Z, k)
  end.

(** The inner loop of [play]: [total_value += value], [num_simulations]
    times. *)
Definition total_of (num_simulations : nat) (card : Card) (state : GameState)
    (player_idx : nat) (k : nat) : result (F * nat) :=
  foldR (fun '(total_value, k) _ =>
           '(value, k) ← _simulate_card card state player_idx k;
           Ok (fadd total_value (of_int value), k))
        (of_int 0%Z, k) (seq 0 num_simulations).

(** Body of the outer loop of [play]. *)
Definition value_card (num_simulations : nat) (state : GameState)
    (player_idx : nat) (acc : list (Card * F) * nat) (card : Card)
    : result (list (Card * F) * nat) :=
  let '(card_values, k) := acc in
  '(total_value, k) ← total_of num_simulations card state player_idx k;
  if decide (num_simulations = 0) then Raise ZeroDivisionError
  else Ok (MCTSAgent.dict_set card_values card
             (fdiv total_value (of_int (Z.of_nat num_simulations))), k).

Definition play (num_simulations : nat) (hand valid_cards : list Card)
    (current_trick : list (nat * Card)) (trump_suit led_suit : option Suit)
    (player_idx : nat) (state : GameState) (k : nat) : result (Card * nat) :=
  if decide (length valid_cards = 1) then
    card ← index valid_cards 0; Ok (card, k)
  else
    '(card_values, k) ← foldR (value_card num_simulations state player_idx)
                              ([], k) valid_cards;
    (* max(card_values.keys(), key=lambda c: card_values[c]) *)
    best ← py_max (fun x y => fltb y.2 x.2) card_values;
    Ok (best.1, k).

End Simple.
End SimpleMCTSAgent.

(* ===================================================================== *)
(** * Vocabulary of the further statements *)
(* ===================================================================== *)

(** The seats of the first [i] plays of a trick: the leader, then each next
    seat, round the table of [n]. *)
Definition rotation (leader n i : nat) : list nat :=
  (fun j => (leader + j) mod n) <$> seq 0 i.

(** What the first [i] plays of a trick did, play by play: the [j]-th play
    is by the [j]-th seat of the rotation, its card was valid for the hand
    the seat held under the led suit the loop had then, and the card was
    removed from that hand. *)
Definition trick_log (self : WizardGame) (st : GameState) (i : nat)
    (led_suit : option Suit) (g : WizardGame) : Prop :=
  exists sti,
    g = with_state self sti /\
    (current_trick sti).*1 = rotation (trick_leader st) (self_num_players self) i /\
    led_suit = led_suit_after 0 None (current_trick sti).*2 /\
    forall j p card, current_trick sti !! j = Some (p, card) ->
      exists hand hand',
        hands st !! p = Some hand /\
        hands sti !! p = Some hand' /\
        remove_first card hand = Ok hand' /\
        card ∈ WizardRules.get_valid_plays hand
                 (led_suit_after 0 None (take j (current_trick sti).*2)).

(** State of [_score_round] after the first [i] seats: each of them had a
    bid and got the score of its bid and tricks added; nothing else of
    [self] has changed. *)
Definition scored (self : WizardGame) (i : nat) (g : WizardGame) : Prop :=
  self_state g = self_state self /\
  self_num_players g = self_num_players self /\
  self_total_rounds g = self_total_rounds self /\
  length (self_scores g) = length (self_scores self) /\
  (forall p, i <= p -> self_scores g !! p = self_scores self !! p) /\
  (forall p, p < i ->
     exists st b won old,
       self_state self = Some st /\
       bids st !! p = Some (Some b) /\
       tricks_won st !! p = Some won /\
       self_scores self !! p = Some old /\
       self_scores g !! p = Some (old + WizardRules.score_round b won)%Z).

(** [s'] has the bids and the tricks won of [s]: what [_simulate] reads. *)
Definition same_standing (s s' : GameState) : Prop :=
  bids s' = bids s /\ tricks_won s' = tricks_won s.

(** The value a node has accumulated is what its [visits] rollouts add up
    to if each of them returned [v]. *)
Definition constant_value {F} (of_int : Z -> F) (fadd : F -> F -> F) (v : Z)
    (node : MCTSAgent.MCTSNode F) : Prop :=
  MCTSAgent.total_value node
    = Nat.iter (MCTSAgent.visits node) (fun x => fadd x (of_int v)) (of_int 0%Z).

(** Only node 0 has no parent, and a parent comes before its child. *)
Definition rooted {F} (heap : MCTSAgent.Arena F) : Prop :=
  forall id node, heap !! id = Some node ->
    match MCTSAgent.parent node with
    | None => id = 0
    | Some pid => pid < id
    end.


(** The number of cards that the seats before [k], the deciding seat [p]
    apart, hold in [state]: where the slice of seat [k] starts in the
    shuffled unknown cards. *)
Definition opponents_before (state : GameState) (p k : nat) : nat :=
  sum_list ((fun i => if decide (i ≠ p)
                      then length (default [] (hands state !! i)) else 0)
              <$> seq 0 k).

(** An agent that keeps the contract of the policy interface wherever the
    round loop asks it: its bid lies in [0, round_num], and its card is
    one of the valid cards whenever the state it is shown holds the bid and
    the trick count of its seat. *)
Definition lawful_in_round (a : Agent) : Prop :=
  (forall hand trump_suit round_num player_idx bids_so_far,
     bid_in_range round_num
       (bid a hand trump_suit round_num player_idx bids_so_far)) /\
  (forall hand valid_cards current_trick trump_suit led_suit player_idx state
          b won,
     valid_cards ≠ [] ->
     bids state !! player_idx = Some (Some b) ->
     tricks_won state !! player_idx = Some won ->
     play a hand valid_cards current_trick trump_suit led_suit player_idx state
       ∈ valid_cards).

(** [a] answers as [HeuristicAgent] does: with its bid, and with its card
    wherever its [play] returns one. *)
Definition plays_heuristic {F} (of_int : Z -> F) (fadd fmul : F -> F -> F)
    (lit_0_6 lit_0_3 lit_0_5 : F) (to_int : F -> Z) (a : Agent) : Prop :=
  (forall hand trump_suit round_num player_idx bids_so_far,
     bid a hand trump_suit round_num player_idx bids_so_far
       = HeuristicAgent.bid of_int fadd fmul lit_0_6 lit_0_3 lit_0_5 to_int
           hand trump_suit round_num player_idx bids_so_far) /\
  (forall hand valid_cards current_trick trump_suit led_suit player_idx state
          card,
     HeuristicAgent.play hand valid_cards current_trick trump_suit led_suit
       player_idx state = Ok card ->
     play a hand valid_cards current_trick trump_suit led_suit player_idx state
       = card).

(* ===================================================================== *)
(** * Further concrete agents *)
(* ===================================================================== *)

(** Exact rationals in place of the floats of [HeuristicAgent.bid], to run
    it on concrete hands: [int(...)] truncates towards zero. *)
Module RatArith.
Definition of_int (z : Z) : QArith_base.Q := QArith_base.inject_Z z.
Definition fadd : QArith_base.Q -> QArith_base.Q -> QArith_base.Q :=
  QArith_base.Qplus.
Definition fmul : QArith_base.Q -> QArith_base.Q -> QArith_base.Q :=
  QArith_base.Qmult.
Definition lit_0_6 : QArith_base.Q := QArith_base.Qmake 6 10.
Definition lit_0_3 : QArith_base.Q := QArith_base.Qmake 3 10.
Definition lit_0_5 : QArith_base.Q := QArith_base.Qmake 5 10.
Definition to_int (q : QArith_base.Q) : Z :=
  Z.quot (QArith_base.Qnum q) (Z.pos (QArith_base.Qden q)).

Definition bid :=
  HeuristicAgent.bid of_int fadd fmul lit_0_6 lit_0_3 lit_0_5 to_int.
End RatArith.

(** The heuristic agent as a seat of the simulator.  Where Python would
    raise inside [play], the card is a Jester. *)
Definition heuristic_agent : Agent :=
  {| bid := RatArith.bid;
     play := fun hand valid_cards current_trick trump_suit led_suit
                 player_idx state =>
               match HeuristicAgent.play hand valid_cards current_trick
                       trump_suit led_suit player_idx state with
               | Ok card => card
               | Raise _ => mkCard JESTER 0
               end |}.

(* ===================================================================== *)
(** * Properties *)
(* ===================================================================== *)


(* ===================================================================== *)
(** * Python's [max] *)
(* ===================================================================== *)

Section max_from.
Context {A : Type} (gt : A -> A -> bool).

Lemma max_from_elem (b : A) (l : list A) : max_from gt b l ∈ b :: l.
Proof.
  revert b. induction l as [|x l IH]; intros b; simpl.
  - apply elem_of_cons; by left.
  - pose proof (IH (if gt x b then x else b)) as H.
    destruct (gt x b); rewrite !elem_of_cons in *; naive_solver.
Qed.

Hypothesis gt_irrefl : forall x, gt x x = false.
Hypothesis gt_trans : forall x y z, gt x y = true -> gt y z = true -> gt x z = true.
Hypothesis gt_ntrans :
  forall x y z, gt x y = false -> gt y z = false -> gt x z = false.

Lemma max_from_not_beaten (b : A) (l : list A) :
  gt b (max_from gt b l) = false /\
  Forall (fun x => gt x (max_from gt b l) = false) l.
Proof using gt_irrefl gt_trans gt_ntrans.
  revert b. induction l as [|x l IH]; intros b; simpl.
  - split; [apply gt_irrefl | constructor].
  - destruct (IH (if gt x b then x else b)) as [Hb Hl].
    destruct (gt x b) eqn:Hxb.
    + split; [|constructor; done].
      destruct (gt b (max_from gt x l)) eqn:Hbr; [|done].
      rewrite (gt_trans _ _ _ Hxb Hbr) in Hb. done.
    + split; [done|]. constructor; [|done]. eauto.
Qed.

(** The result is the first of the elements that nothing beats: it beats
    everything before it. *)
Lemma max_from_split (b : A) (l : list A) :
  exists pre post,
    b :: l = pre ++ max_from gt b l :: post /\
    Forall (fun x => gt (max_from gt b l) x = true) pre /\
    Forall (fun x => gt x (max_from gt b l) = false) post.
Proof using gt_irrefl gt_trans gt_ntrans.
  revert b. induction l as [|x l IH]; intros b; simpl.
  - exists [], []. repeat split; constructor.
  - destruct (gt x b) eqn:Hxb.
    + destruct (IH x) as (pre & post & Heq & Hpre & Hpost).
      exists (b :: pre), post. rewrite Heq at 1. split; [done|]. split; [|done].
      constructor; [|done].
      destruct (max_from_not_beaten x l) as [Hx _].
      destruct (gt (max_from gt x l) b) eqn:Hrb; [done|].
      rewrite (gt_ntrans _ _ _ Hx Hrb) in Hxb. done.
    + destruct (IH b) as (pre & post & Heq & Hpre & Hpost).
      destruct (max_from_not_beaten b l) as [Hb Hl].
      remember (max_from gt b l) as r eqn:Hr. clear Hr IH.
      destruct pre as [|b' pre]; simpl in Heq.
      * injection Heq as <- <-. exists [], (x :: l).
        split; [done|]. split; [constructor|]. by constructor.
      * injection Heq as <- Heq. exists (b :: x :: pre), post.
        split; [by rewrite Heq|]. inversion Hpre as [|? ? Hrb Hpre']; subst.
        split; [|done]. constructor; [done|]. constructor; [|done].
        destruct (gt r x) eqn:E; [done|].
        rewrite (gt_ntrans _ _ _ E Hxb) in Hrb. done.
Qed.
End max_from.

(* ===================================================================== *)
(** * Rules engine *)
(* ===================================================================== *)

Section Rules.
Import WizardRules.

Lemma rank_gt_irrefl x : rank_gt x x = false.
Proof. unfold rank_gt. lia. Qed.

Lemma rank_gt_trans x y z :
  rank_gt x y = true -> rank_gt y z = true -> rank_gt x z = true.
Proof. unfold rank_gt. lia. Qed.

Lemma rank_gt_ntrans x y z :
  rank_gt x y = false -> rank_gt y z = false -> rank_gt x z = false.
Proof. unfold rank_gt. lia. Qed.

Lemma max_from_first_highest x rest :
  first_highest (x :: rest) (max_from rank_gt x rest).1.
Proof.
  destruct (max_from_split rank_gt rank_gt_irrefl rank_gt_trans
              rank_gt_ntrans x rest) as (pre & post & Heq & Hpre & Hpost).
  destruct (max_from rank_gt x rest) as [p c] eqn:Hm. simpl.
  exists pre, c, post. split; [done|]. split.
  - eapply Forall_impl; [exact Hpre|]. intros y. unfold rank_gt. simpl. lia.
  - eapply Forall_impl; [exact Hpost|]. intros y. unfold rank_gt. simpl. lia.
Qed.

Lemma first_highest_elem l p : first_highest l p -> p ∈ l.*1.
Proof.
  intros (pre & c & post & -> & _). rewrite fmap_app, fmap_cons. simpl.
  set_solver.
Qed.


Lemma list_find_wizard_None l :
  list_find (fun pc : nat * Card => suit pc.2 = WIZARD) l = None <-> wizards l = [].
Proof.
  rewrite list_find_None. unfold wizards. split.
  - intros H. induction H; [done|]. rewrite filter_cons_False; done.
  - intros H. induction l as [|x l IH]; [constructor|].
    rewrite filter_cons in H. case_decide; [done|]. constructor; auto.
Qed.

Lemma forallb_jester l :
  forallb (fun pc : nat * Card => bool_decide (suit pc.2 = JESTER)) l = true
  <-> non_jesters l = [].
Proof.
  unfold non_jesters. induction l as [|x l IH]; simpl; [done|].
  rewrite andb_true_iff, bool_decide_eq_true, IH, filter_cons.
  case_decide; naive_solver.
Qed.

Lemma trumps_eq t l :
  filter (fun pc : nat * Card => suit pc.2 = t) l = of_suit (Some t) l.
Proof.
  unfold of_suit. induction l as [|x l IH]; [done|].
  rewrite !filter_cons, IH. repeat case_decide; naive_solver.
Qed.

(** The four rules and the fall-through of [determine_trick_winner], as one
    case analysis on what was played. *)
Lemma determine_trick_winner_cases cards_played led_suit trump_suit :
  determine_trick_winner cards_played led_suit trump_suit =
    match wizards cards_played with
    | w :: _ => Ok w.1
    | [] =>
      match non_jesters cards_played with
      | [] => first_player cards_played
      | _ :: _ =>
        match match trump_suit with
              | Some t => of_suit (Some t) (non_jesters cards_played)
              | None => []
              end with
        | x :: rest => Ok (max_from rank_gt x rest).1
        | [] =>
          match of_suit led_suit (non_jesters cards_played) with
          | x :: rest => Ok (max_from rank_gt x rest).1
          | [] => first_player cards_played
          end
        end
      end
    end.
Proof.
  unfold determine_trick_winner.
  destruct (list_find _ cards_played) as [[i pc]|] eqn:Hf.
  - apply list_find_Some in Hf as (Hi & Hw & Hbefore).
    apply list_elem_of_split_length in Hi as (pre & post & -> & ->).
    unfold wizards. rewrite filter_app, filter_cons_True by done.
    replace (filter _ pre) with (@nil (nat * Card)); [done|].
    symmetry. apply list_find_wizard_None, list_find_None.
    apply Forall_forall. intros x Hx.
    apply list_elem_of_lookup in Hx as [j Hj].
    apply (Hbefore j).
    + rewrite lookup_app_l; [done|]. by eapply lookup_lt_Some.
    + by eapply lookup_lt_Some.
  - apply list_find_wizard_None in Hf. rewrite Hf.
    destruct (forallb _ cards_played) eqn:Hj.
    + apply forallb_jester in Hj. by rewrite Hj.
    + destruct (non_jesters cards_played) eqn:Hn.
      { apply forallb_jester in Hn. congruence. }
      fold (non_jesters cards_played). rewrite Hn.
      destruct trump_suit as [t|]; [rewrite trumps_eq|]; done.
Qed.

(** C4.  For a non-empty trick, [determine_trick_winner] returns: the seat
    of the first Wizard played, if a Wizard was played; else the seat of
    the first play, if every card is a Jester; else, among the cards that
    are not Jesters, the seat of the highest-ranked card of the trump suit,
    if there is a trump suit and such a card was played; else the seat of
    the highest-ranked card of the led suit (where a card of the led suit
    was played). *)
Theorem determine_trick_winner_rules cards_played led_suit trump_suit :
  cards_played ≠ [] ->
  let winner := determine_trick_winner cards_played led_suit trump_suit in
  (* (1) the first Wizard *)
  (forall pre p c post,
     cards_played = pre ++ (p, c) :: post -> suit c = WIZARD ->
     wizards pre = [] -> winner = Ok p) /\
  (* (2) all Jesters: the first play *)
  (wizards cards_played = [] -> non_jesters cards_played = [] ->
   exists p c rest, cards_played = (p, c) :: rest /\ winner = Ok p) /\
  (* (3) the highest trump *)
  (wizards cards_played = [] -> non_jesters cards_played ≠ [] ->
   forall t, trump_suit = Some t ->
     of_suit (Some t) (non_jesters cards_played) ≠ [] ->
     exists p, winner = Ok p /\
       first_highest (of_suit (Some t) (non_jesters cards_played)) p) /\
  (* (4) the highest card of the led suit *)
  (wizards cards_played = [] -> non_jesters cards_played ≠ [] ->
   (forall t, trump_suit = Some t ->
      of_suit (Some t) (non_jesters cards_played) = []) ->
   of_suit led_suit (non_jesters cards_played) ≠ [] ->
   exists p, winner = Ok p /\
     first_highest (of_suit led_suit (non_jesters cards_played)) p).
Proof.
  intros Hne winner. subst winner.
  rewrite determine_trick_winner_cases. repeat split.
  - intros pre p c post -> Hc Hpre. unfold wizards in *.
    rewrite filter_app, Hpre, filter_cons_True by done. done.
  - intros -> ->. destruct cards_played as [|[p c] rest]; [done|]. eauto.
  - intros -> Hnj t -> Ht.
    destruct (non_jesters cards_played); [done|].
    destruct (of_suit (Some t) _) as [|x rest] eqn:E; [done|].
    eexists. split; [done|]. apply max_from_first_highest.
  - intros -> Hnj Htr Hled.
    destruct (non_jesters cards_played) eqn:En; [done|].
    replace (match trump_suit with Some t => of_suit (Some t) (p :: l) | None => [] end)
      with (@nil (nat * Card)) by (destruct trump_suit; [by rewrite Htr|done]).
    destruct (of_suit led_suit _) as [|x rest] eqn:E; [done|].
    eexists. split; [done|]. apply max_from_first_highest.
Qed.

(** C4 at the trick of the rules test: King of Hearts led, then the 2 of
    Spades with Spades trump; the low trump wins. *)
Lemma determine_trick_winner_rules_witness :
  let cards_played := [(0, mkCard HEARTS 13); (1, mkCard SPADES 2)] in
  cards_played ≠ [] /\
  exists p,
    determine_trick_winner cards_played (Some HEARTS) (Some SPADES) = Ok p /\
    first_highest (of_suit (Some SPADES) (non_jesters cards_played)) p.
Proof.
  intros cards_played.
  assert (Hne : cards_played ≠ []) by done.
  split; [exact Hne|].
  destruct (determine_trick_winner_rules cards_played (Some HEARTS)
              (Some SPADES) Hne) as (_ & _ & H3 & _).
  apply (H3 eq_refl) with (t := SPADES); done.
Defined.

(** C10.  On a non-empty trick [determine_trick_winner] always returns, and
    returns the seat of one of the plays; when no Wizard was played, not
    every card is a Jester, no card that is not a Jester has the trump
    suit and none has the led suit, that seat is the one of the first
    play. *)
Theorem determine_trick_winner_total cards_played led_suit trump_suit :
  cards_played ≠ [] ->
  exists winner,
    determine_trick_winner cards_played led_suit trump_suit = Ok winner /\
    winner ∈ cards_played.*1 /\
    (wizards cards_played = [] -> non_jesters cards_played ≠ [] ->
     (forall t, trump_suit = Some t ->
        of_suit (Some t) (non_jesters cards_played) = []) ->
     of_suit led_suit (non_jesters cards_played) = [] ->
     exists c rest, cards_played = (winner, c) :: rest).
Proof.
  intros Hne. rewrite determine_trick_winner_cases.
  assert (Hsub : forall (P : nat * Card -> Prop) `{!forall x, Decision (P x)}
                   (l : list (nat * Card)) p,
             p ∈ (filter P l).*1 -> p ∈ l.*1).
  { intros P ? l p. rewrite !list_elem_of_fmap.
    intros (y & -> & Hy). apply list_elem_of_filter in Hy as [_ Hy]. eauto. }
  assert (Hfirst : exists p c rest, cards_played = (p, c) :: rest).
  { destruct cards_played as [|[p c] rest]; [done|]. eauto. }
  destruct Hfirst as (p0 & c0 & rest0 & Hcp).
  assert (Hp0 : p0 ∈ cards_played.*1) by (rewrite Hcp; set_solver).
  destruct (wizards cards_played) as [|w ws] eqn:Hw.
  - destruct (non_jesters cards_played) as [|n ns] eqn:Hn.
    + exists p0. rewrite Hcp at 1. split; [done|]. split; [done|]. done.
    + destruct (match trump_suit with
                | Some t => of_suit (Some t) (n :: ns) | None => [] end)
        as [|x rest] eqn:Ht.
      * destruct (of_suit led_suit (n :: ns)) as [|x rest] eqn:Hl.
        -- exists p0. rewrite Hcp at 1. split; [done|]. split; [done|]. eauto.
        -- eexists. split; [done|]. split; [|done].
           apply (Hsub (fun pc => suit pc.2 ≠ JESTER) _).
           fold (non_jesters cards_played). rewrite Hn.
           apply (Hsub (fun pc => Some (suit pc.2) = led_suit) _).
           fold (of_suit led_suit (n :: ns)). rewrite Hl.
           apply first_highest_elem, max_from_first_highest.
      * eexists. split; [done|]. split.
        -- destruct trump_suit as [t|]; [|done].
           apply (Hsub (fun pc => suit pc.2 ≠ JESTER) _).
           fold (non_jesters cards_played). rewrite Hn.
           apply (Hsub (fun pc => Some (suit pc.2) = Some t) _).
           fold (of_suit (Some t) (n :: ns)). rewrite Ht.
           apply first_highest_elem, max_from_first_highest.
        -- intros _ _ Htr _. destruct trump_suit as [t|]; [|done].
           rewrite (Htr t eq_refl) in Ht. done.
  - exists w.1. split; [done|]. split; [|done].
    apply (Hsub (fun pc => suit pc.2 = WIZARD) _).
    fold (wizards cards_played). rewrite Hw. set_solver.
Qed.

(** C10 at a trick of two Jesters and the 5 of Hearts, for which the round
    loop leaves the led suit undefined: the first Jester's seat wins. *)
Lemma determine_trick_winner_total_witness :
  let cards_played :=
    [(0, mkCard JESTER 0); (1, mkCard JESTER 0); (2, mkCard HEARTS 5)] in
  cards_played ≠ [] /\
  determine_trick_winner cards_played None None = Ok 0.
Proof.
  intros cards_played.
  assert (Hne : cards_played ≠ []) by done.
  split; [exact Hne|].
  destruct (determine_trick_winner_total cards_played None None Hne)
    as (w & Hw & _ & Hfirst).
  destruct Hfirst as (c & rest & Heq); [done..|].
  injection Heq as <- _ _. exact Hw.
Defined.

(** C7.  With the bid of the seat set, [_simulate] returns what
    [score_round] returns on that bid and the tricks won so far:
    [20 + 10 * bid] on a match and [-10 * |bid - tricks_won|] otherwise. *)
Theorem simulate_is_score_round (state : GameState) (player_idx : nat)
    (my_bid my_tricks : Z) :
  bids state !! player_idx = Some (Some my_bid) ->
  tricks_won state !! player_idx = Some my_tricks ->
  MCTSAgent._simulate state player_idx = Ok (score_round my_bid my_tricks) /\
  score_round my_bid my_tricks =
    (if decide (my_bid = my_tricks) then 20 + 10 * my_bid
     else -10 * Z.abs (my_bid - my_tricks))%Z.
Proof.
  intros Hb Ht. unfold MCTSAgent._simulate, score_round, index.
  rewrite Hb, Ht. simpl. by case_decide.
Qed.

Lemma simulate_is_score_round_witness :
  let state := mkGameState 3 3 [[]; []; []] None None
                 [Some 3; Some 0; Some 2]%Z [1; 0; 5]%Z [0; 0; 0]%Z [] 0 in
  bids state !! 0 = Some (Some 3%Z) /\ tricks_won state !! 0 = Some 1%Z /\
  MCTSAgent._simulate state 0 = Ok (-20)%Z /\ score_round 3 1 = (-20)%Z.
Proof.
  intros state.
  assert (Hb : bids state !! 0 = Some (Some 3%Z)) by reflexivity.
  assert (Ht : tricks_won state !! 0 = Some 1%Z) by reflexivity.
  split; [exact Hb|]. split; [exact Ht|].
  destruct (simulate_is_score_round state 0 3 1 Hb Ht) as [H1 H2].
  split; [exact H1 | exact H2].
Defined.
End Rules.

(* ===================================================================== *)
(** * Loops *)
(* ===================================================================== *)


(** Total correctness of a loop from an invariant indexed by the number of
    iterations done. *)
Lemma foldR_total {A B} (body : A -> B -> result A) (I : nat -> A -> Prop)
    (l : list B) (acc : A) :
  I 0 acc ->
  (forall i a x, l !! i = Some x -> I i a ->
     exists a', body a x = Ok a' /\ I (S i) a') ->
  exists a', foldR body acc l = Ok a' /\ I (length l) a'.
Proof.
  revert I acc. induction l as [|x l IH]; intros I acc H0 Hstep; simpl.
  - eauto.
  - destruct (Hstep 0 acc x eq_refl H0) as (a' & -> & H1). simpl.
    apply (IH (fun i => I (S i))); [done|].
    intros i a y Hy. apply (Hstep (S i)). done.
Qed.

(** Partial correctness: what holds if the loop came to its end. *)
Lemma foldR_partial {A B} (body : A -> B -> result A) (I : nat -> A -> Prop)
    (l : list B) (acc acc' : A) :
  I 0 acc ->
  (forall i a x a', l !! i = Some x -> I i a -> body a x = Ok a' -> I (S i) a') ->
  foldR body acc l = Ok acc' -> I (length l) acc'.
Proof.
  revert I acc. induction l as [|x l IH]; intros I acc H0 Hstep; simpl.
  - by intros [= <-].
  - destruct (body acc x) as [a|e] eqn:Hb; simpl; [|done].
    apply (IH (fun i => I (S i))).
    + by apply (Hstep 0 acc x a).
    + intros i a0 y a' Hy. apply (Hstep (S i)). done.
Qed.

(* ===================================================================== *)
(** * Dealing *)
(* ===================================================================== *)

Section Deal.
Import Deck.


Lemma dealt_S deck n p m c :
  deck !! (m * n + p) = Some c -> dealt deck n p (S m) = dealt deck n p m ++ [c].
Proof.
  intros Hc. unfold dealt. rewrite seq_S, omap_app. simpl. by rewrite Hc.
Qed.

Lemma dealt_length deck n p m :
  m * n + p < length deck + n -> p < n -> m * n <= length deck ->
  length (dealt deck n p m) = m.
Proof.
  intros _ Hp. induction m as [|m IH]; intros Hm; [done|].
  destruct (lookup_lt_is_Some_2 deck (m * n + p)) as [c Hc]; [lia|].
  rewrite (dealt_S _ _ _ _ c Hc), length_app, IH; simpl; lia.
Qed.

Lemma dealt_lookup deck n p m k :
  p < n -> m * n <= length deck -> k < m ->
  dealt deck n p m !! k = deck !! (k * n + p).
Proof.
  intros Hp. revert k. induction m as [|m IH]; intros k Hm Hk; [lia|].
  destruct (lookup_lt_is_Some_2 deck (m * n + p)) as [c Hc]; [lia|].
  rewrite (dealt_S _ _ _ _ c Hc).
  destruct (decide (k = m)) as [->|Hne].
  - rewrite lookup_app_r; rewrite dealt_length; try lia.
    by rewrite Nat.sub_diag, Hc.
  - rewrite lookup_app_l by (rewrite dealt_length; lia).
    apply IH; lia.
Qed.

Lemma concat_insert_snoc (hands : list (list Card)) p h c :
  hands !! p = Some h ->
  concat (<[p := h ++ [c]]> hands) ≡ₚ concat hands ++ [c].
Proof.
  intros Hp.
  rewrite <- (take_drop_middle hands p h Hp) at 2.
  rewrite insert_take_drop by (by eapply lookup_lt_Some).
  rewrite !concat_app, !concat_cons.
  rewrite <- !(assoc_L (++)). apply Permutation_app_head.
  apply Permutation_app_head. apply Permutation_app_comm.
Qed.

Lemma deal_card_inv deck n k j acc :
  j < n -> k * n + j < length deck ->
  deal_inv deck n k j acc ->
  exists acc', deal_card deck acc j = Ok acc' /\ deal_inv deck n k (S j) acc'.
Proof.
  intros Hj Hlen (Hidx & Hn & Hhands & Hperm).
  destruct acc as [hands idx]; simpl in *. subst idx.
  pose proof (Hhands j Hj) as Hhj. rewrite decide_False in Hhj by lia.
  unfold deal_card, index. rewrite Hhj. simpl.
  destruct (lookup_lt_is_Some_2 deck (k * n + j)) as [c Hc]; [done|].
  rewrite Hc. simpl. eexists. split; [done|].
  split; [simpl; lia|]. split; [simpl; by rewrite length_insert|].
  split; simpl.
  - intros p Hp. destruct (decide (p = j)) as [->|Hne].
    + rewrite list_lookup_insert_eq by lia. rewrite decide_True by lia.
      by rewrite (dealt_S _ _ _ _ c Hc).
    + rewrite list_lookup_insert_ne by done. rewrite (Hhands p Hp).
      do 2 f_equal. repeat case_decide; lia.
  - rewrite (concat_insert_snoc _ _ _ _ Hhj).
    rewrite Hperm. rewrite (take_S_r _ _ c) by done. done.
Qed.

Lemma deal_pass_inv deck n k acc x :
  (S k) * n <= length deck ->
  deal_inv deck n k 0 acc ->
  exists acc', deal_pass deck n acc x = Ok acc' /\ deal_inv deck n (S k) 0 acc'.
Proof.
  intros Hlen Hinv. unfold deal_pass.
  destruct (foldR_total (deal_card deck)
              (fun j acc => deal_inv deck n k j acc) (seq 0 n) acc Hinv)
    as (acc' & Hrun & Hinv').
  - intros i a j Hj Ha. apply lookup_seq in Hj as [-> Hi]. simpl.
    apply deal_card_inv; [done| |done]. simpl in Hlen. lia.
  - exists acc'. split; [done|]. rewrite length_seq in Hinv'.
    destruct Hinv' as (Hidx & Hn & Hhands & Hperm).
    split; [simpl; lia|]. split; [done|]. split; [|done].
    intros p Hp. rewrite (Hhands p Hp). rewrite decide_True by done.
    by rewrite decide_False by lia.
Qed.

Lemma deal_loop_total deck n r :
  r * n <= length deck ->
  exists hands,
    foldR (deal_pass deck n) (replicate n [], 0) (seq 0 r) = Ok (hands, r * n) /\
    length hands = n /\
    (forall p, p < n -> hands !! p = Some (dealt deck n p r)) /\
    concat hands ≡ₚ take (r * n) deck.
Proof.
  intros Hlen.
  destruct (foldR_total (deal_pass deck n)
              (fun k acc => k <= r /\ deal_inv deck n k 0 acc)
              (seq 0 r) (replicate n [], 0)) as ([hands idx] & Hrun & Hk & Hinv).
  - split; [lia|]. split; [done|]. split; [simpl; by rewrite length_replicate|].
    split; simpl.
    + intros p Hp. rewrite lookup_replicate_2 by done. done.
    + clear. induction n; simpl; auto.
  - intros i a x Hx [Hi Ha]. apply lookup_seq in Hx as [-> Hx].
    destruct (deal_pass_inv deck n i a (0 + i)) as (a' & Hr & Ha'); [nia|done|].
    exists a'. split; [done|]. split; [lia|done].
  - rewrite length_seq in Hinv. destruct Hinv as (Hidx & Hn & Hhands & Hperm).
    simpl in *. rewrite Nat.add_0_r in Hidx. subst idx.
    exists hands. split; [done|]. split; [done|]. split; [|done].
    intros p Hp. by rewrite (Hhands p Hp).
Qed.

(** C5.  For 3 to 6 players and [num_players * round_num <= 60], with a
    shuffle that permutes the deck, [shuffle_and_deal] returns
    [num_players] hands of exactly [round_num] cards each, dealt
    round-robin from the shuffled deck (card [k] of seat [p] is card
    [k * num_players + p] of the deck); there is a trump card exactly when
    [num_players * round_num < 60]; and hands, trump card and remaining
    cards together are a permutation of the 60-card deck. *)
Theorem shuffle_and_deal_partition (shuffle : list Card -> list Card)
    (num_players round_num : nat) :
  shuffle create_standard_deck ≡ₚ create_standard_deck ->
  3 <= num_players <= 6 ->
  num_players * round_num <= 60 ->
  exists hands trump_card remaining,
    shuffle_and_deal shuffle num_players round_num
      = Ok (hands, trump_card, remaining) /\
    length hands = num_players /\
    Forall (fun hand => length hand = round_num) hands /\
    (forall p k hand, p < num_players -> k < round_num ->
       hands !! p = Some hand ->
       hand !! k = shuffle create_standard_deck !! (k * num_players + p)) /\
    (is_Some trump_card <-> num_players * round_num < 60) /\
    concat hands ++ option_list trump_card ++ remaining
      ≡ₚ create_standard_deck.
Proof.
  intros Hshuf Hn Hnr.
  assert (Hlen : length (shuffle create_standard_deck) = 60).
  { by rewrite Hshuf. }
  set (deck := shuffle create_standard_deck) in *.
  destruct (deal_loop_total deck num_players round_num)
    as (hands & Hrun & Hlenh & Hhands & Hperm); [lia|].
  exists hands, (deck !! (round_num * num_players)),
    (drop (round_num * num_players + 1) deck).
  split. { unfold shuffle_and_deal. fold deck. rewrite Hrun. done. }
  split; [done|]. split; [|split; [|split]].
  - apply Forall_forall. intros hand Hh.
    apply list_elem_of_lookup in Hh as [p Hp].
    assert (p < num_players) by (rewrite <- Hlenh; by eapply lookup_lt_Some).
    rewrite Hhands in Hp by done. injection Hp as <-.
    apply dealt_length; lia.
  - intros p k hand Hp Hk Hh. rewrite Hhands in Hh by done.
    injection Hh as <-. apply dealt_lookup; lia.
  - rewrite lookup_lt_is_Some. lia.
  - rewrite Hperm, <- Hshuf. fold deck.
    destruct (deck !! (round_num * num_players)) as [c|] eqn:Hc; simpl.
    + rewrite Nat.add_1_r.
      by rewrite (take_drop_middle deck _ c Hc).
    + apply lookup_ge_None in Hc.
      rewrite take_ge, drop_ge by lia. by rewrite app_nil_r.
Qed.

(** C5 at the last round of a 3-player game with the deck reversed by the
    shuffle: 20 cards each and no trump card. *)
Lemma shuffle_and_deal_partition_witness :
  reverse create_standard_deck ≡ₚ create_standard_deck /\
  3 <= 3 <= 6 /\ 3 * 20 <= 60 /\
  exists hands remaining,
    shuffle_and_deal reverse 3 20 = Ok (hands, None, remaining) /\
    Forall (fun hand => length hand = 20) hands.
Proof.
  assert (H1 : reverse create_standard_deck ≡ₚ create_standard_deck)
    by apply reverse_Permutation.
  assert (H2 : 3 <= 3 <= 6) by lia.
  assert (H3 : 3 * 20 <= 60) by lia.
  split; [exact H1|]. split; [exact H2|]. split; [exact H3|].
  destruct (shuffle_and_deal_partition reverse 3 20 H1 H2 H3)
    as (hands & trump_card & remaining & Hrun & _ & Hall & _ & Htrump & _).
  destruct trump_card as [c|].
  - exfalso. assert (3 * 20 < 60) by (apply Htrump; eauto). lia.
  - exists hands, remaining. split; [exact Hrun | exact Hall].
Defined.
End Deal.

(* ===================================================================== *)
(** * Methods of [WizardGame] *)
(* ===================================================================== *)

Lemma foldP_app {A B} (body : A -> B -> Prog A) acc l1 l2 self :
  foldP body acc (l1 ++ l2) self =
    match foldP body acc l1 self with
    | (g, Ok a) => foldP body a l2 g
    | (g, Raise e) => (g, Raise e)
    end.
Proof.
  revert acc self. induction l1 as [|x l1 IH]; intros acc self; simpl; [done|].
  unfold mbind, Prog_bind. destruct (body acc x self) as [g [a|e]]; [apply IH|done].
Qed.

(** Total correctness of a loop of a method, from an invariant on the local
    and on [self], indexed by the number of iterations done. *)
Lemma foldP_total {A B} (body : A -> B -> Prog A)
    (I : nat -> A -> WizardGame -> Prop) (l : list B) acc self :
  I 0 acc self ->
  (forall i a g x, l !! i = Some x -> I i a g ->
     exists a' g', body a x g = (g', Ok a') /\ I (S i) a' g') ->
  exists a' g', foldP body acc l self = (g', Ok a') /\ I (length l) a' g'.
Proof.
  revert I acc self. induction l as [|x l IH]; intros I acc self H0 Hstep; simpl.
  - eauto.
  - destruct (Hstep 0 acc self x eq_refl H0) as (a' & g' & Hb & H1).
    unfold mbind, Prog_bind. rewrite Hb.
    apply (IH (fun i => I (S i))); [done|].
    intros i a g y Hy. apply (Hstep (S i)). done.
Qed.

Lemma foldP_partial {A B} (body : A -> B -> Prog A)
    (I : nat -> A -> WizardGame -> Prop) (l : list B) acc self acc' self' :
  I 0 acc self ->
  (forall i a g x a' g', l !! i = Some x -> I i a g ->
     body a x g = (g', Ok a') -> I (S i) a' g') ->
  foldP body acc l self = (self', Ok acc') -> I (length l) acc' self'.
Proof.
  revert I acc self. induction l as [|x l IH]; intros I acc self H0 Hstep; simpl.
  - by intros [= <- <-].
  - unfold mbind, Prog_bind.
    destruct (body acc x self) as [g [a|e]] eqn:Hb; [|done].
    apply (IH (fun i => I (S i))).
    + by apply (Hstep 0 acc self x a g).
    + intros i a0 g0 y a' g' Hy. apply (Hstep (S i)). done.
Qed.

Section Bidding.
Import WizardGame.

Lemma with_state_id self st : self_state self = Some st -> with_state self st = self.
Proof. destruct self. simpl. by intros ->. Qed.

Lemma set_bids_id st : set_bids (bids st) st = st.
Proof. by destruct st. Qed.

Lemma bids_returned_length agents st k : length (bids_returned agents st k) = k.
Proof. induction k; simpl; [done|]. rewrite length_app. simpl. lia. Qed.

Lemma bids_returned_take agents st n k :
  k <= n -> take k (bids_returned agents st n) = bids_returned agents st k.
Proof.
  induction n as [|n IH]; intros Hk.
  - replace k with 0 by lia. done.
  - destruct (decide (k = S n)) as [->|Hne].
    + apply take_ge. rewrite bids_returned_length. lia.
    + simpl. rewrite take_app_le by (rewrite bids_returned_length; lia).
      apply IH. lia.
Qed.

Lemma bids_returned_lookup agents st n k :
  k < n ->
  bids_returned agents st n !! k
    = Some (bid_asked agents st k (bids_returned agents st k)).
Proof.
  intros Hk.
  rewrite <- (lookup_take_lt _ (S k)) by lia.
  rewrite bids_returned_take by lia. simpl.
  rewrite lookup_app_r; rewrite bids_returned_length; [|done].
  by rewrite Nat.sub_diag.
Qed.

Lemma bid_step_run agents self st n p :
  length agents = n -> length (hands st) = n -> p < n ->
  let b := bid_asked agents st p (bids_returned agents st p) in
  bid_step agents p (with_state self (set_bids (bids_after agents st n p) st))
  = if decide (bid_in_range (round_num st) b)
    then (with_state self (set_bids (bids_after agents st n (S p)) st), Ok tt)
    else (with_state self (set_bids (bids_after agents st n p) st),
          Raise ValueError).
Proof.
  intros Ha Hh Hp b.
  destruct (lookup_lt_is_Some_2 agents p) as [a Hap]; [lia|].
  destruct (lookup_lt_is_Some_2 (hands st) p) as [h Hhp]; [lia|].
  unfold bid_step, mbind, Prog_bind, lift, index, get_state. simpl.
  rewrite Hap, Hhp. simpl.
  assert (Htake : take p (bids_after agents st n p)
                  = Some <$> bids_returned agents st p).
  { unfold bids_after. rewrite take_app_length'; [done|].
    by rewrite length_fmap, bids_returned_length. }
  rewrite Htake.
  assert (Hb : bid a h (trump_suit st) (round_num st) p
                 (Some <$> bids_returned agents st p) = b).
  { subst b. unfold bid_asked. by rewrite Hap, Hhp. }
  rewrite Hb. unfold bid_in_range.
  destruct (decide (0 <= b <= Z.of_nat (round_num st))%Z) as [Hin|Hout].
  - replace ((0 <=? b)%Z && (b <=? Z.of_nat (round_num st))%Z) with true
      by (symmetry; apply andb_true_iff; lia).
    simpl. unfold store.
    rewrite decide_True.
    2:{ unfold bids_after. rewrite length_app, length_fmap,
          bids_returned_length, length_replicate. lia. }
    simpl. unfold put_state, with_state. simpl. do 3 f_equal.
    unfold set_bids. simpl. f_equal.
    unfold bids_after. simpl. rewrite fmap_app. simpl.
    replace (n - p) with (S (n - S p)) by lia. simpl.
    rewrite <- (assoc_L (++)). simpl.
    rewrite insert_app_r_alt; rewrite length_fmap, bids_returned_length; [|done].
    by rewrite Nat.sub_diag.
  - replace ((0 <=? b)%Z && (b <=? Z.of_nat (round_num st))%Z) with false
      by (symmetry; apply andb_false_iff; lia).
    done.
Qed.

Lemma bidding_prefix agents self st n p :
  length agents = n -> length (hands st) = n -> p <= n ->
  Forall (bid_in_range (round_num st)) (bids_returned agents st p) ->
  foldP (fun _ x => bid_step agents x) tt (seq 0 p)
        (with_state self (set_bids (bids_after agents st n 0) st))
  = (with_state self (set_bids (bids_after agents st n p) st), Ok tt).
Proof.
  intros Ha Hh. induction p as [|p IH]; intros Hp Hall; [done|].
  simpl in Hall. apply Forall_app in Hall as [Hall Hlast].
  apply (proj1 (Forall_singleton _ _)) in Hlast.
  rewrite seq_S, foldP_app, IH by (done || lia). simpl.
  unfold mbind, Prog_bind.
  rewrite (bid_step_run agents self st n p) by (done || lia).
  by rewrite decide_True by done.
Qed.

(** C9.  In a fresh round state, let the seats answer in seat order.  If
    every returned bid lies in [0, round_num], [_bidding_phase] raises
    nothing and records every bid as returned.  If the bid of seat [k] is
    the first one outside [0, round_num], [_bidding_phase] raises
    [ValueError] at that seat: the bids of the seats before [k] are
    recorded, that of seat [k] and of the seats after it are not. *)
Theorem bidding_phase_validates agents self st :
  let n := self_num_players self in
  self_state self = Some st ->
  length agents = n -> length (hands st) = n ->
  bids st = replicate n None ->
  let returned := bids_returned agents st n in
  (Forall (bid_in_range (round_num st)) returned ->
   _bidding_phase agents self
     = (with_state self (set_bids (Some <$> returned) st), Ok tt)) /\
  (forall k b,
     returned !! k = Some b ->
     Forall (bid_in_range (round_num st)) (take k returned) ->
     ~ bid_in_range (round_num st) b ->
     _bidding_phase agents self
       = (with_state self
            (set_bids ((Some <$> take k returned) ++ replicate (n - k) None) st),
          Raise ValueError)).
Proof.
  intros n Hst Ha Hh Hfresh returned.
  assert (Hself : self = with_state self (set_bids (bids_after agents st n 0) st)).
  { unfold bids_after. simpl. rewrite Nat.sub_0_r, <- Hfresh, set_bids_id.
    by rewrite with_state_id. }
  unfold _bidding_phase, mbind, Prog_bind, get_self, for_each. fold n.
  split.
  - intros Hall. rewrite Hself at 1.
    rewrite (bidding_prefix agents self st n n) by done.
    unfold bids_after. by rewrite Nat.sub_diag, app_nil_r.
  - intros k b Hk Hpre Hout.
    assert (Hkn : k < n).
    { apply lookup_lt_Some in Hk. subst returned.
      by rewrite bids_returned_length in Hk. }
    subst returned. rewrite bids_returned_lookup in Hk by done.
    injection Hk as Hk. rewrite bids_returned_take in Hpre |- * by lia.
    replace (seq 0 n) with (seq 0 k ++ k :: seq (S k) (n - S k)).
    2:{ change (k :: seq (S k) (n - S k)) with (seq k (S (n - S k))).
        replace k with (0 + k) at 2 by done. rewrite <- seq_app.
        f_equal. lia. }
    rewrite foldP_app. rewrite Hself at 1.
    rewrite (bidding_prefix agents self st n k) by (done || lia). simpl.
    unfold mbind, Prog_bind.
    rewrite (bid_step_run agents self st n k) by done.
    rewrite decide_False by (by rewrite Hk). done.
Qed.

(** Three seats that bid 0, 5 and 1 in round 2: the second bid is rejected,
    the first stays recorded. *)
Lemma bidding_phase_validates_witness :
  let fixed (b : Z) := mkAgent (fun _ _ _ _ _ => b)
                               (fun _ _ _ _ _ _ _ => mkCard JESTER 0) in
  let agents := [fixed 0%Z; fixed 5%Z; fixed 1%Z] in
  let st := mkGameState 3 2 [[]; []; []] None None [None; None; None]
              [0; 0; 0]%Z [0; 0; 0]%Z [] 0 in
  let self := mkWizardGame 3 20 [0; 0; 0]%Z (Some st) in
  _bidding_phase agents self
    = (with_state self (set_bids [Some 0%Z; None; None] st), Raise ValueError).
Proof.
  intros fixed agents st self.
  destruct (bidding_phase_validates agents self st eq_refl eq_refl eq_refl
              eq_refl) as [_ H].
  assert (Hpre : Forall (bid_in_range 2) [0%Z]).
  { apply Forall_cons_2; [unfold bid_in_range; lia | apply Forall_nil_2]. }
  assert (Hout : ~ bid_in_range 2 5%Z) by (unfold bid_in_range; lia).
  exact (H 1 5%Z eq_refl Hpre Hout).
Defined.
End Bidding.

Section BiddingRaise.
Import WizardGame.

(** A raise in the bidding phase ends [_play_round] on the spot: no trick
    is played and nothing is scored. *)
Lemma play_round_aborts_when_bidding_raises shuffle round_num agents self
    hands trump_card remaining g e :
  Deck.shuffle_and_deal shuffle (self_num_players self) round_num
    = Ok (hands, trump_card, remaining) ->
  _bidding_phase agents
    (with_state self
       {| num_players := self_num_players self; round_num := round_num;
          hands := hands; trump_card := trump_card;
          trump_suit := WizardRules.get_trump_suit trump_card;
          bids := replicate (self_num_players self) None;
          tricks_won := replicate (self_num_players self) 0%Z;
          scores := self_scores self; current_trick := [];
          trick_leader := 0 |}) = (g, Raise e) ->
  _play_round shuffle round_num agents self = (g, Raise e).
Proof.
  intros Hdeal Hbid. unfold _play_round.
  unfold mbind, Prog_bind, get_self, lift. rewrite Hdeal. simpl.
  unfold with_state in Hbid. by rewrite Hbid.
Qed.
End BiddingRaise.

(* ===================================================================== *)
(** * Tricks and rounds *)
(* ===================================================================== *)

Section Tricks.
Import WizardRules WizardGame.

Lemma remove_first_length (c : Card) hand hand' :
  remove_first c hand = Ok hand' -> length hand = S (length hand').
Proof.
  revert hand'. induction hand as [|y hand IH]; intros hand'; simpl; [done|].
  case_decide.
  - by intros [= <-].
  - destruct (remove_first c hand) as [r|e]; simpl; [|done].
    intros [= <-]. simpl. f_equal. by apply IH.
Qed.

Lemma remove_first_elem (c : Card) hand :
  c ∈ hand -> exists hand', remove_first c hand = Ok hand'.
Proof.
  induction hand as [|y hand IH]; [by intros ?%elem_of_nil|].
  intros Hc. simpl. case_decide; [eauto|].
  apply elem_of_cons in Hc as [?|Hc]; [done|].
  destruct (IH Hc) as [r ->]. simpl. eauto.
Qed.

Lemma get_valid_plays_subset hand led_suit c :
  c ∈ get_valid_plays hand led_suit -> c ∈ hand.
Proof.
  unfold get_valid_plays. destruct led_suit as [s|]; [|done].
  destruct (filter _ hand) as [|x same] eqn:Hf; [done|].
  rewrite <- Hf. rewrite elem_of_app, !list_elem_of_filter. tauto.
Qed.

Lemma get_valid_plays_nonempty hand led_suit :
  hand ≠ [] -> get_valid_plays hand led_suit ≠ [].
Proof.
  unfold get_valid_plays. destruct led_suit as [s|]; [|done].
  destruct (filter _ hand) as [|x same] eqn:Hf; done.
Qed.

Lemma rotation_inj l n i j :
  j < i -> i < n -> (l + j) mod n ≠ (l + i) mod n.
Proof.
  intros Hj Hi Heq.
  pose proof (Nat.div_mod_eq (l + j) n) as H1.
  pose proof (Nat.div_mod_eq (l + i) n) as H2.
  rewrite Heq in H1.
  assert (H3 : i - j = n * ((l + i) / n) - n * ((l + j) / n)) by lia.
  assert (Hlt : (l + j) / n < (l + i) / n) by nia.
  nia.
Qed.

Lemma rotation_surj l n p : p < n -> exists j, j < n /\ p = (l + j) mod n.
Proof.
  intros Hp.
  pose proof (Nat.div_mod_eq l n) as H1.
  pose proof (Nat.mod_upper_bound l n ltac:(lia)) as H2.
  destruct (decide (l mod n <= p)).
  - exists (p - l mod n). split; [lia|].
    apply (Nat.mod_unique _ _ (l / n)); lia.
  - exists (p + n - l mod n). split; [lia|].
    apply (Nat.mod_unique _ _ (S (l / n))); lia.
Qed.

(** What one accepted play does to the round state. *)
Lemma play_step_ok agents led_suit i g st g' led' :
  self_state g = Some st ->
  play_step agents led_suit i g = (g', Ok led') ->
  let n := self_num_players g in
  let p := (trick_leader st + i) mod n in
  0 < n /\
  exists hand card hand',
    hands st !! p = Some hand /\
    card ∈ hand /\
    remove_first card hand = Ok hand' /\
    led' = led_suit_update i led_suit card /\
    g' = with_state g
           (set_current_trick (current_trick st ++ [(p, card)])
              (set_hands (<[p := hand']> (hands st)) st)).
Proof.
  intros Hst. unfold play_step, mbind, Prog_bind, get_state, get_self, lift,
    raise, index. rewrite Hst. simpl.
  case_decide as Hn; [done|].
  destruct (hands st !! _) as [hand|] eqn:Hhand; [|done].
  destruct (agents !! _) as [agent|] eqn:Hagent; [|done].
  case_decide as Hvalid; [done|].
  destruct (remove_first _ hand) as [hand'|e] eqn:Hrm; [|done].
  simpl. intros [= <- <-]. split; [lia|].
  eexists hand, _, hand'. repeat split; try done.
  by eapply get_valid_plays_subset.
Qed.

Lemma with_state_twice self st1 st2 :
  with_state (with_state self st1) st2 = with_state self st2.
Proof. done. Qed.

Lemma play_step_inv agents self st led_suit i g g' led' :
  i < self_num_players self ->
  trick_inv self st i g ->
  play_step agents led_suit i g = (g', Ok led') ->
  trick_inv self st (S i) g'.
Proof.
  intros Hi (sti & -> & Hlen & Hhands & Htrick & Hseats & Hlead & Hwon & Hbids
             & Htrump & Hround) Hstep.
  apply (play_step_ok _ _ _ _ sti) in Hstep; [|done].
  simpl in Hstep. rewrite Hlead in Hstep.
  destruct Hstep as (Hn & hand & card & hand' & Hhand & Hcard & Hrm & _ & ->).
  set (n := self_num_players self) in *.
  set (q := (trick_leader st + i) mod n) in *.
  assert (Hq : q < n) by (apply Nat.mod_upper_bound; lia).
  eexists. split; [apply with_state_twice|]. simpl.
  split; [by rewrite length_insert|].
  split; [|split; [|split]].
  - intros p h Hp. destruct (Hhands p h Hp) as (h' & Hp' & Hyes & Hno).
    destruct (decide (p = q)) as [->|Hne].
    + rewrite list_lookup_insert_eq by (by eapply lookup_lt_Some).
      eexists. split; [done|].
      assert (Hfresh : ~ played (trick_leader st) n i q).
      { intros (j & Hj & Heq). by eapply (rotation_inj (trick_leader st) n i j). }
      rewrite Hp' in Hhand. injection Hhand as ->.
      rewrite <- (Hno Hfresh). split.
      * intros _. by apply (remove_first_length card).
      * intros []. exists i. split; [lia|done].
    + rewrite list_lookup_insert_ne by done. exists h'. split; [done|].
      split.
      * intros (j & Hj & Heq). apply Hyes.
        destruct (decide (j = i)) as [->|]; [done|]. exists j. split; [lia|done].
      * intros Hnot. apply Hno. intros (j & Hj & Heq). apply Hnot.
        exists j. split; [lia|done].
  - rewrite length_app. simpl. lia.
  - apply Forall_app. split; [done|]. by apply Forall_singleton.
  - done.
Qed.

Lemma trick_loop_ok agents self st g led_suit :
  self_state self = Some st ->
  trick_loop agents self = (g, Ok led_suit) ->
  trick_inv self st (self_num_players self) g.
Proof.
  intros Hst. unfold trick_loop, mbind, Prog_bind, get_state, get_self,
    put_state.
  rewrite Hst. simpl. fold (with_state self (set_current_trick [] st)).
  intros Hloop.
  apply (foldP_partial _ (fun i _ g => i <= self_num_players self /\
                                       trick_inv self st i g)) in Hloop.
  - rewrite length_seq in Hloop. apply Hloop.
  - split; [lia|]. exists (set_current_trick [] st).
    split; [done|]. split; [done|]. split; [|by repeat split].
    intros p hand Hp. exists hand. split; [done|]. split; [|done].
    intros (j & Hj & _). lia.
  - intros i a g0 x a' g1 Hx [Hi Hinv] Hstep.
    apply lookup_seq in Hx as [-> Hx]. simpl in *.
    split; [lia|]. by eapply play_step_inv.
Qed.

(** What one completed trick does: every seat holds one card less, one
    seat has one trick more and leads the next trick. *)
Lemma play_trick_effect agents self st self' :
  self_state self = Some st ->
  length (hands st) = self_num_players self ->
  _play_trick agents self = (self', Ok tt) ->
  exists st' winner won,
    self' = with_state self st' /\
    length (hands st') = length (hands st) /\
    (forall p hand, hands st !! p = Some hand ->
       exists hand', hands st' !! p = Some hand' /\
                     length hand = S (length hand')) /\
    tricks_won st !! winner = Some won /\
    tricks_won st' = <[winner := (won + 1)%Z]> (tricks_won st) /\
    trick_leader st' = winner /\
    bids st' = bids st /\
    round_num st' = round_num st.
Proof.
  intros Hst Hn. unfold _play_trick.
  unfold mbind at 1, Prog_bind at 1.
  destruct (trick_loop agents self) as [g [led|e]] eqn:Hloop; [|done].
  apply (trick_loop_ok _ _ st) in Hloop; [|done].
  destruct Hloop as (sti & -> & Hlen & Hhands & Htrick & Hseats & Hlead
                     & Hwon & Hbids & Htrump & Hround).
  unfold mbind, Prog_bind, get_state, lift. simpl.
  destruct (determine_trick_winner _ _ _) as [winner|e] eqn:Hw; [|done].
  unfold index. destruct (tricks_won sti !! winner) as [won|] eqn:Hwon';
    [|done].
  simpl. intros [= <-]. eexists _, winner, won. split; [done|]. simpl.
  split; [done|]. split; [|by rewrite <- Hwon].
  intros p hand Hp. destruct (Hhands p hand Hp) as (hand' & Hp' & Hyes & _).
  exists hand'. split; [done|]. apply Hyes.
  assert (p < self_num_players self).
  { rewrite <- Hn. by eapply lookup_lt_Some. }
  destruct (rotation_surj (trick_leader st) (self_num_players self) p)
    as (j & Hj & Heq); [done|].
  by exists j.
Qed.

Lemma sumZ_insert (l : list Z) w x y :
  l !! w = Some x -> sumZ (<[w := y]> l) = (sumZ l - x + y)%Z.
Proof.
  revert w. induction l as [|z l IH]; intros [|w]; simpl; try done.
  - intros [= ->]. lia.
  - intros Hw. rewrite (IH _ Hw). lia.
Qed.

Lemma sumZ_replicate n : sumZ (replicate n 0%Z) = 0%Z.
Proof. induction n; simpl; lia. Qed.

(** A deal that returns gave every seat [round_num] cards, whatever the
    shuffle did. *)
Lemma foldR_deal_lengths deck n r hands idx :
  foldR (Deck.deal_pass deck n) (replicate n [], 0) (seq 0 r) = Ok (hands, idx) ->
  length hands = n /\ Forall (fun hand => length hand = r) hands.
Proof.
  intros Hrun.
  apply (foldR_partial _ (fun k acc =>
           length acc.1 = n /\ Forall (fun hand => length hand = k) acc.1))
    in Hrun.
  - by rewrite length_seq in Hrun.
  - simpl. split; [by rewrite length_replicate|].
    apply Forall_forall. by intros h [-> _]%elem_of_replicate.
  - intros k acc x acc' _ [Hn Hall] Hpass. unfold Deck.deal_pass in Hpass.
    apply (foldR_partial _ (fun j acc =>
             length acc.1 = n /\
             forall p hand, acc.1 !! p = Some hand ->
               length hand = if decide (p < j) then S k else k)) in Hpass.
    + rewrite length_seq in Hpass. destruct Hpass as [Hn' Hall'].
      split; [done|]. apply Forall_forall. intros hand Hh.
      apply list_elem_of_lookup in Hh as [p Hp].
      rewrite (Hall' p hand Hp). rewrite decide_True; [done|].
      rewrite <- Hn'. by eapply lookup_lt_Some.
    + split; [done|]. intros p hand Hp. rewrite decide_False by lia.
      eapply (proj1 (Forall_forall _ _) Hall). by eapply list_elem_of_lookup_2.
    + intros j [hs i] q [hs' i'] Hq [Hlen Hlens] Hcard.
      apply lookup_seq in Hq as [-> Hq]. simpl in *.
      unfold Deck.deal_card, index in Hcard.
      destruct (hs !! j) as [hand|] eqn:Hj; [|done].
      destruct (deck !! i) as [c|]; [|done]. simpl in Hcard.
      injection Hcard as <- <-. split; [by rewrite length_insert|].
      intros p h Hp. destruct (decide (p = j)) as [->|Hne].
      * rewrite list_lookup_insert_eq in Hp by (by eapply lookup_lt_Some).
        injection Hp as <-. rewrite length_app, (Hlens j hand Hj). simpl.
        rewrite decide_False, decide_True by lia. lia.
      * rewrite list_lookup_insert_ne in Hp by done.
        rewrite (Hlens p h Hp). repeat case_decide; lia.
Qed.

Lemma shuffle_and_deal_lengths shuffle n r hands trump rest :
  Deck.shuffle_and_deal shuffle n r = Ok (hands, trump, rest) ->
  length hands = n /\ Forall (fun hand => length hand = r) hands.
Proof.
  unfold Deck.shuffle_and_deal.
  destruct (foldR _ _ _) as [[hs idx]|e] eqn:Hrun; [|done].
  simpl. intros [= <- _ _]. by eapply foldR_deal_lengths.
Qed.

(** Bidding only writes [bids]. *)
Lemma bidding_phase_frame agents self st self' :
  self_state self = Some st ->
  _bidding_phase agents self = (self', Ok tt) ->
  exists b, self' = with_state self (set_bids b st).
Proof.
  intros Hst. unfold _bidding_phase, mbind, Prog_bind, get_self, for_each.
  intros Hrun.
  apply (foldP_partial _ (fun _ _ g =>
           exists b, g = with_state self (set_bids b st))) in Hrun; [done| |].
  - exists (bids st). by rewrite set_bids_id, with_state_id.
  - intros _ [] g p [] g' _ [b ->].
    unfold bid_step, mbind, Prog_bind, lift, index, get_state, raise. simpl.
    destruct (agents !! p); [|done].
    destruct (hands st !! p); [|done]. simpl.
    destruct (negb _); [done|]. unfold store.
    case_decide; [|done]. simpl. intros [= <-]. eauto.
Qed.

(** Scoring only writes [self.scores]. *)
Lemma score_round_frame self self' :
  _score_round self = (self', Ok tt) -> self_state self' = self_state self.
Proof.
  unfold _score_round, mbind, Prog_bind, get_self, for_each. intros Hrun.
  apply (foldP_partial _ (fun _ _ g => self_state g = self_state self))
    in Hrun; [done..|].
  intros _ [] g p [] g' _ Hg.
  unfold score_step, mbind, Prog_bind, lift, index, get_state, get_self,
    raise, put_scores.
  destruct (self_state g) as [st|] eqn:Hsg; [|done].
  destruct (bids st !! p) as [[b|]|]; try done;
    destruct (tricks_won st !! p); try done; simpl.
  destruct (self_scores g !! p); [|done]. simpl. intros [= <-]. simpl.
  congruence.
Qed.

Lemma play_trick_round_inv agents self r k g g' :
  round_inv self r k g ->
  _play_trick agents g = (g', Ok tt) ->
  round_inv self r (S k) g'.
Proof.
  intros (st & -> & Hn & Hall & Hsum) Htrick.
  apply (play_trick_effect _ _ st) in Htrick; [|done..].
  destruct Htrick as (st' & winner & won & -> & Hlen & Hhands & Hwon & Hwon'
                      & _).
  exists st'. split; [done|]. split; [lia|]. split.
  - apply Forall_forall. intros hand' Hh.
    apply list_elem_of_lookup in Hh as [p Hp'].
    destruct (lookup_lt_is_Some_2 (hands st) p) as [hand Hp].
    { rewrite <- Hlen. by eapply lookup_lt_Some. }
    destruct (Hhands p hand Hp) as (h' & Hp'' & Hl).
    rewrite Hp' in Hp''. injection Hp'' as <-.
    pose proof (proj1 (Forall_forall _ _) Hall hand
                  (list_elem_of_lookup_2 _ _ _ Hp)) as Hk.
    simpl in Hk. lia.
  - rewrite Hwon', (sumZ_insert _ _ won) by done. lia.
Qed.

(** C8.  When [_play_round] has played its [round_num] tricks and returns,
    every seat's hand is empty and the tricks won add up to [round_num];
    and every trick that completes takes exactly one card from every hand
    and adds one trick to exactly one seat. *)
Theorem play_round_conserves shuffle round_num agents self self' :
  _play_round shuffle round_num agents self = (self', Ok tt) ->
  (exists st,
     self_state self' = Some st /\
     length (hands st) = self_num_players self /\
     Forall (fun hand => hand = []) (hands st) /\
     sumZ (tricks_won st) = Z.of_nat round_num) /\
  (forall g st g',
     self_state g = Some st ->
     length (hands st) = self_num_players g ->
     _play_trick agents g = (g', Ok tt) ->
     exists st' winner won,
       self_state g' = Some st' /\
       (forall p hand, hands st !! p = Some hand ->
          exists hand', hands st' !! p = Some hand' /\
                        length hand = S (length hand')) /\
       tricks_won st !! winner = Some won /\
       tricks_won st' = <[winner := (won + 1)%Z]> (tricks_won st)).
Proof.
  intros Hround. split.
  - revert Hround. unfold _play_round.
    unfold mbind at 1 2 3 4 5, Prog_bind at 1 2 3 4 5, get_self, lift.
    destruct (Deck.shuffle_and_deal _ _ _) as [[[hs trump] rest]|e] eqn:Hdeal;
      [|done].
    apply shuffle_and_deal_lengths in Hdeal as [Hn Hall].
    unfold put_state at 1.
    set (st0 := {| num_players := _ |}). fold (with_state self st0).
    destruct (_bidding_phase _ _) as [g1 [[]|e]] eqn:Hbid; [|done].
    apply (bidding_phase_frame _ _ st0) in Hbid as [b ->]; [|done].
    rewrite with_state_twice.
    destruct (for_each _ _ _) as [g2 [[]|e]] eqn:Htricks; [|done].
    unfold for_each in Htricks.
    apply (foldP_partial _ (fun k _ g => round_inv self round_num k g))
      in Htricks.
    + rewrite length_seq in Htricks.
      destruct Htricks as (st & -> & Hlen & Hempty & Hsum).
      intros Hscore. apply score_round_frame in Hscore.
      exists st. split; [done|]. split; [done|]. split; [|done].
      eapply Forall_impl; [exact Hempty|]. intros hand Hh. simpl in Hh.
      apply length_zero_iff_nil. lia.
    + exists (set_bids b st0). split; [done|]. simpl.
      split; [done|]. split.
      * eapply Forall_impl; [exact Hall|]. intros hand. simpl. lia.
      * apply sumZ_replicate.
    + intros k [] g x [] g' _ Hinv Htrick. by eapply play_trick_round_inv.
  - intros g st g' Hst Hlen Htrick.
    apply (play_trick_effect _ _ st) in Htrick; [|done..].
    destruct Htrick as (st' & winner & won & -> & _ & Hhands & Hwon & Hwon' & _).
    by exists st', winner, won.
Qed.
End Tricks.

(* ===================================================================== *)
(** * The led suit of a trick *)
(* ===================================================================== *)

Section LedSuit.
Import WizardRules WizardGame.

Lemma play_round_conserves_witness :
  let agents := [first_card_agent 0; first_card_agent 1; first_card_agent 0] in
  let self := mkWizardGame 3 20 [0; 0; 0]%Z None in
  exists self' st,
    _play_round (fun deck => deck) 2 agents self = (self', Ok tt) /\
    self_state self' = Some st /\
    Forall (fun hand => hand = []) (hands st) /\
    sumZ (tricks_won st) = 2%Z.
Proof.
  intros agents self.
  assert (Hrun : exists self',
             _play_round (fun deck => deck) 2 agents self = (self', Ok tt)).
  { eexists. vm_compute. reflexivity. }
  destruct Hrun as [self' Hrun].
  destruct (play_round_conserves _ _ _ _ _ Hrun)
    as [(st & Hst & _ & Hh & Hs) _].
  exists self', st.
  split; [exact Hrun|]. split; [exact Hst|]. split; [exact Hh|exact Hs].
Defined.

(** The loop's led suit is set by one of the first two cards only. *)
Lemma led_suit_after_two cards :
  led_suit_after 0 None cards = first_suit_bearing (take 2 cards).
Proof.
  assert (Hlate : forall i led cards, 2 <= i -> led_suit_after i led cards = led).
  { intros i led cs. revert i led. induction cs as [|c cs IH]; intros i led Hi;
      simpl; [done|].
    rewrite IH by lia. unfold led_suit_update.
    rewrite decide_False by lia. rewrite decide_False by lia. done. }
  destruct cards as [|c1 [|c2 cards]]; simpl; [done|..].
  - unfold led_suit_update, first_suit_bearing.
    rewrite filter_cons. repeat case_decide; naive_solver.
  - rewrite Hlate by lia.
    unfold led_suit_update, first_suit_bearing.
    rewrite !filter_cons. repeat case_decide; simpl; naive_solver.
Qed.

(** C2, at [jesters_first].  The first card that is neither Wizard nor
    Jester is the third one, the 5 of Hearts; the loop of [_play_trick]
    ends with the led suit undefined, passes [None] to
    [determine_trick_winner], and the trick goes to seat 0's Jester. *)
Theorem led_suit_missed_after_two_specials :
  let agents := [first_card_agent 0; first_card_agent 0; first_card_agent 1] in
  exists g st self' st',
    trick_loop agents jesters_first = (g, Ok None) /\
    self_state g = Some st /\
    current_trick st = [(0, mkCard JESTER 0); (1, mkCard JESTER 0);
                        (2, mkCard HEARTS 5)] /\
    first_suit_bearing (current_trick st).*2 = Some HEARTS /\
    _play_trick agents jesters_first = (self', Ok tt) /\
    self_state self' = Some st' /\
    tricks_won st' = [1; 0; 0]%Z /\
    determine_trick_winner (current_trick st) (Some HEARTS) None = Ok 2.
Proof.
  intros agents. eexists _, _, _, _.
  split; [vm_compute; reflexivity|].
  split; [reflexivity|]. split; [reflexivity|]. split; [reflexivity|].
  split; [vm_compute; reflexivity|].
  split; [reflexivity|]. split; reflexivity.
Qed.
End LedSuit.

(* ===================================================================== *)
(** * Determinization *)
(* ===================================================================== *)

Section Determinize.
Import MCTSAgent.

(** C1, at [last_round_start] with seat 0 deciding.  Every card of the deck
    is in some hand, so [known_cards] holds the whole deck and nothing is
    left to hand out: the two opponents, who hold 20 cards each, get
    empty hands. *)
Theorem determinize_empties_opponents :
  exists det my_hand,
    _determinize_state (fun unknown => unknown) last_round_start 0 = Ok det /\
    hands last_round_start !! 0 = Some my_hand /\
    length <$> hands last_round_start = [20; 20; 20] /\
    trump_card last_round_start = None /\
    hands det = [my_hand; []; []].
Proof.
  eexists _, _. split; [vm_compute; reflexivity|].
  split; [vm_compute; reflexivity|]. split; [vm_compute; reflexivity|].
  split; vm_compute; reflexivity.
Qed.
End Determinize.

(* ===================================================================== *)
(** * The search tree *)
(* ===================================================================== *)

Section SearchTree.
Import MCTSAgent.
Context {F : Type}.
Variable of_int : Z -> F.
Variables fadd fmul fdiv : F -> F -> F.
Variables fsqrt flog : F -> F.
Variable finf : F.
Variable fltb : F -> F -> bool.

Abbreviation search_tree :=
  (MCTSAgent.search_tree of_int fadd fmul fdiv fsqrt flog finf fltb).
Abbreviation simulation :=
  (MCTSAgent.simulation of_int fadd fmul fdiv fsqrt flog finf fltb).
Abbreviation select_loop :=
  (MCTSAgent.select_loop of_int fadd fmul fdiv fsqrt flog finf fltb).

Implicit Types heap : Arena F.
Implicit Types node : MCTSNode F.

Lemma same_shape_refl node : same_shape node node.
Proof. by repeat split. Qed.

Lemma same_shape_trans (n1 n2 n3 : MCTSNode F) :
  same_shape n1 n2 -> same_shape n2 n3 -> same_shape n1 n3.
Proof.
  intros (?&?&?&?&?&?&?) (?&?&?&?&?&?&?).
  repeat split; try congruence. lia.
Qed.

Lemma Forall2_same_shape_refl heap : Forall2 same_shape heap heap.
Proof. apply Forall_Forall2_diag, Forall_forall. intros. apply same_shape_refl. Qed.

Lemma Forall2_same_shape_trans (h1 h2 h3 : Arena F) :
  Forall2 same_shape h1 h2 -> Forall2 same_shape h2 h3 ->
  Forall2 same_shape h1 h3.
Proof.
  intros H12. revert h3. induction H12; intros h3 H23; inversion H23; subst;
    constructor; eauto using same_shape_trans.
Qed.

Lemma deref_Ok heap id node : deref heap id = Ok node <-> heap !! id = Some node.
Proof. unfold deref. destruct (heap !! id); split; congruence. Qed.

(** [_backpropagate] changes statistics only, and the node it starts at
    has been visited afterwards. *)
Lemma backpropagate_shape fuel heap o v heap' :
  _backpropagate fadd fuel heap o v = Ok heap' ->
  Forall2 same_shape heap heap'.
Proof.
  revert heap o. induction fuel as [|fuel IH]; intros heap [id|]; simpl;
    try done; try (intros [= <-]; apply Forall2_same_shape_refl).
  unfold mbind, result_bind. destruct (deref heap id) as [n|e] eqn:Hn; [|done].
  apply deref_Ok in Hn. intros Hrec. apply IH in Hrec.
  eapply Forall2_same_shape_trans; [|exact Hrec].
  rewrite <- (list_insert_id heap id n Hn) at 1.
  apply Forall2_insert; [apply Forall2_same_shape_refl|].
  repeat split; simpl; lia.
Qed.

Lemma backpropagate_visited fuel heap id v heap' :
  _backpropagate fadd fuel heap (Some id) v = Ok heap' ->
  exists n', heap' !! id = Some n' /\ 1 <= visits n'.
Proof.
  destruct fuel as [|fuel]; simpl; [done|].
  unfold mbind, result_bind. destruct (deref heap id) as [n|e] eqn:Hn; [|done].
  apply deref_Ok in Hn. intros Hrec. apply backpropagate_shape in Hrec.
  assert (Hid : (<[id := mkNode (state n) (parent n) (action n) (children n)
                          (visits n + 1) (fadd (total_value n) v)
                          (untried_actions n) (player_idx n)]> heap) !! id
                = Some (mkNode (state n) (parent n) (action n) (children n)
                          (visits n + 1) (fadd (total_value n) v)
                          (untried_actions n) (player_idx n))).
  { apply list_lookup_insert_eq. by eapply lookup_lt_Some. }
  destruct (Forall2_lookup_l _ _ _ _ _ Hrec Hid) as (n' & Hn' & Hs).
  exists n'. split; [done|]. destruct Hs as (_&_&_&_&_&_&Hv). simpl in Hv. lia.
Qed.

Lemma pop_snoc (l : list Card) a rest :
  pop l = Ok (a, rest) -> l = rest ++ [a].
Proof.
  unfold pop. destruct (last l) as [x|] eqn:Hl; [|done].
  intros [= <- <-]. apply last_Some in Hl as [l' ->].
  rewrite length_app. simpl. rewrite Nat.add_sub.
  by rewrite take_app_length.
Qed.

Lemma child_actions_same_shape (h h' : Arena F) node node' :
  Forall2 same_shape h h' -> children node' = children node ->
  child_actions h' node' = child_actions h node.
Proof.
  intros Hh Hc. unfold child_actions. rewrite Hc.
  apply list_omap_ext, Forall_Forall2_diag, Forall_forall. intros cid _.
  cbv beta.
  destruct (h !! cid) as [n|] eqn:Hn.
  - destruct (Forall2_lookup_l _ _ _ _ _ Hh Hn) as (n' & -> & Hs). simpl.
    by destruct Hs as (_&_&->&_).
  - apply lookup_ge_None in Hn. rewrite (Forall2_length _ _ _ Hh) in Hn.
    apply lookup_ge_None in Hn. by rewrite Hn.
Qed.

Lemma tree_inv_same_shape valid (h h' : Arena F) :
  Forall2 same_shape h h' -> tree_inv valid h -> tree_inv valid h'.
Proof.
  intros Hh Hinv id n' Hn'.
  destruct (Forall2_lookup_r _ _ _ _ _ Hh Hn') as (n & Hn & Hs).
  destruct (Hinv id n Hn) as (Hkids & Hvis & Hact).
  pose proof Hs as (Hst & _ & _ & Hc & Hu & Hp & Hv).
  split; [|split].
  - rewrite Hc, <- (Forall2_length _ _ _ Hh). done.
  - intros Hid. specialize (Hvis Hid). lia.
  - rewrite Hu, (child_actions_same_shape h h' n n') by done.
    rewrite <- Hact. unfold initial_actions. by rewrite Hst, Hp.
Qed.

(** What [_expand] does to the arena: the expanded node loses its last
    untried action, and a child for that action is added at the end, whose
    untried actions are the whole hand of the deciding seat. *)
Lemma expand_spec heap id sim_state heap' cid :
  _expand of_int heap id sim_state = Ok (heap', cid) ->
  exists node a rest child,
    heap !! id = Some node /\
    untried_actions node = rest ++ [a] /\
    cid = length heap /\
    heap' = <[id := mkNode (state node) (parent node) (action node)
                      (children node ++ [cid]) (visits node)
                      (total_value node) rest (player_idx node)]> heap
            ++ [child] /\
    action child = Some a /\ children child = [] /\
    parent child = Some id /\
    hands (state child) !! player_idx child = Some (untried_actions child).
Proof.
  unfold _expand, mbind, result_bind.
  destruct (deref heap id) as [node|e] eqn:Hn; [|done].
  apply deref_Ok in Hn.
  destruct (pop (untried_actions node)) as [[a rest]|e] eqn:Hpop; [|done].
  apply pop_snoc in Hpop.
  destruct (_apply_action _ _ _) as [child_state|e]; [|done].
  unfold _get_valid_actions, index.
  destruct (hands child_state !! player_idx node) as [hand|] eqn:Hh; [|done].
  intros [= <- <-]. eexists node, a, rest, _.
  repeat split; try done.
Qed.

Lemma expand_tree_inv valid heap id sim_state heap' cid :
  tree_inv valid heap ->
  _expand of_int heap id sim_state = Ok (heap', cid) ->
  (forall m node, m ≠ cid -> heap' !! m = Some node -> m ≠ 0 -> 1 <= visits node) /\
  (forall m node, heap' !! m = Some node ->
     Forall (fun k => 0 < k < length heap') (children node) /\
     initial_actions valid m node
       = Some (untried_actions node ++ reverse (child_actions heap' node))) /\
  (exists node, heap !! id = Some node /\
     heap' !! id = Some (mkNode (state node) (parent node) (action node)
                      (children node ++ [cid]) (visits node)
                      (total_value node)
                      (take (length (untried_actions node) - 1)
                            (untried_actions node))
                      (player_idx node))) /\
  cid = length heap /\ length heap' = S (length heap) /\ cid ≠ 0.
Proof.
  intros Hinv Hexp.
  destruct (expand_spec _ _ _ _ _ Hexp)
    as (node & a & rest & child & Hn & Hun & -> & -> & Hact & Hkids & Hpar & Hhand).
  assert (Hid : id < length heap) by (by eapply lookup_lt_Some).
  set (node' := mkNode _ _ _ _ _ _ _ _).
  assert (Hlen : length (<[id := node']> heap ++ [child]) = S (length heap)).
  { rewrite length_app, length_insert. simpl. lia. }
  (* the action of every old node is unchanged *)
  assert (Hsame : forall k, k < length heap ->
            (<[id := node']> heap ++ [child]) !! k ≫= action
            = heap !! k ≫= action).
  { intros k Hk. rewrite lookup_app_l by (by rewrite length_insert).
    destruct (decide (k = id)) as [->|Hne].
    - rewrite list_lookup_insert_eq by done. by rewrite Hn.
    - by rewrite list_lookup_insert_ne. }
  assert (Hold : forall n, Forall (fun k => 0 < k < length heap) (children n) ->
            omap (fun k => (<[id := node']> heap ++ [child]) !! k ≫= action)
                 (children n)
            = child_actions heap n).
  { intros n Hall. unfold child_actions.
    apply list_omap_ext, Forall_Forall2_diag.
    eapply Forall_impl; [exact Hall|]. intros k Hk. cbv beta in *. apply Hsame. lia. }
  split; [|split; [|split; [|split; [|split]]]].
  - intros m n Hm Hn' Hm0.
    rewrite lookup_app_l in Hn'.
    2:{ rewrite length_insert. apply lookup_lt_Some in Hn'. rewrite Hlen in Hn'. lia. }
    destruct (decide (m = id)) as [->|Hne].
    + rewrite list_lookup_insert_eq in Hn' by done. injection Hn' as <-.
      simpl. by apply (Hinv id node Hn).
    + rewrite list_lookup_insert_ne in Hn' by done. by apply (Hinv m n Hn').
  - intros m n Hn'. rewrite Hlen.
    destruct (decide (m = length heap)) as [->|Hm].
    + rewrite lookup_app_r in Hn' by (by rewrite length_insert).
      rewrite length_insert, Nat.sub_diag in Hn'. injection Hn' as <-.
      split; [by rewrite Hkids|].
      unfold initial_actions, child_actions. rewrite Hkids. simpl.
      rewrite decide_False by lia. by rewrite app_nil_r.
    + rewrite lookup_app_l in Hn'.
      2:{ rewrite length_insert. apply lookup_lt_Some in Hn'. rewrite Hlen in Hn'. lia. }
      destruct (decide (m = id)) as [->|Hne].
      * rewrite list_lookup_insert_eq in Hn' by done. injection Hn' as <-.
        destruct (Hinv id node Hn) as (Hall & _ & Hinit).
        split.
        -- simpl. apply Forall_app. split; [|apply Forall_singleton; lia].
           eapply Forall_impl; [exact Hall|]. simpl. lia.
        -- unfold child_actions. simpl. rewrite omap_app. simpl.
           rewrite lookup_app_r by (by rewrite length_insert).
           rewrite length_insert, Nat.sub_diag. simpl. rewrite Hact. simpl.
           rewrite (Hold node Hall), reverse_app. simpl.
           unfold initial_actions in *. simpl. rewrite Hinit, Hun.
           by rewrite <- (assoc_L (++)).
      * rewrite list_lookup_insert_ne in Hn' by done.
        destruct (Hinv m n Hn') as (Hall & _ & Hinit). split.
        -- eapply Forall_impl; [exact Hall|]. simpl. lia.
        -- unfold child_actions at 1. by rewrite (Hold n Hall).
  - exists node. split; [done|].
    rewrite lookup_app_l by (by rewrite length_insert).
    rewrite list_lookup_insert_eq by done. subst node'. do 2 f_equal.
    rewrite Hun, length_app. simpl. rewrite Nat.add_sub.
    by rewrite take_app_length.
  - done.
  - done.
  - lia.
Qed.

Lemma tree_inv_backprop valid (h h' : Arena F) cid :
  Forall2 same_shape h h' ->
  (forall m node, h !! m = Some node ->
     Forall (fun k => 0 < k < length h) (children node) /\
     initial_actions valid m node
       = Some (untried_actions node ++ reverse (child_actions h node))) ->
  (forall m node, m ≠ cid -> h !! m = Some node -> m ≠ 0 -> 1 <= visits node) ->
  (exists n', h' !! cid = Some n' /\ 1 <= visits n') ->
  tree_inv valid h'.
Proof.
  intros Hh Hinv Hvis (nc & Hnc & Hvc) id n' Hn'.
  destruct (Forall2_lookup_r _ _ _ _ _ Hh Hn') as (n & Hn & Hs).
  destruct (Hinv id n Hn) as (Hkids & Hact).
  pose proof Hs as (Hst & _ & _ & Hc & Hu & Hp & Hv).
  split; [|split].
  - rewrite Hc, <- (Forall2_length _ _ _ Hh). done.
  - intros Hid. destruct (decide (id = cid)) as [->|Hne].
    + assert (nc = n') by congruence. by subst.
    + specialize (Hvis id n Hne Hn Hid). lia.
  - rewrite Hu, (child_actions_same_shape h h' n n') by done.
    rewrite <- Hact. unfold initial_actions. by rewrite Hst, Hp.
Qed.

Lemma simulation_tree_inv valid c st p heap k heap' :
  tree_inv valid heap ->
  simulation c st p heap k = Ok heap' ->
  tree_inv valid heap'.
Proof.
  intros Hinv. unfold MCTSAgent.simulation, mbind, result_bind.
  destruct (select_loop _ _ _ _ _) as [[id sim]|e]; [|done].
  destruct (deref heap id) as [node|e] eqn:Hn; [|done].
  destruct (negb (is_terminal node) && negb (is_fully_expanded node)).
  - destruct (_expand of_int heap id sim) as [[heap1 cid]|e] eqn:Hexp; [|done].
    destruct (apply_node_action heap1 cid sim) as [sim1|e]; [|done].
    destruct (_simulate sim1 p) as [v|e]; [|done].
    intros Hback.
    destruct (expand_tree_inv valid _ _ _ _ _ Hinv Hexp)
      as (Hvis & Hrest & _ & _ & _ & _).
    eapply (tree_inv_backprop valid heap1 heap' cid).
    + by eapply backpropagate_shape.
    + exact Hrest.
    + exact Hvis.
    + by eapply backpropagate_visited.
  - destruct (_simulate sim p) as [v|e]; [|done].
    intros Hback. eapply tree_inv_same_shape; [|exact Hinv].
    by eapply backpropagate_shape.
Qed.

Lemma root_tree_inv valid st p : tree_inv valid [root_node of_int st p valid].
Proof.
  intros [|id] node; simpl; [|by rewrite lookup_nil].
  intros [= <-]. simpl. split; [constructor|]. split; [done|].
  unfold initial_actions, child_actions. simpl. by rewrite app_nil_r.
Qed.

Lemma search_tree_inv valid num_simulations c st p heap :
  search_tree num_simulations c st p valid = Ok heap ->
  tree_inv valid heap.
Proof.
  unfold MCTSAgent.search_tree. intros Hrun.
  apply (foldR_partial _ (fun _ h => tree_inv valid h)) in Hrun; [done| |].
  - apply root_tree_inv.
  - intros i h x h' _ Hh Hsim. by eapply simulation_tree_inv.
Qed.

(** C3, as the code has it.  In the tree of a search, the untried actions
    of a node followed by the actions of its children, latest first, are
    at every moment the actions the node started with: at the root the
    valid cards that [play] was given, at every expanded child the whole
    hand of the deciding seat in the child's state, with no suit-following
    filter.  So expansion, which takes the last untried action
    ([expand_spec]), tries no action twice and none from outside, and a
    fully expanded node has exactly these actions at its children. *)
Theorem untried_actions_are_root_valid_or_child_hand
    num_simulations c st p valid_cards heap id node :
  search_tree num_simulations c st p valid_cards = Ok heap ->
  heap !! id = Some node ->
  exists started_with,
    (id = 0 -> started_with = valid_cards) /\
    (id ≠ 0 -> hands (state node) !! player_idx node = Some started_with) /\
    untried_actions node ++ reverse (child_actions heap node) = started_with /\
    (is_fully_expanded node = true ->
     reverse (child_actions heap node) = started_with).
Proof.
  intros Hrun Hn. apply (search_tree_inv valid_cards) in Hrun.
  destruct (Hrun id node Hn) as (_ & _ & Hinit).
  exists (untried_actions node ++ reverse (child_actions heap node)).
  unfold initial_actions in Hinit.
  split; [|split; [|split]].
  - intros ->. simpl in Hinit. congruence.
  - intros Hid. by rewrite decide_False in Hinit.
  - done.
  - unfold is_fully_expanded. intros Hfull%bool_decide_eq_true.
    apply length_zero_iff_nil in Hfull. by rewrite Hfull.
Qed.
End SearchTree.

Section SearchExamples.
Import WizardRules MCTSAgent.

Lemma untried_actions_are_root_valid_or_child_hand_witness :
  let valid_cards := [mkCard HEARTS 7; mkCard HEARTS 8] in
  exists heap node,
    IntArith.search_tree 2 1%Z hearts_led 1 valid_cards = Ok heap /\
    heap !! 1 = Some node /\
    hands (state node) !! player_idx node
      = Some [mkCard HEARTS 7; mkCard SPADES 3] /\
    untried_actions node ++ reverse (child_actions heap node)
      = [mkCard HEARTS 7; mkCard SPADES 3].
Proof.
  intros valid_cards.
  assert (Hrun : exists heap,
             IntArith.search_tree 2 1%Z hearts_led 1 valid_cards = Ok heap).
  { eexists. vm_compute. reflexivity. }
  destruct Hrun as [heap Hrun].
  assert (Hnode : exists node, heap !! 1 = Some node /\
            hands (state node) !! player_idx node
              = Some [mkCard HEARTS 7; mkCard SPADES 3]).
  { vm_compute in Hrun. injection Hrun as <-. eexists. split; reflexivity. }
  destruct Hnode as (node & Hn & Hhand).
  destruct (untried_actions_are_root_valid_or_child_hand
              IntArith.of_int IntArith.fadd IntArith.fmul IntArith.fdiv
              IntArith.fsqrt IntArith.flog IntArith.finf IntArith.fltb
              2 1%Z hearts_led 1 valid_cards heap 1 node Hrun Hn)
    as (started & _ & Hchild & Hsum & _).
  exists heap, node. split; [exact Hrun|]. split; [exact Hn|].
  split; [exact Hhand|].
  rewrite Hsum. specialize (Hchild ltac:(lia)). congruence.
Defined.

(** C3 as stated fails at the first child of the search from [hearts_led]:
    Hearts were led and the deciding seat still holds the 7 of Hearts, so
    the valid-play filter of the rules engine allows that card only, but
    the child's untried actions are the whole remaining hand. *)
Lemma child_untried_actions_ignore_led_suit :
  exists heap child hand,
    IntArith.search_tree 1 1%Z hearts_led 1
      (get_valid_plays [mkCard HEARTS 7; mkCard HEARTS 8; mkCard SPADES 3]
                       (Some HEARTS)) = Ok heap /\
    heap !! 1 = Some child /\
    hands (state child) !! player_idx child = Some hand /\
    first_suit_bearing (current_trick (state child)).*2 = Some HEARTS /\
    get_valid_plays hand (Some HEARTS) = [mkCard HEARTS 7] /\
    untried_actions child = [mkCard HEARTS 7; mkCard SPADES 3] /\
    untried_actions child ≠ get_valid_plays hand (Some HEARTS).
Proof.
  eexists _, _, _. split; [vm_compute; reflexivity|].
  split; [reflexivity|]. split; [reflexivity|]. split; [reflexivity|].
  split; [reflexivity|]. split; [reflexivity|]. simpl. discriminate.
Qed.
End SearchExamples.

(* ===================================================================== *)
(** * The choice of [play] *)
(* ===================================================================== *)

Section Choice.
Import MCTSAgent.
Context {F : Type}.
Variable of_int : Z -> F.
Variables fadd fmul fdiv : F -> F -> F.
Variables fsqrt flog : F -> F.
Variable finf : F.
Variable fltb : F -> F -> bool.

Abbreviation search_tree' :=
  (MCTSAgent.search_tree of_int fadd fmul fdiv fsqrt flog finf fltb).
Abbreviation simulation' :=
  (MCTSAgent.simulation of_int fadd fmul fdiv fsqrt flog finf fltb).
Abbreviation _mcts_search' :=
  (MCTSAgent._mcts_search of_int fadd fmul fdiv fsqrt flog finf fltb).

Implicit Types heap : list (MCTSNode F).
Implicit Types node : MCTSNode F.

(** [_determinize_state] leaves the hand of the deciding seat as it is. *)
Lemma determinize_keeps_own_hand shuffle st p det :
  _determinize_state shuffle st p = Ok det ->
  hands det !! p = hands st !! p /\ is_Some (hands st !! p).
Proof.
  unfold _determinize_state, mbind, result_bind, index.
  destruct (hands st !! p) as [my_hand|] eqn:Hmy; [|done].
  destruct (foldR _ _ _) as [[det_hands idx]|e] eqn:Hrun; [|done].
  intros [= <-]. simpl. split; [|by eexists].
  apply (foldR_partial _ (fun _ acc => acc.1 !! p = Some my_hand)) in Hrun;
    [done|done|].
  intros i [hs j] x [hs' j'] _ Hp. simpl in Hp.
  unfold redistribute, mbind, result_bind, index, store.
  case_decide as Hx; [|by intros [= <- <-]].
  destruct (hands st !! x); [|done].
  case_decide; [|done]. intros [= <- <-]. simpl.
  by rewrite list_lookup_insert_ne.
Qed.

Lemma root_not_terminal st p valid hand :
  hands st !! p = Some hand -> hand ≠ [] ->
  is_terminal (root_node of_int st p valid) = false.
Proof.
  intros Hp Hne. unfold is_terminal, root_node. simpl.
  apply not_true_is_false. intros Hall.
  rewrite forallb_forall in Hall.
  assert (Hin : In hand (hands st)).
  { apply list_elem_of_In. by eapply list_elem_of_lookup_2. }
  specialize (Hall hand Hin). apply bool_decide_eq_true in Hall.
  by apply length_zero_iff_nil in Hall.
Qed.

Lemma simulation_keeps_root_child c st p heap k heap' :
  has_root_child heap ->
  simulation' c st p heap k = Ok heap' ->
  has_root_child heap'.
Proof.
  intros (root & Hroot & Hkids).
  assert (Hshape : forall (h h' : list (MCTSNode F)),
            Forall2 same_shape h h' -> has_root_child h -> has_root_child h').
  { intros h h' Hh (r & Hr & Hk).
    destruct (Forall2_lookup_l _ _ _ _ _ Hh Hr) as (r' & Hr' & Hs).
    exists r'. split; [done|]. destruct Hs as (_&_&_&->&_). done. }
  unfold MCTSAgent.simulation, mbind, result_bind.
  destruct (select_loop _ _ _ _ _ _ _ _ _ _ _ _ _) as [[id sim]|e]; [|done].
  destruct (deref heap id) as [node|e] eqn:Hn; [|done].
  destruct (negb (is_terminal node) && negb (is_fully_expanded node)).
  - destruct (_expand of_int heap id sim) as [[heap1 cid]|e] eqn:Hexp; [|done].
    destruct (apply_node_action heap1 cid sim) as [sim1|e]; [|done].
    destruct (_simulate sim1 p) as [v|e]; [|done].
    intros Hback. apply backpropagate_shape in Hback.
    apply (Hshape heap1 heap' Hback).
    apply expand_spec in Hexp
      as (n & a & rest & child & Hid & _ & _ & -> & _).
    assert (0 < length heap) by (by eapply lookup_lt_Some).
    destruct (decide (id = 0)) as [->|Hne].
    + eexists. rewrite lookup_app_l by (by rewrite length_insert).
      rewrite list_lookup_insert_eq by done. split; [done|]. simpl.
      by destruct (children n).
    + exists root. rewrite lookup_app_l by (by rewrite length_insert).
      by rewrite list_lookup_insert_ne by done.
  - destruct (_simulate sim p) as [v|e]; [|done].
    intros Hback. apply backpropagate_shape in Hback.
    apply (Hshape heap heap' Hback). by exists root.
Qed.

Lemma first_simulation_root_child c st p valid k heap' :
  is_terminal (root_node of_int st p valid) = false ->
  simulation' c st p [root_node of_int st p valid] k = Ok heap' ->
  has_root_child heap'.
Proof.
  intros Hterm. set (root := root_node of_int st p valid) in *.
  assert (Hsel : MCTSAgent.select_loop of_int fadd fmul fdiv fsqrt flog finf
                   fltb 1 c [root] 0 (copy st)
                 = if is_fully_expanded root then Raise ValueError
                   else Ok (0, copy st)).
  { simpl. unfold mbind, result_bind. change (deref [root] 0) with (Ok root).
    cbv beta iota. rewrite Hterm. simpl.
    destruct (is_fully_expanded root); [|done].
    unfold _select_child, mbind, result_bind.
    change (deref [root] 0) with (Ok root). done. }
  unfold MCTSAgent.simulation. change (length [root]) with 1. rewrite Hsel.
  destruct (is_fully_expanded root) eqn:Hfull; [done|].
  unfold mbind, result_bind. change (deref [root] 0) with (Ok root).
  cbv beta iota. rewrite Hterm, Hfull. simpl.
  destruct (_expand of_int [root] 0 (copy st)) as [[heap1 cid]|e] eqn:Hexp;
    [|done].
  destruct (apply_node_action heap1 cid (copy st)) as [sim1|e]; [|done].
  destruct (_simulate sim1 p) as [v|e]; [|done].
  intros Hback. apply backpropagate_shape in Hback.
  apply expand_spec in Hexp
    as (n & a & rest & child & Hid & _ & _ & -> & _).
  injection Hid as <-. simpl in Hback.
  apply Forall2_cons_inv_l in Hback as (r' & t & Hs & _ & ->).
  exists r'. split; [done|]. destruct Hs as (_&_&_&->&_). done.
Qed.

Lemma search_tree_root_child num_simulations c st p valid heap hand :
  1 <= num_simulations ->
  hands st !! p = Some hand -> hand ≠ [] ->
  search_tree' num_simulations c st p valid = Ok heap ->
  has_root_child heap.
Proof.
  intros HS Hp Hne. unfold MCTSAgent.search_tree.
  destruct num_simulations as [|n]; [lia|].
  simpl. unfold mbind, result_bind.
  destruct (simulation' c st p _ 0) as [heap1|e] eqn:Hfirst; [|done].
  apply first_simulation_root_child in Hfirst;
    [|by eapply root_not_terminal].
  intros Hrest.
  apply (foldR_partial _ (fun _ h => has_root_child h)) in Hrest; [done..|].
  intros i h x h' _ Hh Hsim. by eapply simulation_keeps_root_child.
Qed.

Lemma collect_nodes heap kids acc nodes :
  foldR (fun acc cid => c ← deref heap cid; Ok (acc ++ [c])) acc kids
    = Ok nodes ->
  exists found, nodes = acc ++ found /\
    Forall2 (fun cid c => heap !! cid = Some c) kids found.
Proof.
  revert acc. induction kids as [|cid kids IH]; intros acc; simpl.
  - intros [= <-]. exists []. by rewrite app_nil_r.
  - unfold mbind, result_bind.
    destruct (deref heap cid) as [c|e] eqn:Hc; [|done].
    apply deref_Ok in Hc. intros Hrest.
    destruct (IH _ Hrest) as (found & -> & Hall).
    exists (c :: found). rewrite <- (assoc_L (++)). split; [done|].
    by constructor.
Qed.

(** [max(root.children, key=lambda c: c.visits)] returns a child that no
    child has more visits than. *)
Lemma most_visited_spec heap kids best :
  most_visited heap kids = Ok best ->
  (exists cid, cid ∈ kids /\ heap !! cid = Some best) /\
  (forall cid child, cid ∈ kids -> heap !! cid = Some child ->
     visits child <= visits best).
Proof.
  unfold most_visited, mbind, result_bind.
  destruct (foldR _ _ _) as [nodes|e] eqn:Hnodes; [|done].
  apply collect_nodes in Hnodes as (found & -> & Hall). simpl.
  destruct found as [|x rest]; simpl; [done|]. intros [= <-].
  set (gt := fun x y : MCTSNode F => bool_decide (visits y < visits x)).
  assert (Hirr : forall x, gt x x = false).
  { intros y. apply bool_decide_eq_false. lia. }
  assert (Htr : forall x y z, gt x y = true -> gt y z = true -> gt x z = true).
  { intros a b d. unfold gt. rewrite !bool_decide_eq_true. lia. }
  assert (Hnt : forall x y z, gt x y = false -> gt y z = false -> gt x z = false).
  { intros a b d. unfold gt. rewrite !bool_decide_eq_false. lia. }
  pose proof (max_from_elem gt x rest) as Hin.
  destruct (max_from_not_beaten gt Hirr Htr Hnt x rest) as [Hx Hrest].
  assert (Hall' : Forall (fun y => gt y (max_from gt x rest) = false) (x :: rest))
    by (by constructor).
  split.
  - apply list_elem_of_lookup in Hin as [i Hi].
    destruct (Forall2_lookup_r _ _ _ _ _ Hall Hi) as (cid & Hcid & Hbest).
    exists cid. split; [by eapply list_elem_of_lookup_2|done].
  - intros cid child Hcid Hchild.
    apply list_elem_of_lookup in Hcid as [i Hi].
    destruct (Forall2_lookup_l _ _ _ _ _ Hall Hi) as (c' & Hc' & Heq).
    assert (c' = child) by congruence. subst c'.
    pose proof (proj1 (Forall_forall _ _) Hall' child
                  (list_elem_of_lookup_2 _ _ _ Hc')) as Hle.
    cbv beta in Hle. unfold gt in *. apply bool_decide_eq_false in Hle. lia.
Qed.

(** What one search returns to [play]. *)
Lemma mcts_search_spec num_simulations c st p valid hand best_card v :
  1 <= num_simulations ->
  hands st !! p = Some hand -> hand ≠ [] ->
  _mcts_search' num_simulations c st p valid = Ok (best_card, v) ->
  exists heap root best_child,
    search_tree' num_simulations c st p valid = Ok heap /\
    heap !! 0 = Some root /\
    (exists cid, cid ∈ children root /\ heap !! cid = Some best_child) /\
    (forall cid child, cid ∈ children root -> heap !! cid = Some child ->
       visits child <= visits best_child) /\
    action best_child = best_card /\
    1 <= visits best_child /\
    v = fdiv (total_value best_child) (of_int (Z.of_nat (visits best_child))).
Proof.
  intros HS Hp Hne. unfold MCTSAgent._mcts_search, mbind, result_bind.
  destruct (search_tree' _ _ _ _ _) as [heap|e] eqn:Htree; [|done].
  pose proof (search_tree_root_child _ _ _ _ _ _ _ HS Hp Hne Htree)
    as (root & Hroot & Hkids).
  pose proof (search_tree_inv _ _ _ _ _ _ _ _ _ _ _ _ _ _ Htree) as Hinv.
  unfold deref. rewrite Hroot.
  destruct (children root) as [|k0 kids] eqn:Hk; [done|].
  destruct (most_visited heap (k0 :: kids)) as [best|e] eqn:Hbest; [|done].
  intros [= <- <-].
  apply most_visited_spec in Hbest as [(cid & Hcid & Hb) Hmax].
  assert (Hvis : 1 <= visits best).
  { destruct (Hinv 0 root Hroot) as (Hall & _ & _).
    rewrite Hk in Hall.
    pose proof (proj1 (Forall_forall _ _) Hall cid Hcid) as Hc. simpl in Hc.
    destruct (Hinv cid best Hb) as (_ & Hv & _). apply Hv. lia. }
  exists heap, root, best. rewrite Hk.
  split; [done|]. split; [done|]. split; [by exists cid|].
  split; [done|]. split; [done|]. split; [done|].
  unfold value. rewrite decide_False by lia. done.
Qed.

Lemma dict_of_ext keys (f g : Card -> F) :
  (forall card, card ∈ keys -> f card = g card) -> dict_of keys f = dict_of keys g.
Proof.
  intros Hfg. unfold dict_of. apply list_fmap_ext. intros i card Hi.
  f_equal. apply Hfg. by eapply list_elem_of_lookup_2.
Qed.

Lemma dict_get_of keys (f : Card -> F) card v :
  dict_get (dict_of keys f) card = Ok v -> card ∈ keys /\ v = f card.
Proof.
  induction keys as [|k keys IH]; simpl; [done|].
  case_decide as Hk.
  - intros [= <-]. subst k. split; [apply elem_of_cons; by left|done].
  - intros Hget. destruct (IH Hget) as [Hin ->].
    split; [apply elem_of_cons; by right|done].
Qed.

Lemma dict_set_of keys (f g : Card -> F) card v :
  NoDup keys -> card ∈ keys ->
  g card = v -> (forall card', card' ≠ card -> g card' = f card') ->
  dict_set (dict_of keys f) card v = dict_of keys g.
Proof.
  intros Hnd Hin Hg Hother. induction Hnd as [|k keys Hk Hnd IH]; simpl.
  - by apply elem_of_nil in Hin.
  - case_decide as Hc.
    + subst k. rewrite Hg. f_equal. apply dict_of_ext.
      intros card' Hin'. symmetry. apply Hother. by intros ->.
    + apply elem_of_cons in Hin as [?|Hin]; [done|].
      rewrite (Hother k) by done. f_equal. by apply IH.
Qed.

Lemma dict_set_fresh keys (f : Card -> F) card :
  card ∉ keys ->
  dict_set (dict_of keys f) card (f card) = dict_of (keys ++ [card]) f.
Proof.
  induction keys as [|k keys IH]; simpl; [done|].
  intros Hnot. apply not_elem_of_cons in Hnot as [Hne Hnot].
  rewrite decide_False by done. f_equal. by apply IH.
Qed.

(** [{card: 0.0 for card in valid_cards}]: the distinct valid cards in the
    order of their first occurrence, each with value 0. *)
Lemma zero_values_spec valid :
  exists keys,
    zero_values of_int valid = dict_of keys (fun _ => of_int 0%Z) /\
    NoDup keys /\ (forall card, card ∈ keys <-> card ∈ valid).
Proof.
  clear fadd fmul fdiv fsqrt flog finf fltb.
  unfold zero_values.
  assert (Hgen : forall ks, NoDup ks ->
            exists keys,
              foldl (fun d card => dict_set d card (of_int 0%Z))
                    (dict_of ks (fun _ => of_int 0%Z)) valid
                = dict_of keys (fun _ => of_int 0%Z) /\
              NoDup keys /\
              (forall card, card ∈ keys <-> card ∈ ks \/ card ∈ valid)).
  { induction valid as [|c valid IH]; intros ks Hks; simpl.
    - exists ks. split; [done|]. split; [done|]. intros card.
      rewrite elem_of_nil. tauto.
    - destruct (decide (c ∈ ks)) as [Hin|Hnot].
      + rewrite (dict_set_of ks _ (fun _ => of_int 0%Z)) by done.
        destruct (IH ks Hks) as (keys & Heq & Hnd & Hiff).
        exists keys. split; [done|]. split; [done|]. intros card.
        rewrite Hiff, elem_of_cons. split; [tauto|].
        intros [?|[->|?]]; tauto.
      + rewrite (dict_set_fresh ks (fun _ => of_int 0%Z)) by done.
        destruct (IH (ks ++ [c])) as (keys & Heq & Hnd & Hiff).
        { apply NoDup_app. split; [done|]. split; [|apply NoDup_singleton].
          intros x Hx ->%list_elem_of_singleton. done. }
        exists keys. split; [done|]. split; [done|]. intros card.
        rewrite Hiff, elem_of_app, list_elem_of_singleton, elem_of_cons.
        tauto. }
  destruct (Hgen [] (NoDup_nil_2)) as (keys & Heq & Hnd & Hiff).
  exists keys. split; [done|]. split; [done|]. intros card.
  rewrite Hiff, elem_of_nil. tauto.
Qed.

Lemma summed_snoc recorded card v card' :
  summed of_int fadd (recorded ++ [(card, v)]) card'
  = if decide (card = card') then fadd (summed of_int fadd recorded card') v
    else summed of_int fadd recorded card'.
Proof. unfold summed. by rewrite foldl_app. Qed.

(** The dict of [play] after the loop over the determinizations. *)
Lemma action_values_after_spec shuffles num_simulations num_determinizations
    c st p valid hand action_values :
  1 <= num_simulations ->
  hands st !! p = Some hand -> hand ≠ [] ->
  action_values_after of_int fadd fmul fdiv fsqrt flog finf fltb shuffles
    num_simulations num_determinizations c st p valid = Ok action_values ->
  exists keys recorded,
    NoDup keys /\ (forall card, card ∈ keys <-> card ∈ valid) /\
    action_values = dict_of keys (summed of_int fadd recorded) /\
    length recorded = num_determinizations /\
    forall k rec, recorded !! k = Some rec ->
      records_most_visited of_int fadd fmul fdiv fsqrt flog finf fltb
        shuffles num_simulations c st p valid k rec.
Proof.
  intros HS Hp Hne. unfold action_values_after.
  destruct (zero_values_spec valid) as (keys & -> & Hnd & Hkeys).
  intros Hrun. exists keys.
  apply (foldR_partial _ (fun k av =>
           exists recorded,
             av = dict_of keys (summed of_int fadd recorded) /\
             length recorded = k /\
             forall j rec, recorded !! j = Some rec ->
               records_most_visited of_int fadd fmul fdiv fsqrt flog finf fltb
                 shuffles num_simulations c st p valid j rec)) in Hrun.
  - rewrite length_seq in Hrun. destruct Hrun as (recorded & ? & ? & ?).
    by exists recorded.
  - exists []. split; [done|]. split; [done|]. intros j rec. by rewrite lookup_nil.
  - intros k av x av' Hx (recorded & -> & Hlen & Hrec).
    apply lookup_seq in Hx as [-> Hk]. simpl.
    unfold MCTSAgent.play_step, mbind, result_bind.
    destruct (_determinize_state (shuffles k) st p) as [det|e] eqn:Hdet; [|done].
    destruct (_mcts_search' _ _ _ _ _) as [[best_card v]|e] eqn:Hsearch; [|done].
    destruct best_card as [best_card|]; [|done].
    destruct (dict_get _ best_card) as [old|e] eqn:Hget; [|done].
    intros [= <-].
    apply dict_get_of in Hget as [Hin ->].
    destruct (determinize_keeps_own_hand _ _ _ _ Hdet) as [Hown _].
    rewrite Hp in Hown.
    destruct (mcts_search_spec _ _ _ _ _ _ _ _ HS Hown Hne Hsearch)
      as (heap & root & best & Htree & Hroot & Hchild & Hmax & Hact & Hvis & Hv).
    exists (recorded ++ [(best_card, v)]). split; [|split].
    + apply dict_set_of; [done|done| |].
      * rewrite summed_snoc. by rewrite decide_True.
      * intros card' Hc. rewrite summed_snoc. by rewrite decide_False.
    + rewrite length_app. simpl. lia.
    + intros j rec Hj. destruct (decide (j < length recorded)) as [Hlt|Hge].
      * rewrite lookup_app_l in Hj by done. by apply Hrec.
      * rewrite lookup_app_r in Hj by lia.
        destruct (j - length recorded) as [|?] eqn:Hd; [|done].
        injection Hj as <-. assert (j = k) by lia. subst j.
        exists det, heap, root, best. by repeat split.
Qed.

(** C6.  For a strict weak order [<] on the values and at least one
    simulation, when [play] returns a card for a seat that holds cards:
    every determinization recorded the root child with the most visits
    after the simulations, with its mean value (accumulated value divided
    by visits), and the returned card is a valid card whose recorded values,
    summed over the determinizations, no valid card's sum exceeds. *)
Theorem play_returns_highest_summed_value shuffles num_simulations
    num_determinizations c hand valid_cards current_trick trump_suit led_suit
    player_idx state card :
  (forall x, fltb x x = false) ->
  (forall x y z, fltb x y = true -> fltb y z = true -> fltb x z = true) ->
  (forall x y z, fltb x y = false -> fltb y z = false -> fltb x z = false) ->
  1 <= num_simulations ->
  hands state !! player_idx = Some hand -> hand ≠ [] ->
  MCTSAgent.play of_int fadd fmul fdiv fsqrt flog finf fltb shuffles
    num_simulations num_determinizations c hand valid_cards current_trick
    trump_suit led_suit player_idx state = Ok card ->
  exists recorded,
    length recorded = num_determinizations /\
    (forall k rec, recorded !! k = Some rec ->
       records_most_visited of_int fadd fmul fdiv fsqrt flog finf fltb
         shuffles num_simulations c state player_idx valid_cards k rec) /\
    card ∈ valid_cards /\
    (forall card', card' ∈ valid_cards ->
       fltb (summed of_int fadd recorded card)
            (summed of_int fadd recorded card') = false).
Proof.
  intros Hirr Htr Hnt HS Hp Hne. unfold MCTSAgent.play, mbind, result_bind.
  destruct (action_values_after _ _ _ _ _ _ _ _ _ _ _ _ _ _ _) as [av|e] eqn:Hav;
    [|done].
  apply (action_values_after_spec _ _ _ _ _ _ _ hand) in Hav
    as (keys & recorded & Hnd & Hkeys & -> & Hlen & Hrec); [|done..].
  set (gt := fun x y : Card * F => fltb y.2 x.2).
  destruct (py_max gt _) as [best|e] eqn:Hmax; [|done].
  intros [= <-]. exists recorded. split; [done|]. split; [done|].
  unfold py_max in Hmax.
  destruct (dict_of keys _) as [|x rest] eqn:Hd; [done|].
  injection Hmax as <-.
  pose proof (max_from_elem gt x rest) as Hin.
  destruct (max_from_not_beaten gt) with (b := x) (l := rest) as [Hx Hrest].
  { intros y. apply Hirr. }
  { intros y1 y2 y3. unfold gt. eauto. }
  { intros y1 y2 y3. unfold gt. eauto. }
  assert (Hall : Forall (fun y => gt y (max_from gt x rest) = false) (x :: rest))
    by (by constructor).
  rewrite <- Hd in Hin, Hall. unfold dict_of in Hin, Hall.
  apply list_elem_of_fmap in Hin as (bc & Hbest & Hbc).
  rewrite Hbest in *. simpl. split; [by apply Hkeys|].
  intros card' Hc'. apply Hkeys in Hc'.
  rewrite Forall_fmap in Hall.
  apply (proj1 (Forall_forall _ _) Hall card' Hc').
Qed.
End Choice.

Section ChoiceExample.

(** C6 on [hearts_led]: three determinizations of five simulations each,
    with the integer stand-in for the floats. *)
Lemma play_returns_highest_summed_value_witness :
  let hand := [mkCard HEARTS 7; mkCard HEARTS 8; mkCard SPADES 3] in
  let valid_cards := [mkCard HEARTS 7; mkCard HEARTS 8] in
  let shuffles := fun (_ : nat) (unknown : list Card) => unknown in
  exists card recorded,
    IntArith.play shuffles 5 3 1%Z hand valid_cards [(0, mkCard HEARTS 5)]
      (Some CLUBS) (Some HEARTS) 1 hearts_led = Ok card /\
    length recorded = 3 /\
    card ∈ valid_cards /\
    (forall card', card' ∈ valid_cards ->
       IntArith.fltb (summed IntArith.of_int IntArith.fadd recorded card)
                     (summed IntArith.of_int IntArith.fadd recorded card')
       = false).
Proof.
  intros hand valid_cards shuffles.
  assert (Hplay : exists card,
            IntArith.play shuffles 5 3 1%Z hand valid_cards
              [(0, mkCard HEARTS 5)] (Some CLUBS) (Some HEARTS) 1 hearts_led
            = Ok card).
  { eexists. vm_compute. reflexivity. }
  destruct Hplay as [card Hplay].
  assert (Hirr : forall x, IntArith.fltb x x = false).
  { intros x. apply Z.ltb_irrefl. }
  assert (Htr : forall x y z, IntArith.fltb x y = true ->
            IntArith.fltb y z = true -> IntArith.fltb x z = true).
  { intros x y z. unfold IntArith.fltb. rewrite !Z.ltb_lt. lia. }
  assert (Hnt : forall x y z, IntArith.fltb x y = false ->
            IntArith.fltb y z = false -> IntArith.fltb x z = false).
  { intros x y z. unfold IntArith.fltb. rewrite !Z.ltb_ge. lia. }
  assert (HS : 1 <= 5) by lia.
  assert (Hhand : hands hearts_led !! 1 = Some hand) by reflexivity.
  assert (Hne : hand ≠ []) by done.
  destruct (play_returns_highest_summed_value
              IntArith.of_int IntArith.fadd IntArith.fmul IntArith.fdiv
              IntArith.fsqrt IntArith.flog IntArith.finf IntArith.fltb
              shuffles 5 3 1%Z hand valid_cards [(0, mkCard HEARTS 5)]
              (Some CLUBS) (Some HEARTS) 1 hearts_led card
              Hirr Htr Hnt HS Hhand Hne Hplay)
    as (recorded & Hlen & _ & Hin & Hbest).
  exists card, recorded.
  split; [exact Hplay|]. split; [exact Hlen|]. split; [exact Hin|exact Hbest].
Defined.
End ChoiceExample.

(* ===================================================================== *)
(** * The loop bounds of the search are never reached *)
(* ===================================================================== *)

Lemma foldR_raise {A B} (body : A -> B -> result A) (I : nat -> A -> Prop)
    (l : list B) (acc : A) e :
  I 0 acc ->
  (forall i a x a', l !! i = Some x -> I i a -> body a x = Ok a' -> I (S i) a') ->
  foldR body acc l = Raise e ->
  exists i a x, l !! i = Some x /\ I i a /\ body a x = Raise e.
Proof.
  revert I acc. induction l as [|x l IH]; intros I acc H0 Hstep; simpl; [done|].
  destruct (body acc x) as [a|e'] eqn:Hb; simpl.
  - intros Hrest.
    destruct (IH (fun i => I (S i)) a) as (i & a' & y & Hy & Hi & Hr); [..|done|].
    + by apply (Hstep 0 acc x a).
    + intros i a0 y a' Hy. apply (Hstep (S i)). done.
    + exists (S i), a', y. done.
  - intros [= ->]. exists 0, acc, x. done.
Qed.

Section Fuel.
Import MCTSAgent.
Context {F : Type}.
Variable of_int : Z -> F.
Variables fadd fmul fdiv : F -> F -> F.
Variables fsqrt flog : F -> F.
Variable finf : F.
Variable fltb : F -> F -> bool.

Implicit Types heap : list (MCTSNode F).
Implicit Types node : MCTSNode F.

Lemma arena_wf_same_shape (h h' : list (MCTSNode F)) :
  Forall2 same_shape h h' -> arena_wf h -> arena_wf h'.
Proof.
  intros Hh Hwf id n' Hn'.
  destruct (Forall2_lookup_r _ _ _ _ _ Hh Hn') as (n & Hn & Hs).
  destruct (Hwf id n Hn) as [Hkids Hpar].
  destruct Hs as (_ & Hp & _ & Hc & _).
  rewrite Hc, Hp, <- (Forall2_length _ _ _ Hh). done.
Qed.

Lemma arena_wf_root st p valid : arena_wf [root_node of_int st p valid].
Proof.
  intros [|id] node; simpl; [|by rewrite lookup_nil].
  intros [= <-]. simpl. split; [constructor|done].
Qed.

Lemma arena_wf_expand heap id sim heap' cid :
  arena_wf heap ->
  _expand of_int heap id sim = Ok (heap', cid) ->
  arena_wf heap' /\ cid < length heap' /\ length heap' = S (length heap).
Proof.
  intros Hwf Hexp.
  apply expand_spec in Hexp
    as (node & a & rest & child & Hn & _ & -> & -> & _ & Hkids & Hpar & _).
  assert (Hid : id < length heap) by (by eapply lookup_lt_Some).
  assert (Hlen : length (<[id := mkNode (state node) (parent node) (action node)
                      (children node ++ [length heap]) (visits node)
                      (total_value node) rest (player_idx node)]> heap
                         ++ [child]) = S (length heap)).
  { rewrite length_app, length_insert. simpl. lia. }
  split; [|split; [lia|done]].
  intros m n Hm. rewrite Hlen.
  destruct (decide (m = length heap)) as [->|Hne].
  - rewrite lookup_app_r in Hm by (by rewrite length_insert).
    rewrite length_insert, Nat.sub_diag in Hm. injection Hm as <-.
    rewrite Hkids, Hpar. split; [constructor|]. by intros pid [= <-].
  - rewrite lookup_app_l in Hm.
    2:{ rewrite length_insert. apply lookup_lt_Some in Hm. lia. }
    destruct (decide (m = id)) as [->|Hmid].
    + rewrite list_lookup_insert_eq in Hm by done. injection Hm as <-. simpl.
      destruct (Hwf id node Hn) as [Hall Hp]. split; [|done].
      apply Forall_app. split; [|apply Forall_singleton; lia].
      eapply Forall_impl; [exact Hall|]. intros k Hk. cbv beta in *. lia.
    + rewrite list_lookup_insert_ne in Hm by done.
      destruct (Hwf m n Hm) as [Hall Hp]. split; [|done].
      eapply Forall_impl; [exact Hall|]. intros k Hk. cbv beta in *. lia.
Qed.

(** On a well-formed arena [_backpropagate] reaches the root within its
    bound, and raises nothing. *)
Lemma backpropagate_returns fuel heap id v :
  arena_wf heap -> id < length heap -> id < fuel ->
  exists heap', _backpropagate fadd fuel heap (Some id) v = Ok heap'.
Proof.
  revert heap id. induction fuel as [|fuel IH]; intros heap id Hwf Hid Hfuel;
    [lia|].
  simpl. unfold mbind, result_bind, deref.
  destruct (lookup_lt_is_Some_2 heap id Hid) as [n Hn]. rewrite Hn.
  destruct (parent n) as [pid|] eqn:Hp; [|destruct fuel; by eexists].
  destruct (Hwf id n Hn) as [_ Hpar]. specialize (Hpar pid Hp).
  apply IH; [|rewrite length_insert; lia|lia].
  eapply arena_wf_same_shape; [|exact Hwf].
  rewrite <- (list_insert_id heap id n Hn) at 1.
  apply Forall2_insert; [apply Forall2_same_shape_refl|].
  repeat split; simpl; try done; lia.
Qed.

Lemma apply_action_python st card p e :
  _apply_action st card p = Raise e -> python_exn e.
Proof.
  unfold _apply_action, mbind, result_bind, index.
  destruct (hands st !! p) as [hand|]; [|by intros [= <-]].
  case_decide as Hin; [|done].
  destruct (remove_first_elem card hand Hin) as [hand' ->]. done.
Qed.

Lemma ucb1_python heap id node c e :
  arena_wf heap -> heap !! id = Some node ->
  ucb1 of_int fadd fmul fdiv fsqrt flog finf fltb heap node c = Raise e ->
  python_exn e.
Proof.
  intros Hwf Hn. unfold ucb1, mbind, result_bind, deref.
  case_decide; [done|].
  destruct (parent node) as [pid|] eqn:Hp; [|by intros [= <-]].
  destruct (Hwf id node Hn) as [_ Hpar]. specialize (Hpar pid Hp).
  destruct (lookup_lt_is_Some_2 heap pid) as [pn ->].
  { apply lookup_lt_Some in Hn. lia. }
  case_decide; [by intros [= <-]|].
  destruct (fltb _ _); [by intros [= <-]|done].
Qed.

Lemma select_child_spec c heap id node :
  arena_wf heap -> heap !! id = Some node ->
  match _select_child of_int fadd fmul fdiv fsqrt flog finf fltb c heap id with
  | Ok cid => cid ∈ children node
  | Raise e => python_exn e
  end.
Proof.
  intros Hwf Hn. unfold _select_child, mbind, result_bind, deref. rewrite Hn.
  destruct (Hwf id node Hn) as [Hkids _].
  destruct (foldR _ _ _) as [keyed|e] eqn:Hfold.
  - apply (foldR_partial _ (fun i (acc : list (nat * F)) =>
             acc.*1 = take i (children node))) in Hfold.
    + rewrite length_seq || idtac.
      rewrite take_ge in Hfold by done.
      unfold py_max. destruct keyed as [|x rest] eqn:Hk; [done|].
      rewrite <- Hfold.
      apply list_elem_of_fmap. eexists. split; [done|].
      rewrite <- Hk in *. rewrite Hk. apply max_from_elem.
    + by rewrite take_0.
    + intros i acc cid acc' Hi Hacc.
      destruct (heap !! cid) as [ch|]; [|done].
      destruct (ucb1 _ _ _ _ _ _ _ _ _ _ _) as [k|]; [|done].
      intros [= <-]. rewrite fmap_app, Hacc. simpl.
      by rewrite (take_S_r _ _ cid).
  - apply (foldR_raise _ (fun _ _ => True)) in Hfold
      as (i & acc & cid & Hi & _ & Hraise); [|done..].
    pose proof (proj1 (Forall_forall _ _) Hkids cid
                  (list_elem_of_lookup_2 _ _ _ Hi)) as Hc. cbv beta in Hc.
    destruct (lookup_lt_is_Some_2 heap cid) as [ch Hch]; [lia|].
    rewrite Hch in Hraise.
    destruct (ucb1 _ _ _ _ _ _ _ _ _ _ _) as [k|e'] eqn:Hu; [done|].
    injection Hraise as <-. by eapply ucb1_python.
Qed.

Lemma apply_node_action_python heap cid sim e :
  cid < length heap ->
  apply_node_action heap cid sim = Raise e -> python_exn e.
Proof.
  intros Hc. unfold apply_node_action, mbind, result_bind, deref.
  destruct (lookup_lt_is_Some_2 heap cid Hc) as [n ->].
  destruct (action n); [apply apply_action_python|done].
Qed.

Lemma select_loop_python fuel c heap id sim :
  arena_wf heap -> id < length heap -> length heap <= fuel + id ->
  match MCTSAgent.select_loop of_int fadd fmul fdiv fsqrt flog finf fltb
          fuel c heap id sim with
  | Ok (id', _) => id' < length heap
  | Raise e => python_exn e
  end.
Proof.
  intros Hwf. revert id sim.
  induction fuel as [|fuel IH]; intros id sim Hid Hfuel; [lia|].
  destruct (lookup_lt_is_Some_2 heap id Hid) as [node Hn].
  simpl. unfold mbind at 1, result_bind at 1, deref at 1. rewrite Hn.
  destruct (negb (is_terminal node) && is_fully_expanded node); [|done].
  pose proof (select_child_spec c heap id node Hwf Hn) as Hsel.
  unfold mbind at 1, result_bind at 1.
  destruct (_select_child _ _ _ _ _ _ _ _ _ _ _) as [cid|e]; [|done].
  destruct (Hwf id node Hn) as [Hkids _].
  pose proof (proj1 (Forall_forall _ _) Hkids cid Hsel) as Hc. cbv beta in Hc.
  unfold mbind at 1, result_bind at 1.
  destruct (apply_node_action heap cid sim) as [sim'|e] eqn:Happ.
  - apply IH; lia.
  - eapply apply_node_action_python; [|exact Happ]. lia.
Qed.

Lemma expand_python heap id sim e :
  id < length heap ->
  _expand of_int heap id sim = Raise e -> python_exn e.
Proof.
  intros Hid. unfold _expand, mbind, result_bind, deref.
  destruct (lookup_lt_is_Some_2 heap id Hid) as [n ->].
  unfold pop. destruct (last (untried_actions n)); [|by intros [= <-]].
  destruct (_apply_action _ _ _) as [st|e'] eqn:Happ.
  - unfold _get_valid_actions, index.
    destruct (hands st !! player_idx n); [done|by intros [= <-]].
  - intros [= <-]. by eapply apply_action_python.
Qed.

Lemma simulate_python st p e : _simulate st p = Raise e -> python_exn e.
Proof.
  unfold _simulate, mbind, result_bind, index.
  destruct (bids st !! p) as [[b|]|]; destruct (tricks_won st !! p);
    try case_decide; try done; by intros [= <-].
Qed.

(** One simulation on a well-formed arena returns a well-formed arena or
    raises an exception of Python. *)
Lemma simulation_python c st p heap k :
  arena_wf heap -> 0 < length heap ->
  match MCTSAgent.simulation of_int fadd fmul fdiv fsqrt flog finf fltb
          c st p heap k with
  | Ok heap' => arena_wf heap' /\ 0 < length heap'
  | Raise e => python_exn e
  end.
Proof.
  intros Hwf Hlen. unfold MCTSAgent.simulation.
  pose proof (select_loop_python (length heap) c heap 0 (copy st) Hwf Hlen
                ltac:(lia)) as Hsel.
  unfold mbind at 1, result_bind at 1.
  destruct (MCTSAgent.select_loop _ _ _ _ _ _ _ _ _ _ _ _ _) as [[id sim]|e];
    [|done].
  unfold mbind at 1, result_bind at 1, deref at 1.
  destruct (lookup_lt_is_Some_2 heap id Hsel) as [node ->].
  assert (Hfinish : forall (h : list (MCTSNode F)) i s,
            arena_wf h -> i < length h ->
            match (v ← _simulate s p;
                   _backpropagate fadd (length h) h (Some i) (of_int v)) with
            | Ok heap' => arena_wf heap' /\ 0 < length heap'
            | Raise e => python_exn e
            end).
  { intros h i s Hh Hi. unfold mbind, result_bind.
    destruct (_simulate s p) as [v|e] eqn:Hv; [|by eapply simulate_python].
    destruct (backpropagate_returns (length h) h i (of_int v) Hh Hi Hi)
      as [heap' Hb].
    rewrite Hb. pose proof (backpropagate_shape _ _ _ _ _ _ Hb) as Hs.
    split; [by eapply arena_wf_same_shape|].
    rewrite <- (Forall2_length _ _ _ Hs). lia. }
  destruct (negb (is_terminal node) && negb (is_fully_expanded node)).
  - unfold mbind at 2, result_bind at 2.
    destruct (_expand of_int heap id sim) as [[heap1 cid]|e] eqn:Hexp.
    + destruct (arena_wf_expand _ _ _ _ _ Hwf Hexp) as (Hwf1 & Hcid & _).
      unfold mbind at 2, result_bind at 2.
      destruct (apply_node_action heap1 cid sim) as [sim1|e] eqn:Happ.
      * apply (Hfinish heap1 cid sim1 Hwf1 Hcid).
      * simpl. by eapply apply_node_action_python.
    + simpl. by eapply expand_python.
  - apply (Hfinish heap id sim Hwf Hsel).
Qed.

(** The model's own exceptions never come out of a search: when
    [search_tree] raises, Python raises. *)
Lemma search_tree_python num_simulations c st p valid e :
  MCTSAgent.search_tree of_int fadd fmul fdiv fsqrt flog finf fltb
    num_simulations c st p valid = Raise e ->
  python_exn e.
Proof.
  unfold MCTSAgent.search_tree. intros Hrun.
  apply (foldR_raise _ (fun _ (h : list (MCTSNode F)) =>
           arena_wf h /\ 0 < length h)) in Hrun
    as (i & h & x & _ & [Hwf Hlen] & Hraise).
  - pose proof (simulation_python c st p h x Hwf Hlen) as Hsim.
    by rewrite Hraise in Hsim.
  - split; [apply arena_wf_root|simpl; lia].
  - intros i h x h' _ [Hwf Hlen] Hsim.
    pose proof (simulation_python c st p h x Hwf Hlen) as Hs.
    by rewrite Hsim in Hs.
Qed.
End Fuel.

(* ===================================================================== *)
(** * Rounds with agents that keep the contract *)
(* ===================================================================== *)

Section Completion.
Import WizardRules WizardGame.

Lemma determine_trick_winner_seat cards_played led_suit trump_suit :
  cards_played ≠ [] ->
  exists winner,
    determine_trick_winner cards_played led_suit trump_suit = Ok winner /\
    winner ∈ cards_played.*1.
Proof.
  intros Hne. rewrite determine_trick_winner_cases.
  assert (Hsub : forall (P : nat * Card -> Prop) `{!forall x, Decision (P x)}
                   (l : list (nat * Card)) p,
             p ∈ (filter P l).*1 -> p ∈ l.*1).
  { intros P ? l p. rewrite !list_elem_of_fmap.
    intros (y & -> & Hy). apply list_elem_of_filter in Hy as [_ Hy]. eauto. }
  assert (Hmax : forall x rest (l : list (nat * Card)),
             (forall p, p ∈ (x :: rest).*1 -> p ∈ l.*1) ->
             (max_from rank_gt x rest).1 ∈ l.*1).
  { intros x rest l Hl. apply Hl, first_highest_elem, max_from_first_highest. }
  assert (Hfirst : exists p, first_player cards_played = Ok p /\
                             p ∈ cards_played.*1).
  { destruct cards_played as [|[p c] rest]; [done|]. exists p.
    split; [done|]. rewrite fmap_cons. apply elem_of_cons. by left. }
  destruct Hfirst as (p0 & Hp0 & Hin0).
  destruct (wizards cards_played) as [|w ws] eqn:Hw.
  - destruct (non_jesters cards_played) as [|n ns] eqn:Hn; [eauto|].
    destruct (match trump_suit with
              | Some t => of_suit (Some t) (n :: ns) | None => [] end)
      as [|x rest] eqn:Ht.
    + destruct (of_suit led_suit (n :: ns)) as [|x rest] eqn:Hl; [eauto|].
      eexists. split; [done|]. apply Hmax. intros p Hp.
      apply (Hsub (fun pc => suit pc.2 ≠ JESTER) _).
      fold (non_jesters cards_played). rewrite Hn.
      apply (Hsub (fun pc => Some (suit pc.2) = led_suit) _).
      fold (of_suit led_suit (n :: ns)). by rewrite Hl.
    + eexists. split; [done|]. apply Hmax. intros p Hp.
      destruct trump_suit as [t|]; [|done].
      apply (Hsub (fun pc => suit pc.2 ≠ JESTER) _).
      fold (non_jesters cards_played). rewrite Hn.
      apply (Hsub (fun pc => Some (suit pc.2) = Some t) _).
      fold (of_suit (Some t) (n :: ns)). by rewrite Ht.
  - exists w.1. split; [done|].
    apply (Hsub (fun pc => suit pc.2 = WIZARD) _).
    fold (wizards cards_played). rewrite Hw. rewrite fmap_cons.
    apply elem_of_cons. by left.
Qed.

Lemma bids_returned_in_range agents st k :
  Forall lawful_agent agents ->
  Forall (bid_in_range (round_num st)) (bids_returned agents st k).
Proof.
  intros Hlaw. induction k as [|k IH]; simpl; [constructor|].
  apply Forall_app. split; [done|]. apply Forall_singleton.
  unfold bid_asked.
  destruct (agents !! k) as [a|] eqn:Ha; [|unfold bid_in_range; lia].
  destruct (hands st !! k); [|unfold bid_in_range; lia].
  apply (proj1 (Forall_forall _ _) Hlaw a (list_elem_of_lookup_2 _ _ _ Ha)).
Qed.

(** A seat that has not played in this trick and holds a card plays a card
    that is accepted. *)
Lemma play_step_total agents self st led_suit i g :
  0 < self_num_players self ->
  i < self_num_players self ->
  length agents = self_num_players self ->
  length (hands st) = self_num_players self ->
  Forall lawful_agent agents ->
  Forall (fun hand => hand ≠ []) (hands st) ->
  trick_inv self st i g ->
  exists g' led', play_step agents led_suit i g = (g', Ok led').
Proof.
  intros Hn Hi Hagents Hhands Hlaw Hfull
    (sti & -> & Hlen & Hrel & Htrick & Hseats & Hlead & _).
  set (n := self_num_players self) in *.
  set (q := (trick_leader st + i) mod n).
  assert (Hq : q < n) by (apply Nat.mod_upper_bound; lia).
  destruct (lookup_lt_is_Some_2 (hands st) q) as [hand Hhand]; [lia|].
  destruct (lookup_lt_is_Some_2 agents q) as [agent Hagent]; [lia|].
  destruct (Hrel q hand Hhand) as (hand' & Hhand' & _ & Hsame).
  assert (Hfresh : ~ played (trick_leader st) n i q).
  { intros (j & Hj & Heq). by eapply (rotation_inj (trick_leader st) n i j). }
  rewrite (Hsame Hfresh) in Hhand'.
  assert (Hne : hand ≠ []).
  { apply (proj1 (Forall_forall _ _) Hfull hand).
    by eapply list_elem_of_lookup_2. }
  unfold play_step, mbind, Prog_bind, get_state, get_self, lift, raise, index.
  simpl. fold n. rewrite decide_False by lia. rewrite Hlead. fold q.
  rewrite Hhand', Hagent. simpl.
  set (valid := get_valid_plays hand led_suit).
  set (card := play agent hand valid _ _ _ _ _).
  assert (Hcard : card ∈ valid).
  { apply (proj1 (Forall_forall _ _) Hlaw agent
             (list_elem_of_lookup_2 _ _ _ Hagent)).
    by apply get_valid_plays_nonempty. }
  rewrite decide_False by (by intros ?).
  destruct (remove_first_elem card hand) as [rest ->].
  { by eapply get_valid_plays_subset. }
  simpl. eauto.
Qed.

Lemma trick_loop_total agents self st :
  0 < self_num_players self ->
  self_state self = Some st ->
  length agents = self_num_players self ->
  length (hands st) = self_num_players self ->
  Forall lawful_agent agents ->
  Forall (fun hand => hand ≠ []) (hands st) ->
  exists g led_suit, trick_loop agents self = (g, Ok led_suit).
Proof.
  intros Hn Hst Hagents Hhands Hlaw Hfull.
  unfold trick_loop, mbind, Prog_bind, get_state, get_self, put_state.
  rewrite Hst. simpl. fold (with_state self (set_current_trick [] st)).
  destruct (foldP_total (play_step agents)
              (fun i _ g => i <= self_num_players self /\ trick_inv self st i g)
              (seq 0 (self_num_players self)) None
              (with_state self (set_current_trick [] st)))
    as (led & g & Hrun & _).
  - split; [lia|]. exists (set_current_trick [] st).
    split; [done|]. split; [done|]. split; [|by repeat split].
    intros p hand Hp. exists hand. split; [done|]. split; [|done].
    intros (j & Hj & _). lia.
  - intros i led g x Hx [Hi Hinv].
    apply lookup_seq in Hx as [-> Hx]. simpl in *.
    destruct (play_step_total agents self st led i g) as (g' & led' & Hstep);
      try done.
    exists led', g'. split; [done|]. split; [lia|]. by eapply play_step_inv.
  - by exists g, led.
Qed.

Lemma play_trick_total agents self st :
  0 < self_num_players self ->
  self_state self = Some st ->
  length agents = self_num_players self ->
  length (hands st) = self_num_players self ->
  length (tricks_won st) = self_num_players self ->
  Forall lawful_agent agents ->
  Forall (fun hand => hand ≠ []) (hands st) ->
  exists self', _play_trick agents self = (self', Ok tt).
Proof.
  intros Hn Hst Hagents Hhands Hwon Hlaw Hfull.
  destruct (trick_loop_total agents self st) as (g & led & Hloop); try done.
  unfold _play_trick, mbind at 1, Prog_bind at 1. rewrite Hloop.
  apply (trick_loop_ok _ _ st) in Hloop; [|done].
  destruct Hloop as (sti & -> & Hlen & Hrel & Htrick & Hseats & Hlead
                     & Hwon' & _).
  unfold mbind, Prog_bind, get_state, lift. simpl.
  destruct (determine_trick_winner_seat (current_trick sti) led
              (trump_suit sti)) as (winner & -> & Hin).
  { intros Hnil. rewrite Hnil in Htrick. simpl in Htrick. lia. }
  apply list_elem_of_fmap in Hin as (pc & -> & Hpc).
  pose proof (proj1 (Forall_forall _ _) Hseats pc Hpc) as Hlt. cbv beta in Hlt.
  unfold index.
  destruct (lookup_lt_is_Some_2 (tricks_won sti) pc.1) as [won ->].
  { rewrite Hwon'. lia. }
  simpl. eauto.
Qed.

Lemma play_trick_ready agents self r k g :
  0 < self_num_players self ->
  length agents = self_num_players self ->
  Forall lawful_agent agents ->
  k < r ->
  round_ready self r k g ->
  exists g', _play_trick agents g = (g', Ok tt) /\ round_ready self r (S k) g'.
Proof.
  intros Hn Hagents Hlaw Hk (st & -> & Hhands & Hall & Hwon & Hbids & Hsome).
  destruct (play_trick_total agents (with_state self st) st) as [g' Htrick];
    try done.
  { eapply Forall_impl; [exact Hall|]. intros hand Hh Hnil. subst hand.
    simpl in Hh. lia. }
  exists g'. split; [done|].
  apply (play_trick_effect _ _ st) in Htrick; [|done..].
  destruct Htrick as (st' & winner & won & -> & Hlen & Hrel & _ & Hwon'
                      & _ & Hbids' & _).
  exists st'. split; [done|]. split; [simpl in *; lia|]. split; [|split; [|split]].
  - apply Forall_forall. intros hand' Hh.
    apply list_elem_of_lookup in Hh as [p Hp'].
    destruct (lookup_lt_is_Some_2 (hands st) p) as [hand Hp].
    { rewrite <- Hlen. by eapply lookup_lt_Some. }
    destruct (Hrel p hand Hp) as (h' & Hp'' & Hl).
    rewrite Hp' in Hp''. injection Hp'' as <-.
    pose proof (proj1 (Forall_forall _ _) Hall hand
                  (list_elem_of_lookup_2 _ _ _ Hp)) as Hk'.
    simpl in Hk'. lia.
  - by rewrite Hwon', length_insert.
  - by rewrite Hbids'.
  - by rewrite Hbids'.
Qed.

Lemma score_round_total self st :
  self_state self = Some st ->
  length (bids st) = self_num_players self ->
  Forall (fun b => is_Some b) (bids st) ->
  length (tricks_won st) = self_num_players self ->
  length (self_scores self) = self_num_players self ->
  exists self', _score_round self = (self', Ok tt).
Proof.
  intros Hst Hbids Hsome Hwon Hscores.
  unfold _score_round, mbind, Prog_bind, get_self, for_each.
  destruct (foldP_total (fun _ x => score_step x)
              (fun _ _ g => self_state g = Some st /\
                            length (self_scores g) = self_num_players self)
              (seq 0 (self_num_players self)) tt self)
    as ([] & g & Hrun & _); [done| |by exists g].
  intros i [] g p Hp [Hg Hlen]. apply lookup_seq in Hp as [-> Hp]. simpl in *.
  unfold score_step, mbind, Prog_bind, get_state, get_self, lift, index,
    put_scores. rewrite Hg.
  destruct (lookup_lt_is_Some_2 (bids st) i) as [b Hb]; [lia|].
  pose proof (proj1 (Forall_forall _ _) Hsome b
                (list_elem_of_lookup_2 _ _ _ Hb)) as [b' ->].
  destruct (lookup_lt_is_Some_2 (tricks_won st) i) as [won Hw]; [lia|].
  destruct (lookup_lt_is_Some_2 (self_scores g) i) as [old Ho]; [lia|].
  rewrite Hb, Hw. simpl. rewrite Ho. simpl.
  eexists tt, _. split; [done|]. simpl. split; [done|].
  by rewrite length_insert.
Qed.

(** With agents that keep the contract, a round that the deck suffices for
    runs to its end: [_play_round] raises nothing. *)
Lemma play_round_completes shuffle round_num agents self :
  0 < self_num_players self ->
  round_num * self_num_players self
    <= length (shuffle Deck.create_standard_deck) ->
  length agents = self_num_players self ->
  length (self_scores self) = self_num_players self ->
  Forall lawful_agent agents ->
  exists self', _play_round shuffle round_num agents self = (self', Ok tt).
Proof.
  intros Hn Hdeck Hagents Hscores Hlaw.
  set (n := self_num_players self) in *.
  destruct (deal_loop_total (shuffle Deck.create_standard_deck) n round_num
              Hdeck) as (hs & Hdeal & Hlen & Hhands & _).
  unfold _play_round.
  unfold mbind at 1 2 3 4 5, Prog_bind at 1 2 3 4 5, get_self, lift.
  unfold Deck.shuffle_and_deal, mbind at 1, result_bind at 1. fold n.
  rewrite Hdeal. simpl.
  set (st0 := {| num_players := _ |}).
  change (mkWizardGame (self_num_players self) (self_total_rounds self)
            (self_scores self) (Some st0)) with (with_state self st0).
  (* bidding *)
  assert (Hbid : _bidding_phase agents (with_state self st0)
                 = (with_state self (set_bids (bids_after agents st0 n n) st0),
                    Ok tt)).
  { unfold _bidding_phase, mbind, Prog_bind, get_self, for_each. simpl. fold n.
    replace (with_state self st0)
      with (with_state self (set_bids (bids_after agents st0 n 0) st0)) at 1.
    2:{ unfold bids_after. simpl. by rewrite Nat.sub_0_r. }
    apply bidding_prefix; [done|done|lia|].
    by apply bids_returned_in_range. }
  rewrite Hbid.
  (* tricks *)
  destruct (foldP_total (fun _ _ => _play_trick agents)
              (fun k _ g => k <= round_num /\ round_ready self round_num k g)
              (seq 0 round_num) tt
              (with_state self (set_bids (bids_after agents st0 n n) st0)))
    as ([] & g & Htricks & _ & Hready).
  - split; [lia|]. eexists. split; [done|]. simpl.
    split; [done|]. split.
    { apply Forall_forall. intros hand Hh.
      apply list_elem_of_lookup in Hh as [p Hp].
      assert (p < n) by (rewrite <- Hlen; by eapply lookup_lt_Some).
      rewrite Hhands in Hp by done. injection Hp as <-.
      rewrite dealt_length by lia. lia. }
    split; [by rewrite length_replicate|].
    unfold bids_after. rewrite Nat.sub_diag, app_nil_r, length_fmap,
      bids_returned_length. split; [done|].
    apply Forall_fmap, Forall_forall. intros b _. by eexists.
  - intros k [] g0 x Hx [Hk Hinv]. apply lookup_seq in Hx as [-> Hx].
    destruct (play_trick_ready agents self round_num k g0) as (g' & Ht & Hr);
      try done.
    exists tt, g'. split; [done|]. split; [lia|done].
  - unfold for_each. rewrite Htricks.
    destruct Hready as (st & -> & _ & _ & Hwon & Hbids & Hsome).
    by apply (score_round_total _ st).
Qed.
End Completion.

(* ===================================================================== *)
(** * Further properties of the rules engine *)
(* ===================================================================== *)

Section RulesMore.
Import WizardRules.

(** X1.  A card is a valid play exactly when it is in the hand and either
    no suit was led, or the hand holds no card of the led suit, or the card
    has the led suit, or it is a Wizard or a Jester. *)
Theorem get_valid_plays_characterised hand led_suit card :
  card ∈ get_valid_plays hand led_suit <->
  card ∈ hand /\
  (led_suit = None \/
   (forall other, other ∈ hand -> Some (suit other) ≠ led_suit) \/
   Some (suit card) = led_suit \/ suit card = WIZARD \/ suit card = JESTER).
Proof.
  unfold get_valid_plays. destruct led_suit as [s|]; [|tauto].
  destruct (filter _ hand) as [|x same] eqn:Hf.
  - split; [|tauto]. intros Hc. split; [done|]. right. left.
    intros other Ho Heq.
    assert (other ∈ filter (fun c => Some (suit c) = Some s) hand)
      by (by apply list_elem_of_filter).
    rewrite Hf in *. by apply elem_of_nil in H.
  - rewrite <- Hf. rewrite elem_of_app, !list_elem_of_filter.
    rewrite !elem_of_cons, elem_of_nil.
    assert (Hx : x ∈ hand /\ Some (suit x) = Some s).
    { assert (Hin : x ∈ filter (fun c => Some (suit c) = Some s) hand)
        by (rewrite Hf; apply elem_of_cons; by left).
      apply list_elem_of_filter in Hin. tauto. }
    split.
    + intros [[? ?]|[[?|[?|[]]] ?]]; tauto.
    + intros [Hin [?|[Hnone|[?|[?|?]]]]]; try done; try tauto.
      exfalso. destruct Hx as [Hx1 Hx2]. exact (Hnone x Hx1 Hx2).
Qed.

Lemma filter_disjoint_submseteq {A} (P Q : A -> Prop)
    `{!forall x, Decision (P x)} `{!forall x, Decision (Q x)} (l : list A) :
  (forall x, P x -> Q x -> False) -> filter P l ++ filter Q l ⊆+ l.
Proof.
  intros Hdis. induction l as [|x l IH]; [done|].
  rewrite !filter_cons.
  destruct (decide (P x)) as [HP|HP]; destruct (decide (Q x)) as [HQ|HQ].
  - by destruct (Hdis x).
  - simpl. by apply submseteq_skip.
  - rewrite <- Permutation_middle. by apply submseteq_skip.
  - by apply submseteq_cons.
Qed.

(** X2.  When the led suit is an ordinary suit (or none), the valid plays
    hold no card more often than the hand does, and a hand that is not
    empty always has a valid play. *)
Theorem get_valid_plays_submultiset hand led_suit :
  led_suit ≠ Some WIZARD -> led_suit ≠ Some JESTER ->
  get_valid_plays hand led_suit ⊆+ hand /\
  (hand ≠ [] -> get_valid_plays hand led_suit ≠ []).
Proof.
  intros HW HJ. split; [|apply get_valid_plays_nonempty].
  unfold get_valid_plays. destruct led_suit as [s|]; [|done].
  destruct (filter _ hand) as [|x same] eqn:Hf; [done|].
  rewrite <- Hf. apply filter_disjoint_submseteq.
  intros c Hs Hin. apply elem_of_cons in Hin as [Hw|Hin].
  - apply HW. congruence.
  - apply list_elem_of_singleton in Hin. apply HJ. congruence.
Qed.

Lemma get_valid_plays_submultiset_witness :
  let hand := [mkCard SPADES 4; mkCard WIZARD 0; mkCard HEARTS 9;
               mkCard JESTER 0; mkCard HEARTS 2] in
  Some HEARTS ≠ Some WIZARD /\ Some HEARTS ≠ Some JESTER /\
  get_valid_plays hand (Some HEARTS) ⊆+ hand /\
  get_valid_plays hand (Some HEARTS)
    = [mkCard HEARTS 9; mkCard HEARTS 2; mkCard WIZARD 0; mkCard JESTER 0].
Proof.
  intros hand.
  assert (HW : Some HEARTS ≠ Some WIZARD) by done.
  assert (HJ : Some HEARTS ≠ Some JESTER) by done.
  split; [exact HW|]. split; [exact HJ|].
  destruct (get_valid_plays_submultiset hand (Some HEARTS) HW HJ) as [Hsub _].
  split; [exact Hsub|reflexivity].
Defined.

Lemma first_suit_bearing_non_jesters (cards_played : list (nat * Card)) :
  wizards cards_played = [] ->
  first_suit_bearing cards_played.*2
    = (fun pc => suit pc.2) <$> head (non_jesters cards_played).
Proof.
  unfold first_suit_bearing, wizards, non_jesters.
  induction cards_played as [|[p c] l IH]; [done|].
  rewrite fmap_cons, !filter_cons. simpl.
  destruct (decide (suit c = WIZARD)) as [Hw|Hw]; [done|].
  intros Hnil.
  destruct (decide (suit c ≠ JESTER)) as [Hj|Hj].
  - rewrite decide_True; [done|].
    rewrite !not_elem_of_cons. split; [done|]. split; [done|].
    apply not_elem_of_nil.
  - rewrite decide_False; [by apply IH|].
    intros Hnot. apply Hj. intros Heq. apply Hnot. rewrite Heq.
    apply elem_of_cons. by left.
Qed.

(** X3.  When the led suit passed in is the suit of the first card of the
    trick that is neither Wizard nor Jester, the winner's card is never a
    Jester beaten by a suit card: it is a Wizard, or every card is a Jester,
    or it is a card of the trump suit or of the led suit. *)
Theorem determine_trick_winner_card cards_played trump_suit :
  cards_played ≠ [] ->
  let led_suit := first_suit_bearing cards_played.*2 in
  exists winner card,
    determine_trick_winner cards_played led_suit trump_suit = Ok winner /\
    (winner, card) ∈ cards_played /\
    (suit card = WIZARD \/
     non_jesters cards_played = [] \/
     (suit card ≠ JESTER /\
      (Some (suit card) = trump_suit \/ Some (suit card) = led_suit))).
Proof.
  intros Hne led_suit. rewrite determine_trick_winner_cases.
  assert (Hmax : forall x rest, exists c,
             ((max_from rank_gt x rest).1, c) ∈ x :: rest).
  { intros x rest. pose proof (max_from_elem rank_gt x rest) as Hin.
    destruct (max_from rank_gt x rest) as [w c]. by exists c. }
  destruct (wizards cards_played) as [|[w c] ws] eqn:Hw.
  - destruct (non_jesters cards_played) as [|n ns] eqn:Hn.
    + destruct cards_played as [|[p c] rest]; [done|].
      exists p, c. split; [done|]. split; [apply elem_of_cons; by left|tauto].
    + assert (Hled : led_suit = Some (suit n.2)).
      { subst led_suit. rewrite first_suit_bearing_non_jesters by done.
        by rewrite Hn. }
      assert (Hsub : forall s pc, pc ∈ of_suit s (n :: ns) ->
                pc ∈ cards_played /\ suit pc.2 ≠ JESTER /\ Some (suit pc.2) = s).
      { intros s pc Hpc. unfold of_suit in Hpc.
        apply list_elem_of_filter in Hpc as [Hs Hpc].
        rewrite <- Hn in Hpc. unfold non_jesters in Hpc.
        apply list_elem_of_filter in Hpc as [Hj Hpc]. done. }
      destruct (match trump_suit with
                | Some t => of_suit (Some t) (n :: ns) | None => [] end)
        as [|x rest] eqn:Ht.
      * destruct (of_suit led_suit (n :: ns)) as [|x rest] eqn:Hl.
        { exfalso. rewrite Hled in Hl. unfold of_suit in Hl.
          rewrite filter_cons_True in Hl by done. done. }
        destruct (Hmax x rest) as [c Hc].
        exists (max_from rank_gt x rest).1, c. split; [done|].
        rewrite <- Hl in Hc. apply Hsub in Hc as (? & ? & ?). simpl in *.
        split; [done|]. right. right. tauto.
      * destruct (Hmax x rest) as [c Hc].
        exists (max_from rank_gt x rest).1, c. split; [done|].
        destruct trump_suit as [t|]; [|done].
        rewrite <- Ht in Hc. apply Hsub in Hc as (? & ? & ?). simpl in *.
        split; [done|]. right. right. tauto.
  - exists w, c. split; [done|].
    assert (Hin : (w, c) ∈ wizards cards_played)
      by (rewrite Hw; apply elem_of_cons; by left).
    unfold wizards in Hin. apply list_elem_of_filter in Hin as [Hs Hin].
    split; [done|]. by left.
Qed.

Lemma determine_trick_winner_card_witness :
  let cards_played :=
    [(0, mkCard JESTER 0); (1, mkCard JESTER 0); (2, mkCard HEARTS 5)] in
  cards_played ≠ [] /\
  determine_trick_winner cards_played (first_suit_bearing cards_played.*2) None
    = Ok 2.
Proof.
  intros cards_played.
  assert (Hne : cards_played ≠ []) by done.
  split; [exact Hne|].
  destruct (determine_trick_winner_card cards_played None Hne)
    as (w & c & Hw & _ & _).
  rewrite Hw. vm_compute in Hw. exact (eq_sym Hw).
Defined.
End RulesMore.

(* ===================================================================== *)
(** * Further properties of the deck *)
(* ===================================================================== *)

Section DeckMore.
Import Deck.

(** X4.  The deck holds every card of the four ordinary suits with a rank
    from 1 to 13 once, the Wizard and the Jester (rank 0) four times each,
    and nothing else. *)
Theorem create_standard_deck_composition (card : Card) :
  length (filter (fun c => c = card) create_standard_deck) =
    if decide (suit card ∈ [WIZARD; JESTER])
    then (if decide (rank card = 0%Z) then 4 else 0)
    else (if decide (1 <= rank card <= 13)%Z then 1 else 0).
Proof.
  destruct card as [s r].
  assert (Hout : Forall (fun c => (suit c ∈ [WIZARD; JESTER] /\ rank c = 0%Z) \/
                                  ((suit c ∉ [WIZARD; JESTER]) /\
                                   (1 <= rank c <= 13)%Z))
                        create_standard_deck).
  { apply (bool_decide_unpack _). vm_compute. exact I. }
  assert (Hnone : forall c : Card,
            ~ ((suit c ∈ [WIZARD; JESTER] /\ rank c = 0%Z) \/
               ((suit c ∉ [WIZARD; JESTER]) /\ (1 <= rank c <= 13)%Z)) ->
            length (filter (fun d => d = c) create_standard_deck) = 0).
  { intros c Hc. apply length_zero_iff_nil.
    induction Hout as [|d l Hd _ IH]; [done|].
    rewrite filter_cons_False; [done|]. intros ->. tauto. }
  simpl suit. simpl rank.
  destruct (decide (s ∈ [WIZARD; JESTER])) as [Hs|Hs].
  - destruct (decide (r = 0%Z)) as [->|Hr].
    + apply elem_of_cons in Hs as [->|Hs]; [by vm_compute|].
      apply list_elem_of_singleton in Hs as ->. by vm_compute.
    + apply Hnone. simpl. tauto.
  - destruct (decide (1 <= r <= 13)%Z) as [Hr|Hr].
    + assert (Hcases : r ∈ seqZ 1 13) by (apply elem_of_seqZ; lia).
      assert (Hsuit : s ∈ [HEARTS; DIAMONDS; CLUBS; SPADES]).
      { destruct s; rewrite ?elem_of_cons in *; tauto. }
      clear Hr Hs.
      repeat (apply elem_of_cons in Hsuit as [->|Hsuit]);
        try (by apply elem_of_nil in Hsuit);
        simpl in Hcases;
        repeat (apply elem_of_cons in Hcases as [->|Hcases]);
        try (by apply elem_of_nil in Hcases); by vm_compute.
    + apply Hnone. simpl. tauto.
Qed.

(** X5.  Dealing more cards than the shuffled deck holds raises
    [IndexError]. *)
Theorem shuffle_and_deal_overdraw shuffle num_players round_num :
  length (shuffle create_standard_deck) < num_players * round_num ->
  shuffle_and_deal shuffle num_players round_num = Raise IndexError.
Proof.
  intros Hlen. unfold shuffle_and_deal.
  set (deck := shuffle create_standard_deck) in *.
  destruct (foldR _ _ _) as [[hs idx]|e] eqn:Hrun; simpl.
  - exfalso.
    apply (foldR_partial _ (fun k (acc : list (list Card) * nat) =>
             acc.2 = k * num_players /\ acc.2 <= length deck)) in Hrun.
    + rewrite length_seq in Hrun. simpl in Hrun. lia.
    + simpl. lia.
    + intros k acc x acc' _ [Hk Hle] Hpass. unfold deal_pass in Hpass.
      apply (foldR_partial _ (fun j (a : list (list Card) * nat) =>
               a.2 = k * num_players + j /\ a.2 <= length deck)) in Hpass.
      * rewrite length_seq in Hpass. simpl. lia.
      * lia.
      * intros j [hs' i] q [hs'' i'] _ [Hi Hle'] Hcard. simpl in *.
        unfold deal_card, mbind, result_bind, index in Hcard.
        destruct (hs' !! q); [|done].
        destruct (deck !! i) eqn:Hd; [|done]. injection Hcard as <- <-.
        apply lookup_lt_Some in Hd. lia.
  - f_equal.
    apply (foldR_raise _ (fun _ _ => True)) in Hrun
      as (k & acc & x & _ & _ & Hpass); [|done..].
    unfold deal_pass in Hpass.
    apply (foldR_raise _ (fun _ _ => True)) in Hpass
      as (j & [hs i] & q & _ & _ & Hcard); [|done..].
    unfold deal_card, mbind, result_bind, index in Hcard.
    destruct (hs !! q); [|by injection Hcard].
    destruct (deck !! i); [done|by injection Hcard].
Qed.

Lemma shuffle_and_deal_overdraw_witness :
  length (reverse create_standard_deck) < 4 * 16 /\
  shuffle_and_deal reverse 4 16 = Raise IndexError.
Proof.
  assert (H : length (reverse create_standard_deck) < 4 * 16).
  { rewrite length_reverse. simpl. lia. }
  split; [exact H|]. exact (shuffle_and_deal_overdraw reverse 4 16 H).
Defined.
End DeckMore.

(* ===================================================================== *)
(** * Further properties of a trick *)
(* ===================================================================== *)

Section TrickMore.
Import WizardRules WizardGame.

Lemma led_suit_after_snoc i led_suit cards card :
  led_suit_after i led_suit (cards ++ [card]) =
    led_suit_update (i + length cards) (led_suit_after i led_suit cards) card.
Proof.
  revert i led_suit. induction cards as [|c cards IH]; intros i led_suit; simpl.
  - by rewrite Nat.add_0_r.
  - rewrite IH. f_equal. lia.
Qed.

Lemma rotation_S leader n i :
  rotation leader n (S i) = rotation leader n i ++ [(leader + i) mod n].
Proof. unfold rotation. by rewrite seq_S, fmap_app. Qed.

Lemma rotation_lookup leader n i j p :
  rotation leader n i !! j = Some p -> j < i /\ p = (leader + j) mod n.
Proof.
  unfold rotation. rewrite list_lookup_fmap.
  destruct (seq 0 i !! j) as [k|] eqn:Hk; [|done].
  apply lookup_seq in Hk as [-> Hk]. simpl. by intros [= <-].
Qed.

(** An accepted play was one of the valid cards. *)
Lemma play_step_valid agents led_suit i g st g' led' :
  self_state g = Some st ->
  play_step agents led_suit i g = (g', Ok led') ->
  let n := self_num_players g in
  let p := (trick_leader st + i) mod n in
  exists hand card hand',
    hands st !! p = Some hand /\
    card ∈ get_valid_plays hand led_suit /\
    remove_first card hand = Ok hand' /\
    led' = led_suit_update i led_suit card /\
    g' = with_state g
           (set_current_trick (current_trick st ++ [(p, card)])
              (set_hands (<[p := hand']> (hands st)) st)).
Proof.
  intros Hst. unfold play_step, mbind, Prog_bind, get_state, get_self, lift,
    raise, index. rewrite Hst. simpl.
  case_decide as Hn; [done|].
  destruct (hands st !! _) as [hand|] eqn:Hhand; [|done].
  destruct (agents !! _) as [agent|] eqn:Hagent; [|done].
  case_decide as Hvalid; [done|].
  destruct (remove_first _ hand) as [hand'|e] eqn:Hrm; [|done].
  simpl. intros [= <- <-].
  eexists hand, _, hand'. repeat split; try done.
Qed.

Lemma play_step_log agents self st led_suit i g g' led' :
  i < self_num_players self ->
  trick_inv self st i g ->
  trick_log self st i led_suit g ->
  play_step agents led_suit i g = (g', Ok led') ->
  trick_log self st (S i) led' g'.
Proof.
  intros Hi (sti & -> & Hlen & Hhands & Htrick & Hseats & Hlead & _)
    (sti' & Heq & Hrot & Hled & Hlog) Hstep.
  assert (sti' = sti) as -> by (by injection Heq).
  apply (play_step_valid _ _ _ _ sti) in Hstep; [|done].
  simpl in Hstep. rewrite Hlead in Hstep.
  destruct Hstep as (hand & card & hand' & Hhand & Hcard & Hrm & -> & ->).
  set (n := self_num_players self) in *.
  set (q := (trick_leader st + i) mod n) in *.
  assert (Hfresh : ~ played (trick_leader st) n i q).
  { intros (j & Hj & Hjq). by eapply (rotation_inj (trick_leader st) n i j). }
  assert (Hq : hands st !! q = Some hand).
  { destruct (lookup_lt_is_Some_2 (hands st) q) as [h Hh].
    { rewrite <- Hlen. by eapply lookup_lt_Some. }
    destruct (Hhands q h Hh) as (h' & Hh' & _ & Hno).
    rewrite Hhand in Hh'. injection Hh' as <-. by rewrite (Hno Hfresh). }
  eexists. split; [apply with_state_twice|]. simpl.
  split; [by rewrite fmap_app, Hrot, rotation_S|].
  split.
  { rewrite fmap_app. simpl. rewrite led_suit_after_snoc, length_fmap, Htrick.
    by rewrite <- Hled. }
  intros j p c Hj. rewrite fmap_app.
  apply lookup_app_Some in Hj as [Hj|[Hge Hj]].
  - destruct (Hlog j p c Hj) as (h & h' & Hp & Hp' & Hrm' & Hv).
    assert (Hjlt : j < i) by (rewrite <- Htrick; by eapply lookup_lt_Some).
    assert (Hpq : p ≠ q).
    { assert (Hs : (current_trick sti).*1 !! j = Some p)
        by (by rewrite list_lookup_fmap, Hj).
      rewrite Hrot in Hs. apply rotation_lookup in Hs as [_ ->].
      by apply rotation_inj. }
    exists h, h'. split; [done|]. split.
    { by rewrite list_lookup_insert_ne. }
    split; [done|].
    rewrite take_app_le by (rewrite length_fmap; lia). done.
  - rewrite Htrick in Hge, Hj.
    destruct (j - i) as [|k] eqn:Hk; [|by destruct k].
    injection Hj as <- <-. assert (j = i) as -> by lia.
    exists hand, hand'. split; [done|]. split.
    { apply list_lookup_insert_eq. by eapply lookup_lt_Some. }
    split; [done|].
    rewrite take_app_length' by (by rewrite length_fmap).
    by rewrite <- Hled.
Qed.

Lemma trick_loop_log agents self st g led_suit :
  self_state self = Some st ->
  trick_loop agents self = (g, Ok led_suit) ->
  trick_inv self st (self_num_players self) g /\
  trick_log self st (self_num_players self) led_suit g.
Proof.
  intros Hst. unfold trick_loop, mbind, Prog_bind, get_state, get_self,
    put_state.
  rewrite Hst. simpl. fold (with_state self (set_current_trick [] st)).
  intros Hloop.
  apply (foldP_partial _ (fun i led g => i <= self_num_players self /\
                            trick_inv self st i g /\
                            trick_log self st i led g)) in Hloop.
  - rewrite length_seq in Hloop. apply Hloop.
  - split; [lia|]. split.
    + exists (set_current_trick [] st).
      split; [done|]. split; [done|]. split; [|by repeat split].
      intros p hand Hp. exists hand. split; [done|]. split; [|done].
      intros (j & Hj & _). lia.
    + exists (set_current_trick [] st). by repeat split.
  - intros i a g0 x a' g1 Hx (Hi & Hinv & Hlog) Hstep.
    apply lookup_seq in Hx as [-> Hx]. simpl in *.
    split; [lia|]. split; [by eapply play_step_inv|by eapply play_step_log].
Qed.

(** X6.  A trick that completes was played by the seats in rotation from
    the leader, one card each; every card was valid for the hand its seat
    held under the led suit the loop had at that moment and is the one card
    removed from that hand; the seat that [determine_trick_winner] names
    for the trick, under the loop's final led suit, leads the next trick. *)
Theorem play_trick_plays agents self st self' :
  self_state self = Some st ->
  _play_trick agents self = (self', Ok tt) ->
  exists st',
    self_state self' = Some st' /\
    (current_trick st').*1 =
      rotation (trick_leader st) (self_num_players self) (self_num_players self) /\
    (forall j p card, current_trick st' !! j = Some (p, card) ->
       exists hand hand',
         hands st !! p = Some hand /\
         hands st' !! p = Some hand' /\
         remove_first card hand = Ok hand' /\
         card ∈ get_valid_plays hand
                  (led_suit_after 0 None (take j (current_trick st').*2))) /\
    determine_trick_winner (current_trick st')
      (led_suit_after 0 None (current_trick st').*2) (trump_suit st)
      = Ok (trick_leader st').
Proof.
  intros Hst. unfold _play_trick.
  unfold mbind at 1, Prog_bind at 1.
  destruct (trick_loop agents self) as [g [led|e]] eqn:Hloop; [|done].
  apply (trick_loop_log _ _ st) in Hloop as [Hinv Hlog]; [|done].
  destruct Hinv as (sti & -> & _ & _ & _ & _ & _ & _ & _ & Htrump & _).
  destruct Hlog as (sti' & Heq & Hrot & -> & Hlog).
  assert (sti' = sti) as -> by (by injection Heq).
  unfold mbind, Prog_bind, get_state, lift. simpl.
  destruct (determine_trick_winner _ _ _) as [winner|e] eqn:Hw; [|done].
  unfold index. destruct (tricks_won sti !! winner) as [won|]; [|done].
  simpl. intros [= <-]. eexists. split; [done|]. simpl.
  split; [done|]. split; [done|]. by rewrite <- Htrump.
Qed.

Lemma play_trick_plays_witness :
  let agents := [first_card_agent 0; first_card_agent 0; first_card_agent 1] in
  exists st st',
    self_state jesters_first = Some st /\
    self_state (_play_trick agents jesters_first).1 = Some st' /\
    (current_trick st').*1 = [0; 1; 2] /\
    determine_trick_winner (current_trick st')
      (led_suit_after 0 None (current_trick st').*2) (trump_suit st)
      = Ok (trick_leader st').
Proof.
  intros agents.
  assert (Hrun : exists self',
             _play_trick agents jesters_first = (self', Ok tt)).
  { eexists. vm_compute. reflexivity. }
  destruct Hrun as [self' Hrun].
  destruct (play_trick_plays agents jesters_first _ self' eq_refl Hrun)
    as (st' & Hst' & Hrot & _ & Hw).
  eexists _, st'. split; [reflexivity|].
  rewrite Hrun. split; [exact Hst'|]. split; [exact Hrot|exact Hw].
Defined.
End TrickMore.

(* ===================================================================== *)
(** * Scoring, rounds and the full game *)
(* ===================================================================== *)

Section GameMore.
Import WizardRules WizardGame.

Lemma score_step_scored self i g g' :
  scored self i g ->
  score_step i g = (g', Ok tt) ->
  scored self (S i) g'.
Proof.
  intros (Hst & Hn & Ht & Hlen & Hrest & Hdone).
  unfold score_step, mbind, Prog_bind, lift, index, get_state, get_self,
    raise, put_scores.
  destruct (self_state g) as [st|] eqn:Hsg; [|done].
  destruct (bids st !! i) as [[b|]|] eqn:Hb; try done;
    destruct (tricks_won st !! i) as [won|] eqn:Hw; try done; simpl.
  destruct (self_scores g !! i) as [old|] eqn:Ho; [|done]. simpl.
  intros [= <-]. unfold scored. simpl.
  split; [congruence|]. split; [done|]. split; [done|].
  split; [by rewrite length_insert|]. split.
  - intros p Hp. rewrite list_lookup_insert_ne by lia. apply Hrest. lia.
  - intros p Hp. destruct (decide (p = i)) as [->|Hne].
    + exists st, b, won, old. split; [congruence|]. split; [done|].
      split; [done|]. split; [by rewrite <- Hrest|].
      apply list_lookup_insert_eq. by eapply lookup_lt_Some.
    + rewrite list_lookup_insert_ne by done. apply Hdone. lia.
Qed.

Lemma scored_0 self : scored self 0 self.
Proof. repeat split; try done. intros p Hp. lia. Qed.

Lemma score_round_scored self self' :
  _score_round self = (self', Ok tt) ->
  scored self (self_num_players self) self'.
Proof.
  unfold _score_round, mbind, Prog_bind, get_self, for_each. intros Hrun.
  apply (foldP_partial _ (fun i _ g => scored self i g)) in Hrun.
  - by rewrite length_seq in Hrun.
  - apply scored_0.
  - intros i [] g p [] g' Hp Hinv Hstep.
    apply lookup_seq in Hp as [-> Hp]. simpl in *.
    by eapply score_step_scored.
Qed.

(** X7.  When [_score_round] returns, every seat had a bid, and its score
    has grown by [score_round] of its bid and its tricks; the scores list
    keeps its length and [self.state] is untouched. *)
Theorem score_round_effect self self' :
  _score_round self = (self', Ok tt) ->
  self_state self' = self_state self /\
  length (self_scores self') = length (self_scores self) /\
  (forall p, self_num_players self <= p ->
     self_scores self' !! p = self_scores self !! p) /\
  (forall p, p < self_num_players self ->
     exists st b won old,
       self_state self = Some st /\
       bids st !! p = Some (Some b) /\
       tricks_won st !! p = Some won /\
       self_scores self !! p = Some old /\
       self_scores self' !! p = Some (old + score_round b won)%Z).
Proof.
  intros Hrun. apply score_round_scored in Hrun.
  destruct Hrun as (Hst & _ & _ & Hlen & Hrest & Hdone). done.
Qed.

Lemma score_round_effect_witness :
  let g := (_play_trick [first_card_agent 0; first_card_agent 0;
                         first_card_agent 1] jesters_first).1 in
  exists self',
    _score_round g = (self', Ok tt) /\
    self_state self' = self_state g /\
    length (self_scores self') = length (self_scores g).
Proof.
  intros g.
  assert (Hrun : exists self', _score_round g = (self', Ok tt)).
  { eexists. vm_compute. reflexivity. }
  destruct Hrun as [self' Hrun].
  destruct (score_round_effect g self' Hrun) as (Hst & Hlen & _).
  exists self'. split; [exact Hrun|]. split; [exact Hst|exact Hlen].
Defined.

(** X8.  [_score_round] on a state in which seat [p] is the first without
    a bid raises [TypeError]; by then the seats before [p] have their
    score of the round added, and these additions stay. *)
Theorem score_round_unset_bid self st p :
  self_state self = Some st ->
  p < self_num_players self ->
  bids st !! p = Some None ->
  (forall q, q < p -> exists b, bids st !! q = Some (Some b)) ->
  self_num_players self <= length (tricks_won st) ->
  self_num_players self <= length (self_scores self) ->
  exists self',
    _score_round self = (self', Raise TypeError) /\
    self_state self' = Some st /\
    (forall q, p <= q -> self_scores self' !! q = self_scores self !! q) /\
    (forall q, q < p ->
       exists b won old,
         bids st !! q = Some (Some b) /\
         tricks_won st !! q = Some won /\
         self_scores self !! q = Some old /\
         self_scores self' !! q = Some (old + score_round b won)%Z).
Proof.
  intros Hst Hp Hnone Hbefore Hwon Hscores.
  unfold _score_round, mbind, Prog_bind, get_self, for_each.
  replace (seq 0 (self_num_players self))
    with (seq 0 p ++ seq p (self_num_players self - p))
    by (rewrite <- seq_app; f_equal; lia).
  rewrite foldP_app.
  destruct (foldP_total (fun _ x => score_step x)
              (fun i _ g => scored self i g) (seq 0 p) tt self)
    as ([] & g & Hrun & Hinv).
  - apply scored_0.
  - intros i [] g x Hx Hinv. apply lookup_seq in Hx as [-> Hx]. simpl in *.
    assert (Hstep : exists g', score_step i g = (g', Ok tt)).
    { destruct Hinv as (Hsg & _ & _ & Hlen & _).
      unfold score_step, mbind, Prog_bind, lift, index, get_state, get_self,
        raise, put_scores. rewrite Hsg, Hst.
      destruct (Hbefore i Hx) as [b ->].
      destruct (lookup_lt_is_Some_2 (tricks_won st) i) as [won ->]; [lia|].
      simpl.
      destruct (lookup_lt_is_Some_2 (self_scores g) i) as [old ->]; [lia|].
      simpl. by eexists. }
    destruct Hstep as [g' Hstep]. exists tt, g'. split; [done|].
    by eapply score_step_scored.
  - rewrite Hrun. rewrite length_seq in Hinv.
    destruct Hinv as (Hsg & _ & _ & _ & Hrest & Hdone).
    destruct (self_num_players self - p) as [|m] eqn:Hm; [lia|].
    exists g. split.
    + simpl. unfold mbind, Prog_bind, score_step at 1, mbind, Prog_bind,
        lift, index, get_state, raise. rewrite Hsg, Hst, Hnone.
      destruct (lookup_lt_is_Some_2 (tricks_won st) p) as [won ->]; [lia|].
      done.
    + split; [congruence|]. split; [done|].
      intros q Hq. destruct (Hdone q Hq) as (st' & b & won & old & Hst' & H).
      rewrite Hst in Hst'. injection Hst' as <-. by exists b, won, old.
Qed.

Lemma score_round_unset_bid_witness :
  exists self',
    _score_round (mkWizardGame 3 20 [0; 0; 0]%Z
                    (Some (set_bids [Some 0%Z; None; Some 1%Z] last_round_start)))
      = (self', Raise TypeError) /\
    self_scores self' !! 0 = Some 20%Z.
Proof.
  set (st := set_bids [Some 0%Z; None; Some 1%Z] last_round_start).
  set (self := mkWizardGame 3 20 [0; 0; 0]%Z (Some st)).
  assert (Hb : forall q, q < 1 -> exists b, bids st !! q = Some (Some b)).
  { intros q Hq. assert (q = 0) as -> by lia. by exists 0%Z. }
  assert (H3 : 3 <= 3) by lia.
  destruct (score_round_unset_bid self st 1 eq_refl ltac:(simpl; lia) eq_refl
              Hb H3 H3) as (self' & Hrun & _ & _ & Hdone).
  exists self'. split; [exact Hrun|].
  destruct (Hdone 0 ltac:(lia)) as (b & won & old & Hb0 & Hw0 & Ho0 & Hs0).
  rewrite Hs0. f_equal.
  vm_compute in Hb0. vm_compute in Hw0. vm_compute in Ho0.
  injection Hb0 as <-. injection Hw0 as <-. injection Ho0 as <-. reflexivity.
Defined.

Lemma bidding_phase_length agents self st self' :
  self_state self = Some st ->
  _bidding_phase agents self = (self', Ok tt) ->
  exists b, self' = with_state self (set_bids b st) /\
            length b = length (bids st).
Proof.
  intros Hst. unfold _bidding_phase, mbind, Prog_bind, get_self, for_each.
  intros Hrun.
  apply (foldP_partial _ (fun _ _ g =>
           exists b, g = with_state self (set_bids b st) /\
                     length b = length (bids st))) in Hrun; [done| |].
  - exists (bids st). by rewrite set_bids_id, with_state_id.
  - intros _ [] g p [] g' _ (b & -> & Hb).
    unfold bid_step, mbind, Prog_bind, lift, index, get_state, raise. simpl.
    destruct (agents !! p); [|done].
    destruct (hands st !! p); [|done]. simpl.
    destruct (negb _); [done|]. unfold store.
    case_decide; [|done]. simpl. intros [= <-]. eexists. split; [done|].
    by rewrite length_insert.
Qed.

(** A trick leaves alone what the round fixed at its start. *)
Lemma play_trick_frame agents self st self' :
  self_state self = Some st ->
  _play_trick agents self = (self', Ok tt) ->
  exists st',
    self' = with_state self st' /\
    scores st' = scores st /\
    trump_card st' = trump_card st /\
    num_players st' = num_players st.
Proof.
  intros Hst. unfold _play_trick.
  unfold mbind at 1, Prog_bind at 1.
  destruct (trick_loop agents self) as [g [led|e]] eqn:Hloop; [|done].
  assert (Hg : exists sti, g = with_state self sti /\
                 scores sti = scores st /\
                 trump_card sti = trump_card st /\
                 num_players sti = num_players st).
  { revert Hloop. unfold trick_loop, mbind, Prog_bind, get_state, get_self,
      put_state. rewrite Hst. simpl.
    fold (with_state self (set_current_trick [] st)). intros Hloop.
    apply (foldP_partial _ (fun _ _ g =>
             exists sti, g = with_state self sti /\
               scores sti = scores st /\
               trump_card sti = trump_card st /\
               num_players sti = num_players st)) in Hloop; [done| |].
    - by exists (set_current_trick [] st).
    - intros i a g0 x a' g1 _ (sti & -> & H1 & H2 & H3) Hstep.
      apply (play_step_ok _ _ _ _ sti) in Hstep; [|done].
      destruct Hstep as (_ & hand & card & hand' & _ & _ & _ & _ & ->).
      eexists. split; [apply with_state_twice|]. done. }
  destruct Hg as (sti & -> & H1 & H2 & H3).
  unfold mbind, Prog_bind, get_state, lift. simpl.
  destruct (determine_trick_winner _ _ _) as [winner|e]; [|done].
  unfold index. destruct (tricks_won sti !! winner) as [won|]; [|done].
  simpl. intros [= <-]. eexists. split; [done|]. done.
Qed.

(** State of the round after [k] tricks, for the scoring. *)
Lemma play_round_scored shuffle r agents self self' :
  _play_round shuffle r agents self = (self', Ok tt) ->
  exists st,
    scored (with_state self st) (self_num_players self) self' /\
    round_num st = r /\
    scores st = self_scores self /\
    length (bids st) = self_num_players self /\
    length (tricks_won st) = self_num_players self /\
    sumZ (tricks_won st) = Z.of_nat r.
Proof.
  unfold _play_round.
  unfold mbind at 1 2 3 4 5, Prog_bind at 1 2 3 4 5, get_self, lift.
  destruct (Deck.shuffle_and_deal _ _ _) as [[[hs trump] rest]|e] eqn:Hdeal;
    [|done].
  apply shuffle_and_deal_lengths in Hdeal as [Hn Hall].
  unfold put_state at 1.
  set (st0 := {| num_players := _ |}). fold (with_state self st0).
  destruct (_bidding_phase _ _) as [g1 [[]|e]] eqn:Hbid; [|done].
  apply (bidding_phase_length _ _ st0) in Hbid as (b & -> & Hb); [|done].
  rewrite with_state_twice.
  destruct (for_each _ _ _) as [g2 [[]|e]] eqn:Htricks; [|done].
  unfold for_each in Htricks.
  apply (foldP_partial _ (fun k _ g =>
           round_inv self r k g /\
           exists st, g = with_state self st /\
             bids st = b /\
             length (tricks_won st) = self_num_players self /\
             scores st = self_scores self /\
             round_num st = r)) in Htricks.
  - rewrite length_seq in Htricks.
    destruct Htricks as [(st & -> & _ & _ & Hsum) (st' & Heq & Hb' & Hw & Hs & Hr)].
    assert (st' = st) as -> by (by injection Heq).
    intros Hscore. apply score_round_scored in Hscore.
    exists st. split; [done|]. subst b. repeat split; try done.
    rewrite Hb. apply length_replicate.
  - split.
    + exists (set_bids b st0). split; [done|]. simpl.
      split; [done|]. split.
      * eapply Forall_impl; [exact Hall|]. intros hand. simpl. lia.
      * apply sumZ_replicate.
    + eexists. split; [done|]. simpl. by rewrite length_replicate.
  - intros k [] g x [] g' _ [Hinv (st & -> & Hb' & Hw & Hs & Hr)] Htrick.
    split; [by eapply play_trick_round_inv|].
    destruct Hinv as (st1 & Heq & Hlen & _).
    assert (st1 = st) as -> by (by injection Heq).
    pose proof Htrick as Hframe.
    apply (play_trick_frame _ _ st) in Hframe as (st' & -> & Hs' & _);
      [|done].
    apply (play_trick_effect _ _ st) in Htrick; [|done..].
    destruct Htrick as (st'' & winner & won & Heq' & _ & _ & _ & Hwon' & _
                        & Hbids' & Hround').
    assert (st'' = st') as -> by (by injection Heq').
    exists st'. split; [apply with_state_twice|].
    split; [congruence|]. split; [by rewrite Hwon', length_insert|].
    split; congruence.
Qed.

Lemma sumZ_differ (l1 l2 : list Z) :
  length l1 = length l2 -> sumZ l1 ≠ sumZ l2 ->
  exists p x y, l1 !! p = Some x /\ l2 !! p = Some y /\ x ≠ y.
Proof.
  revert l2. induction l1 as [|x l1 IH]; intros [|y l2] Hlen Hsum;
    simpl in *; try done.
  destruct (decide (x = y)) as [->|Hne].
  - destruct (IH l2) as (p & a & b & H1 & H2 & H3); [lia|lia|].
    by exists (S p), a, b.
  - by exists 0, x, y.
Qed.

(** X9.  When [_play_round] returns, the tricks won add up to [round_num],
    every seat has a bid, and its score has grown by [score_round] of its
    bid and its tricks, while [state.scores] still holds the scores from
    before the round.  If the bids do not add up to [round_num], the score
    of some seat has dropped. *)
Theorem play_round_outcome shuffle round_num agents self self' :
  _play_round shuffle round_num agents self = (self', Ok tt) ->
  exists st,
    self_state self' = Some st /\
    scores st = self_scores self /\
    sumZ (tricks_won st) = Z.of_nat round_num /\
    (forall p, p < self_num_players self ->
       exists b won old,
         bids st !! p = Some (Some b) /\
         tricks_won st !! p = Some won /\
         self_scores self !! p = Some old /\
         self_scores self' !! p = Some (old + score_round b won)%Z) /\
    (sumZ (default 0%Z <$> bids st) ≠ Z.of_nat round_num ->
     exists p old new,
       self_scores self !! p = Some old /\
       self_scores self' !! p = Some new /\
       (new < old)%Z).
Proof.
  intros Hround. apply play_round_scored in Hround.
  destruct Hround as (st & (Hst & _ & _ & _ & _ & Hdone) & _ & Hs & Hb & Hw
                      & Hsum).
  simpl in *.
  assert (Hseat : forall p, p < self_num_players self ->
            exists b won old,
              bids st !! p = Some (Some b) /\
              tricks_won st !! p = Some won /\
              self_scores self !! p = Some old /\
              self_scores self' !! p = Some (old + score_round b won)%Z).
  { intros p Hp. destruct (Hdone p Hp) as (st' & b & won & old & Hst' & H).
    injection Hst' as <-. by exists b, won, old. }
  exists st. split; [done|]. split; [done|]. split; [done|]. split; [done|].
  intros Hmiss. rewrite <- Hsum in Hmiss.
  apply sumZ_differ in Hmiss as (p & x & y & Hx & Hy & Hxy);
    [|by rewrite length_fmap, Hb, Hw].
  assert (Hp : p < self_num_players self).
  { rewrite <- Hw. by eapply lookup_lt_Some. }
  destruct (Hseat p Hp) as (b & won & old & Hb' & Hw' & Ho & Hn).
  rewrite list_lookup_fmap, Hb' in Hx. injection Hx as <-.
  rewrite Hw' in Hy. injection Hy as <-.
  exists p, old, (old + score_round b won)%Z. split; [done|]. split; [done|].
  unfold score_round. rewrite decide_False by done. lia.
Qed.

Lemma play_round_outcome_witness :
  let agents := [first_card_agent 0; first_card_agent 1; first_card_agent 0] in
  let self := mkWizardGame 3 20 [0; 0; 0]%Z None in
  exists self' st,
    _play_round (fun deck => deck) 2 agents self = (self', Ok tt) /\
    self_state self' = Some st /\
    scores st = [0; 0; 0]%Z /\
    sumZ (tricks_won st) = 2%Z.
Proof.
  intros agents self.
  assert (Hrun : exists self',
             _play_round (fun deck => deck) 2 agents self = (self', Ok tt)).
  { eexists. vm_compute. reflexivity. }
  destruct Hrun as [self' Hrun].
  destruct (play_round_outcome _ _ _ _ _ Hrun) as (st & Hst & Hs & Hsum & _).
  exists self', st.
  split; [exact Hrun|]. split; [exact Hst|]. split; [exact Hs|exact Hsum].
Defined.

Lemma score_round_divide b won : (10 | score_round b won)%Z.
Proof.
  unfold score_round. case_decide.
  - exists (2 + b)%Z. lia.
  - exists (- Z.abs (b - won))%Z. lia.
Qed.

(** X10.  A game set up by [__init__] and played by as many agents as
    seats, each keeping the contract of the policy interface, with shuffles
    that keep the deck's size, runs through all its rounds without an
    exception; [play_full_game] returns [self.scores], one score per seat,
    each a multiple of 10. *)
Theorem play_full_game_completes shuffles agents n self :
  __init__ n = Ok self ->
  length agents = n ->
  Forall lawful_agent agents ->
  (forall r deck, length (shuffles r deck) = length deck) ->
  exists self' final,
    play_full_game shuffles agents self = (self', inr final) /\
    final = self_scores self' /\
    length final = n /\
    Forall (fun s => (10 | s)%Z) final.
Proof.
  unfold __init__. case_decide as Hn; [done|]. intros [= <-] Hagents Hlaw Hshuf.
  unfold play_full_game. simpl. rewrite decide_True by done.
  set (self := mkWizardGame n (60 / n) (replicate n 0%Z) None).
  destruct (foldP_total
              (fun _ r => _play_round (shuffles r) r agents)
              (fun k _ g =>
                 self_num_players g = n /\
                 length (self_scores g) = n /\
                 Forall (fun s => (10 | s)%Z) (self_scores g))
              (seq 1 (60 / n)) tt self) as ([] & g & Hrun & _ & Hlen & Hdiv).
  - simpl. rewrite length_replicate. split; [done|]. split; [done|].
    apply Forall_replicate. exists 0%Z. lia.
  - intros k [] g r Hr (Hg & Hlen & Hdiv).
    apply lookup_seq in Hr as [-> Hk]. simpl in Hk.
    destruct (play_round_completes (shuffles (1 + k)) (1 + k) agents g)
      as [g' Hround]; try done; try lia.
    { rewrite Hshuf, Hg.
      change (length Deck.create_standard_deck) with 60.
      pose proof (Nat.div_mod_eq 60 n). nia. }
    exists tt, g'. split; [done|].
    apply play_round_scored in Hround
      as (st & (_ & Hn' & _ & Hlen' & _ & Hdone) & _).
    simpl in *. split; [lia|]. split; [lia|].
    apply Forall_lookup. intros p s Hs.
    assert (Hp : p < self_num_players g).
    { rewrite Hg, <- Hlen, <- Hlen'. by eapply lookup_lt_Some. }
    destruct (Hdone p Hp) as (_ & b & won & old & _ & _ & _ & Ho & Hs').
    rewrite Hs in Hs'. injection Hs' as ->.
    apply Z.divide_add_r; [|apply score_round_divide].
    exact (proj1 (Forall_lookup _ _) Hdiv p old Ho).
  - unfold for_each. rewrite Hrun. by exists g, (self_scores g).
Qed.

Lemma play_full_game_completes_witness :
  let agents := [first_card_agent 0; first_card_agent 0; first_card_agent 0] in
  exists self self' final,
    __init__ 3 = Ok self /\
    play_full_game (fun _ deck => deck) agents self = (self', inr final) /\
    length final = 3 /\
    Forall (fun s => (10 | s)%Z) final.
Proof.
  intros agents.
  assert (Hlaw : Forall lawful_agent agents).
  { assert (H0 : lawful_agent (first_card_agent 0)).
    { split.
      - intros hand t r p sofar. unfold bid_in_range. simpl. lia.
      - intros hand [|c valid_cards] t ts l p st Hne; [done|]. simpl. left. }
    repeat apply Forall_cons_2; [exact H0..|apply Forall_nil_2]. }
  destruct (play_full_game_completes (fun _ deck => deck) agents 3 _ eq_refl
              eq_refl Hlaw (fun _ _ => eq_refl))
    as (self' & final & Hrun & _ & Hlen & Hdiv).
  eexists _, self', final. split; [reflexivity|].
  split; [exact Hrun|]. split; [exact Hlen|exact Hdiv].
Defined.

(** X11.  The rounds of a game set up by [__init__] use up the deck
    exactly: the deal of the last round, [total_rounds], hands out every
    card of the shuffled deck, so that round has no trump card and no
    card is left over. *)
Theorem last_round_deals_whole_deck shuffle n self :
  __init__ n = Ok self ->
  length (shuffle Deck.create_standard_deck) = 60 ->
  exists hands,
    Deck.shuffle_and_deal shuffle n (self_total_rounds self)
      = Ok (hands, None, []) /\
    concat hands ≡ₚ shuffle Deck.create_standard_deck.
Proof.
  unfold __init__. case_decide as Hn; [done|]. intros [= <-] Hlen. simpl.
  assert (Hall : 60 / n * n = 60).
  { assert (Hc : n = 3 \/ n = 4 \/ n = 5 \/ n = 6) by lia.
    destruct Hc as [-> | [-> | [-> | ->]]]; reflexivity. }
  destruct (deal_loop_total (shuffle Deck.create_standard_deck) n (60 / n))
    as (hands & Hdeal & _ & _ & Hperm); [lia|].
  exists hands. unfold Deck.shuffle_and_deal. rewrite Hdeal. simpl.
  rewrite Hall in *. split.
  - rewrite lookup_ge_None_2 by lia. by rewrite drop_ge by lia.
  - by rewrite Hperm, take_ge by lia.
Qed.

Lemma last_round_deals_whole_deck_witness :
  exists self hands,
    __init__ 4 = Ok self /\
    Deck.shuffle_and_deal reverse 4 (self_total_rounds self)
      = Ok (hands, None, []).
Proof.
  destruct (last_round_deals_whole_deck reverse 4 _ eq_refl eq_refl)
    as (hands & Hdeal & _).
  eexists _, hands. split; [reflexivity|exact Hdeal].
Defined.
End GameMore.

(* ===================================================================== *)
(** * Further properties of the determinization *)
(* ===================================================================== *)

Section DeterminizeMore.
Import MCTSAgent.

Lemma known_cards_hands_mono (my_hand : list Card) (hs : list (list Card))
    (known : gset Card) c :
  c ∈ known ->
  c ∈ foldl (fun (known : gset Card) hand =>
               if decide (hand ≠ my_hand) then known ∪ list_to_set hand
               else known) known hs.
Proof.
  revert known. induction hs as [|h hs IH]; intros known Hc; simpl; [done|].
  apply IH. case_decide; [|done]. apply elem_of_union. by left.
Qed.

Lemma known_cards_hands (my_hand : list Card) (hs : list (list Card))
    (known : gset Card) h c :
  h ∈ hs -> h ≠ my_hand -> c ∈ h ->
  c ∈ foldl (fun (known : gset Card) hand =>
               if decide (hand ≠ my_hand) then known ∪ list_to_set hand
               else known) known hs.
Proof.
  revert known. induction hs as [|h' hs IH]; intros known Hh Hne Hc; simpl.
  - by apply elem_of_nil in Hh.
  - apply elem_of_cons in Hh as [<-|Hh]; [|by apply IH].
    apply known_cards_hands_mono. rewrite decide_True by done.
    apply elem_of_union. right. by apply elem_of_list_to_set.
Qed.

Lemma known_cards_trick_mono (trick : list (nat * Card)) (known : gset Card) c :
  c ∈ known ->
  c ∈ foldl (fun (known : gset Card) pc => known ∪ {[ pc.2 ]}) known trick.
Proof.
  revert known. induction trick as [|pc trick IH]; intros known Hc; simpl;
    [done|].
  apply IH, elem_of_union. by left.
Qed.

Lemma known_cards_trick (trick : list (nat * Card)) (known : gset Card) c :
  c ∈ trick.*2 ->
  c ∈ foldl (fun (known : gset Card) pc => known ∪ {[ pc.2 ]}) known trick.
Proof.
  revert known. induction trick as [|pc trick IH]; intros known Hc; simpl in *.
  - by apply elem_of_nil in Hc.
  - apply elem_of_cons in Hc as [->|Hc]; [|by apply IH].
    apply known_cards_trick_mono, elem_of_union. right.
    by apply elem_of_singleton.
Qed.

(** Every card that is in a hand, in the current trick or is the trump card
    is known. *)
Lemma known_cards_complete st my_hand c :
  c ∈ my_hand \/ (exists h, h ∈ hands st /\ c ∈ h) \/
  c ∈ (current_trick st).*2 \/ trump_card st = Some c ->
  c ∈ known_cards st my_hand.
Proof.
  intros Hc. unfold known_cards.
  assert (H1 : c ∈ my_hand \/ (exists h, h ∈ hands st /\ c ∈ h) ->
               c ∈ foldl (fun (known : gset Card) hand =>
                            if decide (hand ≠ my_hand)
                            then known ∪ list_to_set hand else known)
                         (list_to_set my_hand) (hands st)).
  { intros [Hmy|(h & Hh & Hch)].
    - by apply known_cards_hands_mono, elem_of_list_to_set.
    - destruct (decide (h = my_hand)) as [->|Hne].
      + by apply known_cards_hands_mono, elem_of_list_to_set.
      + by eapply known_cards_hands. }
  assert (H2 : c ∈ my_hand \/ (exists h, h ∈ hands st /\ c ∈ h) \/
               c ∈ (current_trick st).*2 ->
               c ∈ foldl (fun (known : gset Card) pc => known ∪ {[ pc.2 ]})
                     (foldl (fun (known : gset Card) hand =>
                               if decide (hand ≠ my_hand)
                               then known ∪ list_to_set hand else known)
                            (list_to_set my_hand) (hands st))
                     (current_trick st)).
  { intros [Hmy|[Hh|Ht]].
    - apply known_cards_trick_mono, H1. by left.
    - apply known_cards_trick_mono, H1. by right.
    - by apply known_cards_trick. }
  destruct (trump_card st) as [t|] eqn:Ht.
  - apply elem_of_union.
    destruct Hc as [Hc|[Hc|[Hc|Hc]]].
    + left. apply H2. by left.
    + left. apply H2. right. by left.
    + left. apply H2. right. by right.
    + right. injection Hc as ->. by apply elem_of_singleton.
  - apply H2. destruct Hc as [Hc|[Hc|[Hc|Hc]]]; [by left| |by right; right|done].
    right. by left.
Qed.

(** X12.  With a shuffle that returns only cards it was given, the state
    that [_determinize_state] returns differs from [state] in the hands
    only; the deciding seat keeps its hand; every other seat gets at most
    as many cards as it holds, and each of them is a card of the deck that
    is in no hand of [state], not in the current trick and not the trump
    card. *)
Theorem determinize_avoids_known shuffle st p det :
  (forall l c, c ∈ shuffle l -> c ∈ l) ->
  _determinize_state shuffle st p = Ok det ->
  det = set_hands (hands det) st /\
  hands det !! p = hands st !! p /\
  length (hands det) = length (hands st) /\
  forall i hand, i < num_players st -> i ≠ p -> hands det !! i = Some hand ->
    (exists true_hand,
       hands st !! i = Some true_hand /\ length hand <= length true_hand) /\
    (forall c, c ∈ hand ->
       c ∈ Deck.create_standard_deck /\
       (forall h, h ∈ hands st -> c ∉ h) /\
       (c ∉ (current_trick st).*2) /\
       trump_card st ≠ Some c).
Proof.
  intros Hshuf Hdet.
  destruct (determinize_keeps_own_hand _ _ _ _ Hdet) as [Hown _].
  revert Hdet. unfold _determinize_state, mbind, result_bind, index.
  destruct (hands st !! p) as [my_hand|] eqn:Hmy; [|done].
  set (unknown := shuffle _).
  destruct (foldR _ _ _) as [[det_hands idx]|e] eqn:Hrun; [|done].
  intros [= <-]. simpl in *. split; [by destruct st|]. split; [done|].
  assert (Hunknown : forall c, c ∈ unknown ->
            c ∈ Deck.create_standard_deck /\ c ∉ known_cards st my_hand).
  { intros c Hc. apply Hshuf, list_elem_of_filter in Hc. tauto. }
  apply (foldR_partial _ (fun k (acc : list (list Card) * nat) =>
           length acc.1 = length (hands st) /\
           forall i hand, i < k -> i ≠ p -> acc.1 !! i = Some hand ->
             (exists true_hand, hands st !! i = Some true_hand /\
                                length hand <= length true_hand) /\
             (forall c, c ∈ hand -> c ∈ unknown))) in Hrun.
  - rewrite length_seq in Hrun. simpl in Hrun. destruct Hrun as [Hlen Hall].
    split; [done|]. intros i hand Hi Hip Hhand.
    destruct (Hall i hand Hi Hip Hhand) as [Htrue Hcards].
    split; [done|]. intros c Hc.
    destruct (Hunknown c (Hcards c Hc)) as [Hdeck Hnew].
    split; [done|].
    split; [|split].
    + intros h Hh Hch. apply Hnew, known_cards_complete. right. left.
      by exists h.
    + intros Ht. apply Hnew, known_cards_complete. right. right. by left.
    + intros Ht. apply Hnew, known_cards_complete. right. right. by right.
  - simpl. split; [done|]. intros i hand Hi. lia.
  - intros k [hs j] x [hs' j'] Hx [Hlen Hall]. simpl in *.
    apply lookup_seq in Hx as [-> Hx]. simpl.
    unfold redistribute, mbind, result_bind, index, store.
    case_decide as Hkp.
    2:{ intros [= <- <-]. split; [done|]. intros i hand Hi Hip.
        apply Hall; [|done]. destruct (decide (i = k)); [congruence|lia]. }
    destruct (hands st !! k) as [true_hand|] eqn:Hk; [|done].
    case_decide as Hlt; [|done]. intros [= <- <-].
    split; [by rewrite length_insert|].
    intros i hand Hi Hip. destruct (decide (i = k)) as [->|Hik].
    + rewrite list_lookup_insert_eq by done. intros [= <-]. split.
      * exists true_hand. split; [done|]. rewrite length_take. lia.
      * intros c Hc. apply elem_of_take in Hc as (m & Hm & _).
        rewrite lookup_drop in Hm. by eapply list_elem_of_lookup_2.
    + rewrite list_lookup_insert_ne by done. apply Hall; [lia|done].
Qed.

Lemma determinize_avoids_known_witness :
  exists det,
    _determinize_state reverse hearts_led 1 = Ok det /\
    hands det !! 1 = hands hearts_led !! 1 /\
    length (hands det) = 3.
Proof.
  assert (Hrev : forall (l : list Card) c, c ∈ reverse l -> c ∈ l).
  { intros l c. by rewrite elem_of_reverse. }
  assert (Hrun : exists det, _determinize_state reverse hearts_led 1 = Ok det).
  { eexists. vm_compute. reflexivity. }
  destruct Hrun as [det Hrun].
  destruct (determinize_avoids_known reverse hearts_led 1 det Hrev Hrun)
    as (_ & Hown & Hlen & _).
  exists det. split; [exact Hrun|]. split; [exact Hown|exact Hlen].
Defined.
End DeterminizeMore.

(* ===================================================================== *)
(** * Further properties of the search *)
(* ===================================================================== *)

Section SearchMore.
Import MCTSAgent.
Context {F : Type}.
Variable of_int : Z -> F.
Variables fadd fmul fdiv : F -> F -> F.
Variables fsqrt flog : F -> F.
Variable finf : F.
Variable fltb : F -> F -> bool.

Abbreviation search_tree :=
  (MCTSAgent.search_tree of_int fadd fmul fdiv fsqrt flog finf fltb).
Abbreviation simulation :=
  (MCTSAgent.simulation of_int fadd fmul fdiv fsqrt flog finf fltb).
Abbreviation select_loop :=
  (MCTSAgent.select_loop of_int fadd fmul fdiv fsqrt flog finf fltb).
Abbreviation _mcts_search :=
  (MCTSAgent._mcts_search of_int fadd fmul fdiv fsqrt flog finf fltb).

Implicit Types heap : list (MCTSNode F).
Implicit Types node : MCTSNode F.

Lemma copy_id st : copy st = st.
Proof. by destruct st. Qed.

(** X13.  [_apply_action] on an existing seat never raises and changes
    nothing but that seat's hand: a card of the hand is removed once, a
    card that is not in the hand leaves the state as it is.  Neither the
    current trick, the tricks won nor the bids record the play.  On a seat
    that does not exist it raises [IndexError]. *)
Theorem apply_action_effect st card p :
  match hands st !! p with
  | None => _apply_action st card p = Raise IndexError
  | Some hand =>
      exists hand',
        _apply_action st card p
          = Ok (set_hands (<[p := hand']> (hands st)) st) /\
        (card ∈ hand -> remove_first card hand = Ok hand' /\
                        length hand = S (length hand')) /\
        (card ∉ hand -> hand' = hand /\ _apply_action st card p = Ok st)
  end.
Proof.
  unfold _apply_action, mbind, result_bind, index.
  destruct (hands st !! p) as [hand|] eqn:Hp; [|done].
  case_decide as Hin.
  - destruct (remove_first_elem card hand Hin) as [hand' Hrm]. rewrite Hrm.
    exists hand'. split; [done|]. split; [|done].
    intros _. split; [done|]. by eapply remove_first_length.
  - exists hand. rewrite list_insert_id by done. split; [by destruct st|].
    split; done.
Qed.

Lemma apply_action_standing st card p st' :
  _apply_action st card p = Ok st' ->
  same_standing st st' /\
  (forall hand, hands st !! p = Some hand -> is_Some (hands st' !! p)).
Proof.
  unfold _apply_action, mbind, result_bind, index.
  destruct (hands st !! p) as [hand|] eqn:Hp; [|done].
  case_decide as Hin.
  - destruct (remove_first card hand) as [hand'|]; [|done].
    intros [= <-]. split; [done|]. intros h _. simpl.
    rewrite list_lookup_insert_eq by (by eapply lookup_lt_Some). by eexists.
  - intros [= <-]. split; [done|]. intros h _. by eexists.
Qed.

Lemma same_standing_trans s1 s2 s3 :
  same_standing s1 s2 -> same_standing s2 s3 -> same_standing s1 s3.
Proof. intros [? ?] [? ?]. split; congruence. Qed.

Lemma apply_node_action_standing heap id sim sim' :
  apply_node_action heap id sim = Ok sim' -> same_standing sim sim'.
Proof.
  unfold apply_node_action, mbind, result_bind.
  destruct (deref heap id) as [n|]; [|done].
  destruct (action n); [|by intros [= <-]].
  intros H. by apply apply_action_standing in H as [? _].
Qed.

Lemma select_loop_standing fuel c heap id sim id' sim' :
  select_loop fuel c heap id sim = Ok (id', sim') -> same_standing sim sim'.
Proof.
  revert id sim. induction fuel as [|fuel IH]; intros id sim; simpl;
    unfold mbind at 1, result_bind at 1;
    (destruct (deref heap id) as [n|]; [|done]);
    (destruct (negb (is_terminal n) && is_fully_expanded n);
       [|by intros [= <- <-]]); [done|].
  unfold mbind at 1, result_bind at 1.
  destruct (_select_child _ _ _ _ _ _ _ _ _ _ _) as [cid|]; [|done].
  unfold mbind at 1, result_bind at 1.
  destruct (apply_node_action heap cid sim) as [sim1|] eqn:Happ; [|done].
  intros Hrec. apply IH in Hrec. apply apply_node_action_standing in Happ.
  by eapply same_standing_trans.
Qed.

Lemma simulate_standing s s' p :
  same_standing s s' -> _simulate s' p = _simulate s p.
Proof. intros [Hb Hw]. unfold _simulate. by rewrite Hb, Hw. Qed.

Lemma backpropagate_constant v fuel heap o heap' :
  Forall (constant_value of_int fadd v) heap ->
  _backpropagate fadd fuel heap o (of_int v) = Ok heap' ->
  Forall (constant_value of_int fadd v) heap'.
Proof.
  revert heap o. induction fuel as [|fuel IH]; intros heap [id|] Hall; simpl;
    try done; try (by intros [= <-]).
  unfold mbind, result_bind. destruct (deref heap id) as [n|e] eqn:Hn; [|done].
  apply deref_Ok in Hn. apply IH. apply Forall_insert; [done|].
  pose proof (proj1 (Forall_lookup _ _) Hall id n Hn) as Hc.
  unfold constant_value in *. simpl. rewrite Hc, Nat.add_1_r. done.
Qed.

Lemma expand_constant v heap id sim heap' cid :
  Forall (constant_value of_int fadd v) heap ->
  _expand of_int heap id sim = Ok (heap', cid) ->
  Forall (constant_value of_int fadd v) heap'.
Proof.
  intros Hall. unfold _expand, mbind, result_bind.
  destruct (deref heap id) as [n|e] eqn:Hn; [|done]. apply deref_Ok in Hn.
  destruct (pop _) as [[a rest]|]; [|done].
  destruct (_apply_action _ _ _) as [cst|]; [|done].
  destruct (_get_valid_actions _ _) as [untried|]; [|done].
  intros [= <- <-]. apply Forall_app. split.
  - apply Forall_insert; [done|].
    exact (proj1 (Forall_lookup _ _) Hall id n Hn).
  - by apply Forall_singleton.
Qed.

Lemma simulation_constant v c st p heap k heap' :
  _simulate st p = Ok v ->
  Forall (constant_value of_int fadd v) heap ->
  simulation c st p heap k = Ok heap' ->
  Forall (constant_value of_int fadd v) heap'.
Proof.
  intros Hv Hall. unfold MCTSAgent.simulation, mbind, result_bind.
  destruct (select_loop _ _ _ _ _) as [[id sim]|e] eqn:Hsel; [|done].
  apply select_loop_standing in Hsel. rewrite copy_id in Hsel.
  destruct (deref heap id) as [node|e] eqn:Hn; [|done].
  destruct (negb (is_terminal node) && negb (is_fully_expanded node)).
  - destruct (_expand of_int heap id sim) as [[heap1 cid]|e] eqn:Hexp; [|done].
    destruct (apply_node_action heap1 cid sim) as [sim1|e] eqn:Happ; [|done].
    apply apply_node_action_standing in Happ.
    rewrite (simulate_standing st sim1)
      by (by eapply same_standing_trans).
    rewrite Hv. apply backpropagate_constant.
    by eapply expand_constant.
  - rewrite (simulate_standing st sim) by done.
    rewrite Hv. by apply backpropagate_constant.
Qed.

(** X14.  Every rollout of a search returns the same reward, that of the
    state the search started from: no simulated play changes a bid or a
    trick count.  So at every node of the tree the accumulated value is
    just its visit count many additions of that one reward. *)
Theorem search_values_constant num_simulations c st p valid_cards heap v :
  _simulate st p = Ok v ->
  search_tree num_simulations c st p valid_cards = Ok heap ->
  Forall (constant_value of_int fadd v) heap.
Proof.
  intros Hv. unfold MCTSAgent.search_tree. intros Hrun.
  apply (foldR_partial _ (fun _ h => Forall (constant_value of_int fadd v) h))
    in Hrun; [done| |].
  - by apply Forall_singleton.
  - intros i h x h' _ Hh Hsim. by eapply simulation_constant.
Qed.

Lemma rooted_same_shape (h h' : list (MCTSNode F)) :
  Forall2 same_shape h h' -> rooted h -> rooted h'.
Proof.
  intros Hh Hr id n' Hn'.
  destruct (Forall2_lookup_r _ _ _ _ _ Hh Hn') as (n & Hn & Hs).
  destruct Hs as (_ & Hp & _). rewrite Hp. by apply Hr.
Qed.

Lemma rooted_expand heap id sim heap' cid :
  rooted heap ->
  _expand of_int heap id sim = Ok (heap', cid) ->
  rooted heap' /\ cid < length heap' /\ length heap' = S (length heap) /\
  heap' !! 0 ≫= (fun n => Some (visits n)) = heap !! 0 ≫= (fun n => Some (visits n)).
Proof.
  intros Hr Hexp.
  apply expand_spec in Hexp
    as (node & a & rest & child & Hn & _ & -> & -> & _ & _ & Hpar & _).
  assert (Hid : id < length heap) by (by eapply lookup_lt_Some).
  assert (Hlen : length (<[id := mkNode (state node) (parent node) (action node)
                      (children node ++ [length heap]) (visits node)
                      (total_value node) rest (player_idx node)]> heap
                         ++ [child]) = S (length heap)).
  { rewrite length_app, length_insert. simpl. lia. }
  split; [|split; [lia|split; [done|]]].
  - intros m n Hm.
    destruct (decide (m = length heap)) as [->|Hne].
    + rewrite lookup_app_r in Hm by (by rewrite length_insert).
      rewrite length_insert, Nat.sub_diag in Hm. injection Hm as <-.
      by rewrite Hpar.
    + rewrite lookup_app_l in Hm.
      2:{ rewrite length_insert. apply lookup_lt_Some in Hm. lia. }
      destruct (decide (m = id)) as [->|Hmid].
      * rewrite list_lookup_insert_eq in Hm by done. injection Hm as <-. simpl.
        by apply (Hr id node).
      * rewrite list_lookup_insert_ne in Hm by done. by apply Hr.
  - rewrite lookup_app_l by (rewrite length_insert; lia).
    destruct (decide (id = 0)) as [->|Hne].
    + rewrite list_lookup_insert_eq by done. by rewrite Hn.
    + by rewrite list_lookup_insert_ne.
Qed.

(** [_backpropagate] passes the root exactly once. *)
Lemma backpropagate_root fuel heap id v heap' root :
  rooted heap -> heap !! 0 = Some root ->
  _backpropagate fadd fuel heap (Some id) v = Ok heap' ->
  exists root', heap' !! 0 = Some root' /\ visits root' = S (visits root).
Proof.
  revert heap id root. induction fuel as [|fuel IH]; intros heap id root Hr H0;
    simpl; [done|].
  unfold mbind, result_bind. destruct (deref heap id) as [n|e] eqn:Hn; [|done].
  apply deref_Ok in Hn. pose proof (Hr id n Hn) as Hpar.
  destruct (parent n) as [pid|] eqn:Hp.
  - intros Hrec. eapply (IH _ pid root); [| |exact Hrec].
    + eapply rooted_same_shape; [|exact Hr].
      rewrite <- (list_insert_id heap id n Hn) at 1.
      apply Forall2_insert; [apply Forall2_same_shape_refl|].
      repeat split; simpl; try done; lia.
    + rewrite list_lookup_insert_ne by lia. done.
  - subst id. rewrite H0 in Hn. injection Hn as <-.
    destruct fuel; simpl; intros [= <-];
      (eexists; split;
         [apply list_lookup_insert_eq; by eapply lookup_lt_Some|simpl; lia]).
Qed.

Lemma simulation_root_visits c st p heap k heap' root :
  rooted heap -> heap !! 0 = Some root ->
  simulation c st p heap k = Ok heap' ->
  rooted heap' /\ length heap' <= S (length heap) /\
  exists root', heap' !! 0 = Some root' /\ visits root' = S (visits root).
Proof.
  intros Hr H0. unfold MCTSAgent.simulation, mbind, result_bind.
  destruct (select_loop _ _ _ _ _) as [[id sim]|e]; [|done].
  destruct (deref heap id) as [node|e] eqn:Hn; [|done].
  destruct (negb (is_terminal node) && negb (is_fully_expanded node)).
  - destruct (_expand of_int heap id sim) as [[heap1 cid]|e] eqn:Hexp; [|done].
    destruct (apply_node_action heap1 cid sim) as [sim1|e]; [|done].
    destruct (_simulate sim1 p) as [v|e]; [|done].
    intros Hback.
    destruct (rooted_expand _ _ _ _ _ Hr Hexp) as (Hr1 & _ & Hlen & Hroot).
    rewrite H0 in Hroot. simpl in Hroot.
    destruct (heap1 !! 0) as [root1|] eqn:H1; [|done].
    simpl in Hroot. injection Hroot as Hroot.
    pose proof (backpropagate_shape _ _ _ _ _ _ Hback) as Hs.
    split; [by eapply rooted_same_shape|].
    split; [rewrite <- (Forall2_length _ _ _ Hs); lia|].
    rewrite <- Hroot. by eapply backpropagate_root.
  - destruct (_simulate sim p) as [v|e]; [|done].
    intros Hback.
    pose proof (backpropagate_shape _ _ _ _ _ _ Hback) as Hs.
    split; [by eapply rooted_same_shape|].
    split; [rewrite <- (Forall2_length _ _ _ Hs); lia|].
    by eapply backpropagate_root.
Qed.

Lemma rooted_root st p valid : rooted [root_node of_int st p valid].
Proof.
  intros [|id] node; simpl; [|by rewrite lookup_nil]. by intros [= <-].
Qed.

(** X15.  In the tree of a search that returns, the root has been visited
    once by each simulation, and each simulation has added at most one
    node. *)
Theorem search_root_visits num_simulations c st p valid_cards heap :
  search_tree num_simulations c st p valid_cards = Ok heap ->
  length heap <= S num_simulations /\
  exists root, heap !! 0 = Some root /\ visits root = num_simulations.
Proof.
  unfold MCTSAgent.search_tree. intros Hrun.
  apply (foldR_partial _ (fun k h =>
           rooted h /\ length h <= S k /\
           exists root, h !! 0 = Some root /\ visits root = k)) in Hrun.
  - rewrite length_seq in Hrun. tauto.
  - split; [apply rooted_root|]. split; [simpl; lia|]. by eexists.
  - intros i h x h' _ (Hr & Hlen & root & H0 & Hv) Hsim.
    destruct (simulation_root_visits _ _ _ _ _ _ _ Hr H0 Hsim)
      as (Hr' & Hlen' & root' & H0' & Hv').
    split; [done|]. split; [lia|]. exists root'. split; [done|lia].
Qed.





















End SearchMore.

Section SearchMoreExamples.
Import WizardRules MCTSAgent.

Lemma search_values_constant_witness :
  let valid_cards := [mkCard HEARTS 7; mkCard HEARTS 8] in
  exists heap,
    IntArith.search_tree 2 1%Z hearts_led 1 valid_cards = Ok heap /\
    _simulate hearts_led 1 = Ok (-10)%Z /\
    Forall (constant_value IntArith.of_int IntArith.fadd (-10)) heap.
Proof.
  intros valid_cards.
  assert (Hrun : exists heap,
             IntArith.search_tree 2 1%Z hearts_led 1 valid_cards = Ok heap).
  { eexists. vm_compute. reflexivity. }
  destruct Hrun as [heap Hrun].
  assert (Hv : _simulate hearts_led 1 = Ok (-10)%Z) by reflexivity.
  exists heap. split; [exact Hrun|]. split; [exact Hv|].
  exact (search_values_constant
           IntArith.of_int IntArith.fadd IntArith.fmul IntArith.fdiv
           IntArith.fsqrt IntArith.flog IntArith.finf IntArith.fltb
           2 1%Z hearts_led 1 valid_cards heap (-10)%Z Hv Hrun).
Defined.

Lemma search_root_visits_witness :
  let valid_cards := [mkCard HEARTS 7; mkCard HEARTS 8] in
  exists heap root,
    IntArith.search_tree 2 1%Z hearts_led 1 valid_cards = Ok heap /\
    length heap <= 3 /\
    heap !! 0 = Some root /\ visits root = 2.
Proof.
  intros valid_cards.
  assert (Hrun : exists heap,
             IntArith.search_tree 2 1%Z hearts_led 1 valid_cards = Ok heap).
  { eexists. vm_compute. reflexivity. }
  destruct Hrun as [heap Hrun].
  destruct (search_root_visits
              IntArith.of_int IntArith.fadd IntArith.fmul IntArith.fdiv
              IntArith.fsqrt IntArith.flog IntArith.finf IntArith.fltb
              2 1%Z hearts_led 1 valid_cards heap Hrun)
    as (Hlen & root & Hroot & Hvisits).
  exists heap, root. split; [exact Hrun|]. split; [exact Hlen|].
  split; [exact Hroot|exact Hvisits].
Defined.


End SearchMoreExamples.

(* ===================================================================== *)
(** * The heuristic agent *)
(* ===================================================================== *)

Section Heuristic.
Import WizardRules HeuristicAgent.

(** X18.  Whatever the float arithmetic yields, the bid of the heuristic
    agent lies in [0, round_num], as [_bidding_phase] demands. *)
Theorem heuristic_bid_in_range {F} (of_int : Z -> F) (fadd fmul : F -> F -> F)
    (lit_0_6 lit_0_3 lit_0_5 : F) (to_int : F -> Z)
    hand trump_suit round_num player_idx bids_so_far :
  bid_in_range round_num
    (HeuristicAgent.bid of_int fadd fmul lit_0_6 lit_0_3 lit_0_5 to_int
       hand trump_suit round_num player_idx bids_so_far).
Proof.
  unfold bid_in_range, HeuristicAgent.bid. cbv zeta.
  match goal with |- context [Z.min ?b _] => generalize b end.
  intros b. lia.
Qed.

Lemma py_max_elem {A} (gt : A -> A -> bool) (l : list A) :
  l ≠ [] -> exists x, py_max gt l = Ok x /\ x ∈ l.
Proof.
  destruct l as [|x l]; [done|]. intros _. simpl. eexists. split; [done|].
  apply max_from_elem.
Qed.

Lemma filter_cons_elem {A} (P : A -> Prop) `{!forall x, Decision (P x)}
    (l : list A) x rest :
  filter P l = x :: rest -> forall y, y ∈ x :: rest -> y ∈ l /\ P y.
Proof.
  intros Hf y Hy. rewrite <- Hf in Hy.
  apply list_elem_of_filter in Hy. tauto.
Qed.

Lemma min_key_spec key (l : list Card) :
  l ≠ [] ->
  exists x, min_key key l = Ok x /\ x ∈ l /\
            forall y, y ∈ l -> (key x <= key y)%Z.
Proof.
  destruct l as [|x l]; [done|]. intros _. unfold min_key. simpl.
  eexists. split; [done|]. split; [apply max_from_elem|].
  destruct (max_from_not_beaten (fun a b : Card => (key a <? key b)%Z)) with
    (b := x) (l := l) as [Hb Hl].
  - intros a. apply Z.ltb_irrefl.
  - intros a b c H1%Z.ltb_lt H2%Z.ltb_lt. apply Z.ltb_lt. lia.
  - intros a b c H1%Z.ltb_ge H2%Z.ltb_ge. apply Z.ltb_ge. lia.
  - intros y Hy. apply elem_of_cons in Hy as [->|Hy].
    + by apply Z.ltb_ge in Hb.
    + pose proof (proj1 (Forall_forall _ _) Hl y Hy) as Hy'.
      cbv beta in Hy'. by apply Z.ltb_ge in Hy'.
Qed.

Lemma max_key_spec key (l : list Card) :
  l ≠ [] ->
  exists x, max_key key l = Ok x /\ x ∈ l /\
            forall y, y ∈ l -> (key y <= key x)%Z.
Proof.
  destruct l as [|x l]; [done|]. intros _. unfold max_key. simpl.
  eexists. split; [done|]. split; [apply max_from_elem|].
  destruct (max_from_not_beaten (fun a b : Card => (key b <? key a)%Z)) with
    (b := x) (l := l) as [Hb Hl].
  - intros a. apply Z.ltb_irrefl.
  - intros a b c H1%Z.ltb_lt H2%Z.ltb_lt. apply Z.ltb_lt. lia.
  - intros a b c H1%Z.ltb_ge H2%Z.ltb_ge. apply Z.ltb_ge. lia.
  - intros y Hy. apply elem_of_cons in Hy as [->|Hy].
    + by apply Z.ltb_ge in Hb.
    + pose proof (proj1 (Forall_forall _ _) Hl y Hy) as Hy'.
      cbv beta in Hy'. by apply Z.ltb_ge in Hy'.
Qed.

Lemma min_key_filter (P : Card -> Prop) `{!forall x, Decision (P x)} key
    (valid_cards : list Card) x rest :
  filter P valid_cards = x :: rest ->
  exists c, min_key key (x :: rest) = Ok c /\ c ∈ valid_cards /\ P c /\
            forall y, y ∈ valid_cards -> P y -> (key c <= key y)%Z.
Proof.
  intros Hf. destruct (min_key_spec key (x :: rest)) as (c & Hc & Hin & Hmin);
    [done|].
  exists c. split; [done|]. rewrite <- Hf in Hin, Hmin.
  apply list_elem_of_filter in Hin as [HP Hin]. split; [done|]. split; [done|].
  intros y Hy HPy. apply Hmin. by apply list_elem_of_filter.
Qed.

Lemma max_key_filter (P : Card -> Prop) `{!forall x, Decision (P x)} key
    (valid_cards : list Card) x rest :
  filter P valid_cards = x :: rest ->
  exists c, max_key key (x :: rest) = Ok c /\ c ∈ valid_cards /\ P c /\
            forall y, y ∈ valid_cards -> P y -> (key y <= key c)%Z.
Proof.
  intros Hf. destruct (max_key_spec key (x :: rest)) as (c & Hc & Hin & Hmax);
    [done|].
  exists c. split; [done|]. rewrite <- Hf in Hin, Hmax.
  apply list_elem_of_filter in Hin as [HP Hin]. split; [done|]. split; [done|].
  intros y Hy HPy. apply Hmax. by apply list_elem_of_filter.
Qed.

Lemma filter_nil_not {A} (P : A -> Prop) `{!forall x, Decision (P x)}
    (l : list A) y :
  filter P l = [] -> y ∈ l -> ~ P y.
Proof.
  intros Hf Hy HP.
  assert (Hin : y ∈ filter P l) by (by apply list_elem_of_filter).
  rewrite Hf in Hin. by apply elem_of_nil in Hin.
Qed.

Lemma filter_head_elem {A} (P : A -> Prop) `{!forall x, Decision (P x)}
    (l : list A) x rest :
  filter P l = x :: rest -> x ∈ l /\ P x.
Proof.
  intros Hf. apply (filter_cons_elem P l x rest Hf). by left.
Qed.

(** X19.  [_play_to_lose] with a card to choose from returns one of the
    valid cards; it is a Wizard only if every valid card is a Wizard; it is
    a Jester whenever a Jester is valid; and without a valid Jester no
    valid card that is not a Wizard has a lower rank. *)
Theorem play_to_lose_choice valid_cards current_trick trump_suit led_suit :
  valid_cards ≠ [] ->
  exists card,
    _play_to_lose valid_cards current_trick trump_suit led_suit = Ok card /\
    card ∈ valid_cards /\
    (suit card = WIZARD -> forall c, c ∈ valid_cards -> suit c = WIZARD) /\
    ((exists j, j ∈ valid_cards /\ suit j = JESTER) -> suit card = JESTER) /\
    ((forall j, j ∈ valid_cards -> suit j ≠ JESTER) ->
     forall c, c ∈ valid_cards -> suit c ≠ WIZARD -> (rank card <= rank c)%Z).
Proof.
  intros Hne. unfold _play_to_lose.
  destruct (filter (fun c => suit c ≠ WIZARD) valid_cards)
    as [|x non_wizards] eqn:Hnw.
  - (* only Wizards *)
    assert (Hall : forall c, c ∈ valid_cards -> suit c = WIZARD).
    { intros c Hc. pose proof (filter_nil_not _ _ c Hnw Hc) as Hn.
      cbv beta in Hn. by destruct (decide (suit c = WIZARD)). }
    destruct (filter (fun c => suit c = JESTER) valid_cards)
      as [|j jesters] eqn:Hj.
    + destruct (min_key_spec low_key valid_cards Hne) as (c & Hc & Hin & _).
      exists c. split; [done|]. split; [done|]. split; [done|]. split.
      * intros (j & Hj1 & Hj2). rewrite (Hall j Hj1) in Hj2. done.
      * intros _ c' Hc' Hnot. by rewrite (Hall c' Hc') in Hnot.
    + destruct (filter_head_elem _ _ _ _ Hj) as [Hin Hs]. cbv beta in Hs.
      rewrite (Hall j Hin) in Hs. done.
  - rewrite <- Hnw.
    destruct (filter (fun c => suit c = JESTER)
                (filter (fun c => suit c ≠ WIZARD) valid_cards))
      as [|j jesters] eqn:Hj.
    + rewrite Hnw.
      destruct (min_key_filter _ low_key _ _ _ Hnw) as (c & Hc & Hin & HP & Hmin).
      cbv beta in HP.
      assert (Hnoj : forall y, y ∈ valid_cards -> suit y ≠ JESTER).
      { intros y Hy Hyj.
        assert (Hyw : y ∈ filter (fun c => suit c ≠ WIZARD) valid_cards).
        { apply list_elem_of_filter. split; [|done]. by rewrite Hyj. }
        by apply (filter_nil_not _ _ y Hj Hyw). }
      exists c. split; [done|]. split; [done|]. split; [done|]. split.
      * intros (j & Hj1 & Hj2). by destruct (Hnoj j Hj1).
      * intros _ c' Hc' Hnot. specialize (Hmin c' Hc' Hnot).
        unfold low_key in Hmin.
        rewrite !decide_True in Hmin by (by apply Hnoj). done.
    + destruct (filter_head_elem _ _ _ _ Hj) as [Hin Hs]. cbv beta in Hs.
      apply list_elem_of_filter in Hin as [Hnotw Hin].
      exists j. split; [done|]. split; [done|]. split.
      * intros Hw. by rewrite Hs in Hw.
      * split; [done|]. intros Hnoj. by destruct (Hnoj j Hin).
Qed.

Lemma play_to_lose_choice_witness :
  exists card,
    _play_to_lose [mkCard WIZARD 0; mkCard HEARTS 9; mkCard HEARTS 4] []
      None None = Ok card /\
    suit card ≠ WIZARD /\ rank card = 4%Z.
Proof.
  destruct (play_to_lose_choice
              [mkCard WIZARD 0; mkCard HEARTS 9; mkCard HEARTS 4] [] None None
              ltac:(discriminate)) as (card & Hrun & _ & Hw & _ & _).
  exists card. split; [exact Hrun|]. vm_compute in Hrun.
  injection Hrun as <-. split; [discriminate|reflexivity].
Defined.

(** X20.  [_play_to_win] at the lead, with a card to choose from, returns
    one of the valid cards: a Wizard if one is valid; else, if a card of
    the trump suit is valid, a trump that no valid trump outranks; else a
    card that is not a Jester and that no valid card but a Jester
    outranks, if there is one. *)
Theorem play_to_win_leading valid_cards trump_suit led_suit :
  valid_cards ≠ [] ->
  exists card,
    _play_to_win valid_cards [] trump_suit led_suit = Ok card /\
    card ∈ valid_cards /\
    ((exists w, w ∈ valid_cards /\ suit w = WIZARD) -> suit card = WIZARD) /\
    ((forall w, w ∈ valid_cards -> suit w ≠ WIZARD) ->
     (forall t, trump_suit = Some t ->
        (exists c, c ∈ valid_cards /\ suit c = t) ->
        suit card = t /\
        forall c, c ∈ valid_cards -> suit c = t -> (rank c <= rank card)%Z) /\
     ((forall t c, trump_suit = Some t -> c ∈ valid_cards -> suit c ≠ t) ->
      (exists c, c ∈ valid_cards /\ suit c ≠ JESTER) ->
      suit card ≠ JESTER /\
      forall c, c ∈ valid_cards -> suit c ≠ JESTER ->
                (rank c <= rank card)%Z)).
Proof.
  intros Hne. unfold _play_to_win.
  destruct (filter (fun c => suit c = WIZARD) valid_cards)
    as [|w wizards] eqn:Hw.
  - assert (Hnow : forall c, c ∈ valid_cards -> suit c ≠ WIZARD).
    { intros c Hc. exact (filter_nil_not _ _ c Hw Hc). }
    assert (Hhigh : exists card,
              match filter (fun c => suit c ≠ JESTER) valid_cards with
              | [] => index valid_cards 0
              | (_ :: _) as non_jesters => max_key rank non_jesters
              end = Ok card /\
              card ∈ valid_cards /\
              ((exists c, c ∈ valid_cards /\ suit c ≠ JESTER) ->
               suit card ≠ JESTER /\
               forall c, c ∈ valid_cards -> suit c ≠ JESTER ->
                         (rank c <= rank card)%Z)).
    { destruct (filter (fun c => suit c ≠ JESTER) valid_cards)
        as [|x nj] eqn:Hnj.
      - destruct valid_cards as [|c0 rest]; [done|].
        exists c0. split; [done|]. split; [by left|].
        intros (c & Hc & Hcj). by destruct (filter_nil_not _ _ c Hnj Hc).
      - destruct (max_key_filter _ rank _ _ _ Hnj) as (c & Hc & Hin & HP & Hmax).
        exists c. split; [done|]. split; [done|]. intros _. split; done. }
    destruct trump_suit as [t|].
    + destruct (filter (fun c => suit c = t) valid_cards)
        as [|x trumps] eqn:Ht.
      * destruct Hhigh as (card & Hrun & Hin & Hbest).
        exists card. split; [done|]. split; [done|]. split.
        { intros (w & Hw1 & Hw2). by destruct (Hnow w Hw1). }
        intros _. split.
        { intros t' [= <-] (c & Hc & Hct).
          by destruct (filter_nil_not _ _ c Ht Hc). }
        intros _. exact Hbest.
      * destruct (max_key_filter _ rank _ _ _ Ht) as (c & Hc & Hin & HP & Hmax).
        exists c. split; [done|]. split; [done|]. split.
        { intros (w & Hw1 & Hw2). by destruct (Hnow w Hw1). }
        intros _. split.
        { intros t' [= <-] _. split; done. }
        intros Hnone. by destruct (Hnone t c eq_refl Hin).
    + destruct Hhigh as (card & Hrun & Hin & Hbest).
      exists card. split; [done|]. split; [done|]. split.
      { intros (w & Hw1 & Hw2). by destruct (Hnow w Hw1). }
      intros _. split; [done|]. intros _. exact Hbest.
  - destruct (filter_head_elem _ _ _ _ Hw) as [Hin Hs].
    exists w. split; [done|]. split; [done|]. split; [done|].
    intros Hnow. by destruct (Hnow w Hin).
Qed.

Lemma play_to_win_leading_witness :
  exists card,
    _play_to_win [mkCard HEARTS 9; mkCard CLUBS 4; mkCard CLUBS 7] []
      (Some CLUBS) None = Ok card /\
    card = mkCard CLUBS 7.
Proof.
  destruct (play_to_win_leading
              [mkCard HEARTS 9; mkCard CLUBS 4; mkCard CLUBS 7]
              (Some CLUBS) None ltac:(discriminate)) as (card & Hrun & _).
  exists card. split; [exact Hrun|]. vm_compute in Hrun.
  by injection Hrun as <-.
Defined.

Lemma get_current_winner_Some first rest led_suit trump_suit :
  exists w, _get_current_winner (first :: rest) led_suit trump_suit
              = Ok (Some w) /\ w ∈ (first :: rest).*2.
Proof.
  unfold _get_current_winner.
  destruct (determine_trick_winner_seat (first :: rest) led_suit trump_suit)
    as (winner & -> & _); [done|].
  unfold mbind, result_bind.
  destruct (list_find _ _) as [[i pc]|] eqn:Hfind.
  - exists pc.2. split; [done|]. apply list_find_Some in Hfind as (Hi & _).
    apply list_elem_of_fmap. exists pc. split; [done|].
    by eapply list_elem_of_lookup_2.
  - exists first.2. split; [done|]. simpl. by left.
Qed.

Lemma try_to_beat_trick_valid valid_cards current_trick trump_suit led_suit :
  valid_cards ≠ [] -> current_trick ≠ [] ->
  exists card,
    _try_to_beat_trick valid_cards current_trick trump_suit led_suit = Ok card /\
    card ∈ valid_cards.
Proof.
  intros Hne Htrick. destruct current_trick as [|first rest]; [done|].
  unfold _try_to_beat_trick.
  destruct (get_current_winner_Some first rest led_suit trump_suit)
    as (w & -> & _).
  unfold mbind, result_bind.
  destruct (min_key_spec low_key valid_cards Hne) as (c0 & Hc0 & Hin0 & _).
  rewrite Hc0.
  repeat match goal with
  | |- context [decide ?P] => destruct (decide P)
  | |- context [match ?o with Some _ => _ | None => _ end] => destruct o
  | |- context [match filter ?P ?l with _ => _ end] =>
      destruct (filter P l) eqn:?
  end;
  try (by exists c0);
  match goal with
  | H : filter ?P _ = ?x :: ?r |- context [min_key _ (?x :: ?r)] =>
      let card := fresh "card" in
      let Hc := fresh "Hc" in
      let Hin := fresh "Hin" in
      destruct (min_key_filter P rank _ _ _ H) as (card & Hc & Hin & _);
      exists card; split; [exact Hc|exact Hin]
  end.
Qed.

Lemma play_to_win_valid valid_cards current_trick trump_suit led_suit :
  valid_cards ≠ [] ->
  exists card,
    _play_to_win valid_cards current_trick trump_suit led_suit = Ok card /\
    card ∈ valid_cards.
Proof.
  intros Hne. unfold _play_to_win.
  destruct (filter (fun c => suit c = WIZARD) valid_cards)
    as [|w wizards] eqn:Hw.
  2:{ destruct (filter_head_elem _ _ _ _ Hw) as [Hin _]. by exists w. }
  destruct current_trick as [|first rest].
  2:{ by apply try_to_beat_trick_valid. }
  repeat match goal with
  | |- context [match ?o with Some _ => _ | None => _ end] => destruct o
  | |- context [match filter ?P ?l with _ => _ end] =>
      destruct (filter P l) eqn:?
  end;
  try (destruct valid_cards as [|c0 rest]; [done|]; exists c0;
       split; [done|by left]);
  match goal with
  | H : filter ?P _ = ?x :: ?r |- context [max_key _ (?x :: ?r)] =>
      let card := fresh "card" in
      let Hc := fresh "Hc" in
      let Hin := fresh "Hin" in
      destruct (max_key_filter P rank _ _ _ H) as (card & Hc & Hin & _);
      exists card; split; [exact Hc|exact Hin]
  end.
Qed.

Lemma play_to_lose_valid valid_cards current_trick trump_suit led_suit :
  valid_cards ≠ [] ->
  exists card,
    _play_to_lose valid_cards current_trick trump_suit led_suit = Ok card /\
    card ∈ valid_cards.
Proof.
  intros Hne. unfold _play_to_lose.
  destruct (filter (fun c => suit c ≠ WIZARD) valid_cards)
    as [|x non_wizards] eqn:Hnw.
  - destruct (filter (fun c => suit c = JESTER) valid_cards)
      as [|j jesters] eqn:Hj.
    + destruct (min_key_spec low_key valid_cards Hne) as (c & Hc & Hin & _).
      by exists c.
    + destruct (filter_head_elem _ _ _ _ Hj) as [Hin _]. by exists j.
  - rewrite <- Hnw.
    destruct (filter (fun c => suit c = JESTER)
                (filter (fun c => suit c ≠ WIZARD) valid_cards))
      as [|j jesters] eqn:Hj.
    + rewrite Hnw.
      destruct (min_key_filter _ low_key _ _ _ Hnw) as (c & Hc & Hin & _).
      by exists c.
    + destruct (filter_head_elem _ _ _ _ Hj) as [Hin _].
      apply list_elem_of_filter in Hin as [_ Hin]. by exists j.
Qed.

Lemma heuristic_play_ok hand valid_cards current_trick trump_suit
    led_suit player_idx state b won :
  valid_cards ≠ [] ->
  bids state !! player_idx = Some (Some b) ->
  tricks_won state !! player_idx = Some won ->
  exists card,
    HeuristicAgent.play hand valid_cards current_trick trump_suit led_suit
      player_idx state = Ok card /\
    card ∈ valid_cards.
Proof.
  intros Hne Hb Hw. unfold HeuristicAgent.play, mbind, result_bind, index.
  rewrite Hb, Hw. case_bool_decide.
  - by apply play_to_win_valid.
  - by apply play_to_lose_valid.
Qed.

(** X21.  With at least one valid card and the seat's bid and trick count
    in the state, [play] returns one of the valid cards, whatever the
    trick, the trump suit and the led suit are. *)
Theorem heuristic_play_valid hand valid_cards current_trick trump_suit
    led_suit player_idx state b won :
  valid_cards ≠ [] ->
  bids state !! player_idx = Some (Some b) ->
  tricks_won state !! player_idx = Some won ->
  exists card,
    HeuristicAgent.play hand valid_cards current_trick trump_suit led_suit
      player_idx state = Ok card /\
    card ∈ valid_cards.
Proof.
  intros Hne Hb Hw. unfold HeuristicAgent.play, mbind, result_bind, index.
  rewrite Hb, Hw. case_bool_decide.
  - by apply play_to_win_valid.
  - by apply play_to_lose_valid.
Qed.

Lemma heuristic_play_valid_witness :
  exists card,
    HeuristicAgent.play [mkCard HEARTS 7; mkCard HEARTS 8; mkCard SPADES 3]
      [mkCard HEARTS 7; mkCard HEARTS 8] [(0, mkCard HEARTS 5)]
      (Some CLUBS) (Some HEARTS) 1 hearts_led = Ok card /\
    card ∈ [mkCard HEARTS 7; mkCard HEARTS 8].
Proof.
  exact (heuristic_play_valid
           [mkCard HEARTS 7; mkCard HEARTS 8; mkCard SPADES 3]
           [mkCard HEARTS 7; mkCard HEARTS 8] [(0, mkCard HEARTS 5)]
           (Some CLUBS) (Some HEARTS) 1 hearts_led 1%Z 0%Z
           ltac:(discriminate) eq_refl eq_refl).
Defined.

(** X22.  Asked to play with no valid card, [play] of a seat that has a
    bid does not return: it raises [IndexError] (at the lead, wanting the
    trick: [valid_cards[0]]) or [ValueError] ([min] of an empty list). *)
Theorem heuristic_play_no_valid_card hand current_trick trump_suit led_suit
    player_idx state b won :
  bids state !! player_idx = Some (Some b) ->
  tricks_won state !! player_idx = Some won ->
  exists e,
    HeuristicAgent.play hand [] current_trick trump_suit led_suit
      player_idx state = Raise e /\
    (e = IndexError \/ e = ValueError).
Proof.
  intros Hb Hw. unfold HeuristicAgent.play, mbind, result_bind, index.
  rewrite Hb, Hw. case_bool_decide.
  - unfold _play_to_win. simpl.
    destruct current_trick as [|first rest].
    + destruct trump_suit; eauto.
    + unfold _try_to_beat_trick.
      destruct (get_current_winner_Some first rest led_suit trump_suit)
        as (w & -> & _).
      unfold mbind, result_bind. simpl.
      case_decide; [eauto|].
      destruct trump_suit, led_suit; repeat case_decide; eauto.
  - unfold _play_to_lose. simpl. eauto.
Qed.

Lemma heuristic_play_no_valid_card_witness :
  HeuristicAgent.play [] [] [] (Some CLUBS) None 1 hearts_led
    = Raise IndexError /\
  HeuristicAgent.play [] [] [] (Some CLUBS) None 2 hearts_led
    = Raise ValueError.
Proof.
  destruct (heuristic_play_no_valid_card [] [] (Some CLUBS) None 1 hearts_led
              1%Z 0%Z eq_refl eq_refl) as (e & He & _).
  split; [|reflexivity]. rewrite He. vm_compute in He. exact (eq_sym He).
Defined.

Lemma list_find_seat (l : list (nat * Card)) m :
  NoDup l.*1 -> m ∈ l ->
  exists i, list_find (fun pc => pc.1 = m.1) l = Some (i, m).
Proof.
  intros Hnd Hm. apply list_elem_of_lookup in Hm as [i Hi].
  exists i. apply list_find_Some. split; [done|]. split; [done|].
  intros j y Hj Hlt Heq.
  assert (H1 : l.*1 !! j = Some m.1) by (by rewrite list_lookup_fmap, Hj, <- Heq).
  assert (H2 : l.*1 !! i = Some m.1) by (by rewrite list_lookup_fmap, Hi).
  pose proof (NoDup_lookup _ _ _ _ Hnd H1 H2). lia.
Qed.

Lemma get_current_winner_entry current_trick led_suit trump_suit m :
  NoDup current_trick.*1 -> m ∈ current_trick ->
  determine_trick_winner current_trick led_suit trump_suit = Ok m.1 ->
  _get_current_winner current_trick led_suit trump_suit = Ok (Some m.2).
Proof.
  intros Hnd Hm Hdet. unfold _get_current_winner.
  destruct current_trick as [|first rest]; [by apply elem_of_nil in Hm|].
  rewrite Hdet. unfold mbind, result_bind.
  destruct (list_find_seat _ m Hnd Hm) as [i ->]. done.
Qed.

Lemma max_from_app {A} (gt : A -> A -> bool) b (l1 l2 : list A) :
  max_from gt b (l1 ++ l2) = max_from gt (max_from gt b l1) l2.
Proof.
  revert b. induction l1 as [|x l1 IH]; intros b; simpl; [done|]. apply IH.
Qed.

(** What the winning card tells about the trick: no Wizard was played if
    it is not a Wizard, no played trump outranks it if it is a trump, and
    no trump was played if it is not. *)
Lemma current_winner_trumps current_trick led_suit t w :
  NoDup current_trick.*1 -> t ≠ JESTER ->
  _get_current_winner current_trick led_suit (Some t) = Ok (Some w) ->
  suit w ≠ WIZARD ->
  wizards current_trick = [] /\
  (suit w = t ->
   forall pc, pc ∈ of_suit (Some t) (non_jesters current_trick) ->
              (rank pc.2 <= rank w)%Z) /\
  (suit w ≠ t -> of_suit (Some t) (non_jesters current_trick) = []).
Proof.
  intros Hnd Ht Hw Hnw.
  pose proof (determine_trick_winner_cases current_trick led_suit (Some t))
    as Hcases.
  destruct (wizards current_trick) as [|x ws] eqn:Hwiz.
  2:{ exfalso.
      assert (Hx : x ∈ current_trick /\ suit x.2 = WIZARD).
      { unfold wizards in Hwiz.
        destruct (filter_head_elem _ _ _ _ Hwiz). done. }
      destruct Hx as [Hx Hs].
      rewrite (get_current_winner_entry _ _ _ x Hnd Hx Hcases) in Hw.
      injection Hw as <-. done. }
  split; [done|].
  destruct (non_jesters current_trick) as [|y nj] eqn:Hnj.
  { split; [by intros _ pc ?%elem_of_nil|done]. }
  rewrite <- Hnj in *.
  destruct (of_suit (Some t) (non_jesters current_trick)) as [|x rest] eqn:Htr.
  { split; [by intros _ pc ?%elem_of_nil|done]. }
  set (m := max_from rank_gt x rest) in *.
  assert (Hm : m ∈ x :: rest) by apply max_from_elem.
  assert (Hmt : m ∈ current_trick /\ suit m.2 = t).
  { rewrite <- Htr in Hm. unfold of_suit, non_jesters in Hm.
    apply list_elem_of_filter in Hm as [Hs Hm].
    apply list_elem_of_filter in Hm as [_ Hm]. cbv beta in Hs.
    split; [done|]. by injection Hs. }
  destruct Hmt as [Hmin Hms].
  rewrite (get_current_winner_entry _ _ _ m Hnd Hmin Hcases) in Hw.
  injection Hw as <-. split; [|done].
  intros _ pc Hpc.
  destruct (max_from_not_beaten rank_gt rank_gt_irrefl rank_gt_trans
              rank_gt_ntrans x rest) as [Hb Hl].
  fold m in Hb, Hl. unfold rank_gt in Hb, Hl.
  apply elem_of_cons in Hpc as [->|Hpc].
  - apply Z.ltb_ge in Hb. done.
  - pose proof (proj1 (Forall_forall _ _) Hl pc Hpc) as Hpc'.
    cbv beta in Hpc'. apply Z.ltb_ge in Hpc'. done.
Qed.

Lemma trump_over_trick_wins current_trick led_suit t p card :
  t ≠ WIZARD -> t ≠ JESTER -> suit card = t ->
  wizards current_trick = [] ->
  (forall pc, pc ∈ of_suit (Some t) (non_jesters current_trick) ->
              (rank pc.2 < rank card)%Z) ->
  determine_trick_winner (current_trick ++ [(p, card)]) led_suit (Some t)
    = Ok p.
Proof.
  intros Htw Htj Hs Hwiz Hlow. rewrite determine_trick_winner_cases.
  unfold wizards, non_jesters, of_suit in *.
  rewrite !filter_app, Hwiz. simpl.
  rewrite (filter_cons_False (fun pc : nat * Card => suit pc.2 = WIZARD))
    by (simpl; congruence).
  rewrite filter_nil. simpl.
  rewrite (filter_cons_True (fun pc : nat * Card => suit pc.2 ≠ JESTER))
    by (simpl; congruence).
  rewrite filter_nil.
  destruct (filter (fun pc : nat * Card => suit pc.2 ≠ JESTER) current_trick
              ++ [(p, card)]) as [|z zs] eqn:Hz.
  { by apply app_eq_nil in Hz as [_ ?]. }
  clear z zs Hz.
  rewrite (filter_cons_True (fun pc : nat * Card => Some (suit pc.2) = Some t))
    by (simpl; congruence).
  rewrite filter_nil.
  destruct (filter (fun pc : nat * Card => Some (suit pc.2) = Some t)
              (filter (fun pc : nat * Card => suit pc.2 ≠ JESTER) current_trick))
    as [|x rest] eqn:Htr; simpl; [done|].
  rewrite max_from_app. simpl.
  pose proof (max_from_elem rank_gt x rest) as Hm.
  specialize (Hlow _ Hm). unfold rank_gt at 1. simpl.
  apply Z.ltb_lt in Hlow. by rewrite Hlow.
Qed.

(** X23.  Following in a trick that a card other than a Wizard is
    winning, with a trump suit: if a valid card of the trump suit exists
    and, in case the winning card is a trump itself, outranks it, then
    [_try_to_beat_trick] returns a valid trump with which the seat wins
    the trick as it stands, by [determine_trick_winner]. *)
Theorem try_to_beat_trick_wins_with_trump valid_cards current_trick t
    led_suit p w :
  NoDup current_trick.*1 ->
  t ≠ WIZARD -> t ≠ JESTER ->
  _get_current_winner current_trick led_suit (Some t) = Ok (Some w) ->
  suit w ≠ WIZARD ->
  (exists c, c ∈ valid_cards /\ suit c = t /\
             (suit w = t -> (rank w < rank c)%Z)) ->
  exists card,
    _try_to_beat_trick valid_cards current_trick (Some t) led_suit = Ok card /\
    card ∈ valid_cards /\ suit card = t /\
    determine_trick_winner (current_trick ++ [(p, card)]) led_suit (Some t)
      = Ok p.
Proof.
  intros Hnd Htw Htj Hw Hnw (c & Hc & Hct & Hhigher).
  destruct (current_winner_trumps _ _ _ _ Hnd Htj Hw Hnw)
    as (Hwiz & Hmax & Hnone).
  unfold _try_to_beat_trick. rewrite Hw. unfold mbind, result_bind.
  rewrite decide_False by done.
  destruct (decide (suit w = t)) as [Hwt|Hwt].
  - destruct (filter (fun c => suit c = t /\ (rank w < rank c)%Z) valid_cards)
      as [|x higher] eqn:Hf.
    { destruct (filter_nil_not _ _ c Hf Hc). split; [done|]. by apply Hhigher. }
    destruct (min_key_filter _ rank _ _ _ Hf) as (card & Hrun & Hin & [Hs Hr] & _).
    exists card. split; [done|]. split; [done|]. split; [done|].
    apply trump_over_trick_wins; try done.
    intros pc Hpc. specialize (Hmax Hwt pc Hpc). lia.
  - destruct (filter (fun c => suit c = t) valid_cards) as [|x trumps] eqn:Hf.
    { by destruct (filter_nil_not _ _ c Hf Hc). }
    destruct (min_key_filter _ rank _ _ _ Hf) as (card & Hrun & Hin & Hs & _).
    exists card. split; [done|]. split; [done|]. split; [done|].
    apply trump_over_trick_wins; try done.
    intros pc Hpc. rewrite (Hnone Hwt) in Hpc. by apply elem_of_nil in Hpc.
Qed.

Lemma try_to_beat_trick_wins_with_trump_witness :
  exists card,
    _try_to_beat_trick [mkCard CLUBS 4; mkCard CLUBS 11; mkCard CLUBS 12]
      [(0, mkCard HEARTS 5); (1, mkCard CLUBS 9)] (Some CLUBS) (Some HEARTS)
      = Ok card /\
    card = mkCard CLUBS 11 /\
    determine_trick_winner
      ([(0, mkCard HEARTS 5); (1, mkCard CLUBS 9)] ++ [(2, card)])
      (Some HEARTS) (Some CLUBS) = Ok 2.
Proof.
  assert (Hnd : NoDup [(0, mkCard HEARTS 5); (1, mkCard CLUBS 9)].*1).
  { simpl. apply NoDup_cons. split; [by intros ?%list_elem_of_singleton|].
    apply NoDup_singleton. }
  destruct (try_to_beat_trick_wins_with_trump
              [mkCard CLUBS 4; mkCard CLUBS 11; mkCard CLUBS 12]
              [(0, mkCard HEARTS 5); (1, mkCard CLUBS 9)] CLUBS (Some HEARTS)
              2 (mkCard CLUBS 9) Hnd ltac:(discriminate) ltac:(discriminate)
              eq_refl ltac:(discriminate))
    as (card & Hrun & _ & _ & Hwin).
  { exists (mkCard CLUBS 11). split; [set_solver|]. split; [done|].
    intros _. simpl. lia. }
  exists card. split; [exact Hrun|]. split; [|exact Hwin].
  vm_compute in Hrun. by injection Hrun as <-.
Defined.
End Heuristic.

(* ===================================================================== *)
(** * Games of heuristic agents *)
(* ===================================================================== *)

Section HeuristicGame.
Import WizardRules WizardGame.

Lemma bids_returned_in_round agents st k :
  Forall lawful_in_round agents ->
  Forall (bid_in_range (round_num st)) (bids_returned agents st k).
Proof.
  intros Hlaw. induction k as [|k IH]; simpl; [constructor|].
  apply Forall_app. split; [done|]. apply Forall_singleton.
  unfold bid_asked.
  destruct (agents !! k) as [a|] eqn:Ha; [|unfold bid_in_range; lia].
  destruct (hands st !! k); [|unfold bid_in_range; lia].
  apply (proj1 (Forall_forall _ _) Hlaw a (list_elem_of_lookup_2 _ _ _ Ha)).
Qed.

Lemma play_step_total_in_round agents self st led_suit i g :
  0 < self_num_players self ->
  i < self_num_players self ->
  length agents = self_num_players self ->
  length (hands st) = self_num_players self ->
  length (bids st) = self_num_players self ->
  Forall (fun b => is_Some b) (bids st) ->
  length (tricks_won st) = self_num_players self ->
  Forall lawful_in_round agents ->
  Forall (fun hand => hand ≠ []) (hands st) ->
  trick_inv self st i g ->
  exists g' led', play_step agents led_suit i g = (g', Ok led').
Proof.
  intros Hn Hi Hagents Hhands Hbids Hsome Hwon Hlaw Hfull
    (sti & -> & Hlen & Hrel & Htrick & Hseats & Hlead & Hwon' & Hbids' & _).
  set (n := self_num_players self) in *.
  set (q := (trick_leader st + i) mod n).
  assert (Hq : q < n) by (apply Nat.mod_upper_bound; lia).
  destruct (lookup_lt_is_Some_2 (hands st) q) as [hand Hhand]; [lia|].
  destruct (lookup_lt_is_Some_2 agents q) as [agent Hagent]; [lia|].
  destruct (lookup_lt_is_Some_2 (bids st) q) as [ob Hob]; [lia|].
  pose proof (proj1 (Forall_forall _ _) Hsome ob
                (list_elem_of_lookup_2 _ _ _ Hob)) as [b ->].
  destruct (lookup_lt_is_Some_2 (tricks_won st) q) as [won Hw]; [lia|].
  destruct (Hrel q hand Hhand) as (hand' & Hhand' & _ & Hsame).
  assert (Hfresh : ~ played (trick_leader st) n i q).
  { intros (j & Hj & Heq). by eapply (rotation_inj (trick_leader st) n i j). }
  rewrite (Hsame Hfresh) in Hhand'.
  assert (Hne : hand ≠ []).
  { apply (proj1 (Forall_forall _ _) Hfull hand).
    by eapply list_elem_of_lookup_2. }
  unfold play_step, mbind, Prog_bind, get_state, get_self, lift, raise, index.
  simpl. fold n. rewrite decide_False by lia. rewrite Hlead. fold q.
  rewrite Hhand', Hagent. simpl.
  set (valid := get_valid_plays hand led_suit).
  set (card := play agent hand valid _ _ _ _ _).
  assert (Hcard : card ∈ valid).
  { apply (proj2 (proj1 (Forall_forall _ _) Hlaw agent
                    (list_elem_of_lookup_2 _ _ _ Hagent))) with b won.
    - by apply get_valid_plays_nonempty.
    - by rewrite Hbids'.
    - by rewrite Hwon'. }
  rewrite decide_False by (by intros ?).
  destruct (remove_first_elem card hand) as [rest ->].
  { by eapply get_valid_plays_subset. }
  simpl. eauto.
Qed.

Lemma play_trick_total_in_round agents self st :
  0 < self_num_players self ->
  self_state self = Some st ->
  length agents = self_num_players self ->
  length (hands st) = self_num_players self ->
  length (bids st) = self_num_players self ->
  Forall (fun b => is_Some b) (bids st) ->
  length (tricks_won st) = self_num_players self ->
  Forall lawful_in_round agents ->
  Forall (fun hand => hand ≠ []) (hands st) ->
  exists self', _play_trick agents self = (self', Ok tt).
Proof.
  intros Hn Hst Hagents Hhands Hbids Hsome Hwon Hlaw Hfull.
  assert (Hloop : exists g led_suit, trick_loop agents self = (g, Ok led_suit)).
  { unfold trick_loop, mbind, Prog_bind, get_state, get_self, put_state.
    rewrite Hst. simpl. fold (with_state self (set_current_trick [] st)).
    destruct (foldP_total (play_step agents)
                (fun i _ g => i <= self_num_players self /\
                              trick_inv self st i g)
                (seq 0 (self_num_players self)) None
                (with_state self (set_current_trick [] st)))
      as (led & g & Hrun & _).
    - split; [lia|]. exists (set_current_trick [] st).
      split; [done|]. split; [done|]. split; [|by repeat split].
      intros p hand Hp. exists hand. split; [done|]. split; [|done].
      intros (j & Hj & _). lia.
    - intros i led g x Hx [Hi Hinv].
      apply lookup_seq in Hx as [-> Hx]. simpl in *.
      destruct (play_step_total_in_round agents self st led i g)
        as (g' & led' & Hstep); try done.
      exists led', g'. split; [done|]. split; [lia|].
      by eapply play_step_inv.
    - by exists g, led. }
  destruct Hloop as (g & led & Hloop).
  unfold _play_trick, mbind at 1, Prog_bind at 1. rewrite Hloop.
  apply (trick_loop_ok _ _ st) in Hloop; [|done].
  destruct Hloop as (sti & -> & Hlen & Hrel & Htrick & Hseats & Hlead
                     & Hwon' & _).
  unfold mbind, Prog_bind, get_state, lift. simpl.
  destruct (determine_trick_winner_seat (current_trick sti) led
              (trump_suit sti)) as (winner & -> & Hin).
  { intros Hnil. rewrite Hnil in Htrick. simpl in Htrick. lia. }
  apply list_elem_of_fmap in Hin as (pc & -> & Hpc).
  pose proof (proj1 (Forall_forall _ _) Hseats pc Hpc) as Hlt. cbv beta in Hlt.
  unfold index.
  destruct (lookup_lt_is_Some_2 (tricks_won sti) pc.1) as [won ->].
  { rewrite Hwon'. lia. }
  simpl. eauto.
Qed.

Lemma play_trick_ready_in_round agents self r k g :
  0 < self_num_players self ->
  length agents = self_num_players self ->
  Forall lawful_in_round agents ->
  k < r ->
  round_ready self r k g ->
  exists g', _play_trick agents g = (g', Ok tt) /\ round_ready self r (S k) g'.
Proof.
  intros Hn Hagents Hlaw Hk (st & -> & Hhands & Hall & Hwon & Hbids & Hsome).
  destruct (play_trick_total_in_round agents (with_state self st) st)
    as [g' Htrick]; try done.
  { eapply Forall_impl; [exact Hall|]. intros hand Hh Hnil. subst hand.
    simpl in Hh. lia. }
  exists g'. split; [done|].
  apply (play_trick_effect _ _ st) in Htrick; [|done..].
  destruct Htrick as (st' & winner & won & -> & Hlen & Hrel & _ & Hwon'
                      & _ & Hbids' & _).
  exists st'. split; [done|]. split; [simpl in *; lia|]. split; [|split; [|split]].
  - apply Forall_forall. intros hand' Hh.
    apply list_elem_of_lookup in Hh as [p Hp'].
    destruct (lookup_lt_is_Some_2 (hands st) p) as [hand Hp].
    { rewrite <- Hlen. by eapply lookup_lt_Some. }
    destruct (Hrel p hand Hp) as (h' & Hp'' & Hl).
    rewrite Hp' in Hp''. injection Hp'' as <-.
    pose proof (proj1 (Forall_forall _ _) Hall hand
                  (list_elem_of_lookup_2 _ _ _ Hp)) as Hk'.
    simpl in Hk'. lia.
  - by rewrite Hwon', length_insert.
  - by rewrite Hbids'.
  - by rewrite Hbids'.
Qed.

Lemma play_round_completes_in_round shuffle r agents self :
  0 < self_num_players self ->
  r * self_num_players self <= length (shuffle Deck.create_standard_deck) ->
  length agents = self_num_players self ->
  length (self_scores self) = self_num_players self ->
  Forall lawful_in_round agents ->
  exists self', _play_round shuffle r agents self = (self', Ok tt).
Proof.
  intros Hn Hdeck Hagents Hscores Hlaw.
  set (n := self_num_players self) in *.
  destruct (deal_loop_total (shuffle Deck.create_standard_deck) n r
              Hdeck) as (hs & Hdeal & Hlen & Hhands & _).
  unfold _play_round.
  unfold mbind at 1 2 3 4 5, Prog_bind at 1 2 3 4 5, get_self, lift.
  unfold Deck.shuffle_and_deal, mbind at 1, result_bind at 1. fold n.
  rewrite Hdeal. simpl.
  set (st0 := {| num_players := _ |}).
  change (mkWizardGame (self_num_players self) (self_total_rounds self)
            (self_scores self) (Some st0)) with (with_state self st0).
  assert (Hbid : _bidding_phase agents (with_state self st0)
                 = (with_state self (set_bids (bids_after agents st0 n n) st0),
                    Ok tt)).
  { unfold _bidding_phase, mbind, Prog_bind, get_self, for_each. simpl. fold n.
    replace (with_state self st0)
      with (with_state self (set_bids (bids_after agents st0 n 0) st0)) at 1.
    2:{ unfold bids_after. simpl. by rewrite Nat.sub_0_r. }
    apply bidding_prefix; [done|done|lia|].
    by apply bids_returned_in_round. }
  rewrite Hbid.
  destruct (foldP_total (fun _ _ => _play_trick agents)
              (fun k _ g => k <= r /\ round_ready self r k g)
              (seq 0 r) tt
              (with_state self (set_bids (bids_after agents st0 n n) st0)))
    as ([] & g & Htricks & _ & Hready).
  - split; [lia|]. eexists. split; [done|]. simpl.
    split; [done|]. split.
    { apply Forall_forall. intros hand Hh.
      apply list_elem_of_lookup in Hh as [p Hp].
      assert (p < n) by (rewrite <- Hlen; by eapply lookup_lt_Some).
      rewrite Hhands in Hp by done. injection Hp as <-.
      rewrite dealt_length by lia. lia. }
    split; [by rewrite length_replicate|].
    unfold bids_after. rewrite Nat.sub_diag, app_nil_r, length_fmap,
      bids_returned_length. split; [done|].
    apply Forall_fmap, Forall_forall. intros b _. by eexists.
  - intros k [] g0 x Hx [Hk Hinv]. apply lookup_seq in Hx as [-> Hx].
    destruct (play_trick_ready_in_round agents self r k g0)
      as (g' & Ht & Hr); try done.
    exists tt, g'. split; [done|]. split; [lia|done].
  - unfold for_each. rewrite Htricks.
    destruct Hready as (st & -> & _ & _ & Hwon & Hbids & Hsome).
    by apply (score_round_total _ st).
Qed.

Lemma plays_heuristic_lawful {F} (of_int : Z -> F) (fadd fmul : F -> F -> F)
    (lit_0_6 lit_0_3 lit_0_5 : F) (to_int : F -> Z) a :
  plays_heuristic of_int fadd fmul lit_0_6 lit_0_3 lit_0_5 to_int a ->
  lawful_in_round a.
Proof.
  intros [Hbid Hplay]. split.
  - intros hand t r p sofar. rewrite Hbid.
    unfold bid_in_range, HeuristicAgent.bid. cbv zeta.
    match goal with |- context [Z.min ?b _] => generalize b end.
    intros b. lia.
  - intros hand valid trick t l p st b won Hne Hb Hw.
    destruct (heuristic_play_ok hand valid trick t l p st b won Hne Hb Hw)
      as (card & Hrun & Hin).
    by rewrite (Hplay _ _ _ _ _ _ _ _ Hrun).
Qed.

(** X24.  A game set up by [__init__] in which every seat answers as the
    heuristic agent does (with its bid, and with its card wherever its
    [play] returns one) runs through all its rounds: no bid is rejected,
    no card is rejected, and [play_full_game] returns one score per seat,
    each a multiple of 10. *)
Theorem heuristic_game_completes {F} (of_int : Z -> F)
    (fadd fmul : F -> F -> F) (lit_0_6 lit_0_3 lit_0_5 : F) (to_int : F -> Z)
    shuffles agents n self :
  __init__ n = Ok self ->
  length agents = n ->
  Forall (plays_heuristic of_int fadd fmul lit_0_6 lit_0_3 lit_0_5 to_int)
         agents ->
  (forall r deck, length (shuffles r deck) = length deck) ->
  exists self' final,
    play_full_game shuffles agents self = (self', inr final) /\
    length final = n /\
    Forall (fun s => (10 | s)%Z) final.
Proof.
  unfold __init__. case_decide as Hn; [done|]. intros [= <-] Hagents Hheur Hshuf.
  assert (Hlaw : Forall lawful_in_round agents).
  { eapply Forall_impl; [exact Hheur|]. intros a.
    apply plays_heuristic_lawful. }
  unfold play_full_game. simpl. rewrite decide_True by done.
  set (self := mkWizardGame n (60 / n) (replicate n 0%Z) None).
  destruct (foldP_total
              (fun _ r => _play_round (shuffles r) r agents)
              (fun k _ g =>
                 self_num_players g = n /\
                 length (self_scores g) = n /\
                 Forall (fun s => (10 | s)%Z) (self_scores g))
              (seq 1 (60 / n)) tt self) as ([] & g & Hrun & _ & Hlen & Hdiv).
  - simpl. rewrite length_replicate. split; [done|]. split; [done|].
    apply Forall_replicate. exists 0%Z. lia.
  - intros k [] g r Hr (Hg & Hlen & Hdiv).
    apply lookup_seq in Hr as [-> Hk]. simpl in Hk.
    destruct (play_round_completes_in_round (shuffles (1 + k)) (1 + k) agents g)
      as [g' Hround]; try done; try lia.
    { rewrite Hshuf, Hg.
      change (length Deck.create_standard_deck) with 60.
      pose proof (Nat.div_mod_eq 60 n). nia. }
    exists tt, g'. split; [done|].
    apply play_round_scored in Hround
      as (st & (_ & Hn' & _ & Hlen' & _ & Hdone) & _).
    simpl in *. split; [lia|]. split; [lia|].
    apply Forall_lookup. intros p s Hs.
    assert (Hp : p < self_num_players g).
    { rewrite Hg, <- Hlen, <- Hlen'. by eapply lookup_lt_Some. }
    destruct (Hdone p Hp) as (_ & b & won & old & _ & _ & _ & Ho & Hs').
    rewrite Hs in Hs'. injection Hs' as ->.
    apply Z.divide_add_r; [|apply score_round_divide].
    exact (proj1 (Forall_lookup _ _) Hdiv p old Ho).
  - unfold for_each. rewrite Hrun. by exists g, (self_scores g).
Qed.

Lemma heuristic_game_completes_witness :
  let agents := [heuristic_agent; heuristic_agent; heuristic_agent] in
  exists self self' final,
    __init__ 3 = Ok self /\
    play_full_game (fun _ deck => reverse deck) agents self
      = (self', inr final) /\
    length final = 3 /\
    Forall (fun s => (10 | s)%Z) final.
Proof.
  intros agents.
  assert (H0 : plays_heuristic RatArith.of_int RatArith.fadd RatArith.fmul
                 RatArith.lit_0_6 RatArith.lit_0_3 RatArith.lit_0_5
                 RatArith.to_int heuristic_agent).
  { split; [reflexivity|].
    intros hand valid trick t l p st card Hrun. simpl. by rewrite Hrun. }
  assert (Hheur : Forall (plays_heuristic RatArith.of_int RatArith.fadd
                            RatArith.fmul RatArith.lit_0_6 RatArith.lit_0_3
                            RatArith.lit_0_5 RatArith.to_int) agents).
  { repeat apply Forall_cons_2; [exact H0..|apply Forall_nil_2]. }
  destruct (heuristic_game_completes _ _ _ _ _ _ _
              (fun _ deck => reverse deck) agents 3 _ eq_refl
              eq_refl Hheur (fun _ deck => length_reverse deck))
    as (self' & final & Hrun & Hlen & Hdiv).
  eexists _, self', final. split; [reflexivity|].
  split; [exact Hrun|]. split; [exact Hlen|exact Hdiv].
Defined.
End HeuristicGame.

(* ===================================================================== *)
(** * The simple Monte Carlo agent *)
(* ===================================================================== *)

Section SimpleMore.
Import SimpleMCTSAgent.
Context {F : Type}.
Variable of_int : Z -> F.
Variables fadd fdiv : F -> F -> F.
Variable fltb : F -> F -> bool.
Variables lit_0_3 lit_0_5 : F.
Variable random : nat -> F.

Lemma dict_set_keys (d : list (Card * F)) k v x :
  x ∈ (MCTSAgent.dict_set d k v).*1 -> x ∈ d.*1 \/ x = k.
Proof.
  clear of_int fadd fdiv fltb lit_0_3 lit_0_5 random.
  induction d as [|[k' v'] d IH]; simpl.
  - intros ?%list_elem_of_singleton. by right.
  - case_decide; simpl; rewrite !elem_of_cons; [subst; tauto|].
    intros [->|Hx]; [tauto|]. destruct (IH Hx); tauto.
Qed.

Lemma dict_set_nonempty (d : list (Card * F)) k v :
  MCTSAgent.dict_set d k v ≠ [].
Proof.
  clear of_int fadd fdiv fltb lit_0_3 lit_0_5 random.
  destruct d as [|[k' v'] d]; simpl; [done|]. by case_decide.
Qed.

Lemma estimate_draws card state p k :
  k <= (_estimate_win_probability fltb lit_0_3 lit_0_5 random card state p k).2.
Proof.
  unfold _estimate_win_probability. repeat case_decide; simpl; lia.
Qed.

Lemma simulate_card_Ok card state p k b won :
  bids state !! p = Some (Some b) -> tricks_won state !! p = Some won ->
  exists value k',
    _simulate_card fltb lit_0_3 lit_0_5 random card state p k
      = Ok (value, k') /\ k <= k'.
Proof.
  intros Hb Hw. unfold _simulate_card, mbind, result_bind, index.
  rewrite Hb, Hw. pose proof (estimate_draws card state p k) as Hk.
  destruct (_estimate_win_probability _ _ _ _ _ _ _ _) as [will_win k'].
  eexists _, k'. split; [done|]. done.
Qed.

Lemma total_of_Ok num_simulations card state p k b won :
  bids state !! p = Some (Some b) -> tricks_won state !! p = Some won ->
  exists total k',
    total_of of_int fadd fltb lit_0_3 lit_0_5 random num_simulations card
      state p k = Ok (total, k') /\ k <= k'.
Proof.
  intros Hb Hw. unfold total_of.
  destruct (foldR_total
              (fun '(total_value, k) (_ : nat) =>
                 '(value, k) ← _simulate_card fltb lit_0_3 lit_0_5 random
                                 card state p k;
                 Ok (fadd total_value (of_int value), k))
              (fun _ (acc : F * nat) => k <= acc.2)
              (seq 0 num_simulations) (of_int 0%Z, k))
    as ([total k'] & Hrun & Hk); [done| |by exists total, k'].
  intros i [t j] x _ Hj. simpl in Hj.
  destruct (simulate_card_Ok card state p j b won Hb Hw) as (v & j' & Hv & Hle).
  unfold mbind, result_bind. rewrite Hv. eexists. split; [done|]. simpl. lia.
Qed.

(** X26.  With at least one simulation per card, at least one valid card
    and the seat's bid and trick count in the state, [play] of the simple
    Monte Carlo agent returns one of the valid cards, whatever
    [random.random()] returns. *)
Theorem simple_play_valid num_simulations hand valid_cards current_trick
    trump_suit led_suit player_idx state k b won :
  1 <= num_simulations ->
  valid_cards ≠ [] ->
  bids state !! player_idx = Some (Some b) ->
  tricks_won state !! player_idx = Some won ->
  exists card k',
    SimpleMCTSAgent.play of_int fadd fdiv fltb lit_0_3 lit_0_5 random
      num_simulations hand valid_cards current_trick trump_suit
      led_suit player_idx state k = Ok (card, k') /\
    card ∈ valid_cards /\ k <= k'.
Proof.
  intros Hn Hne Hb Hw. unfold SimpleMCTSAgent.play.
  case_decide as Hone.
  - destruct valid_cards as [|c [|c' rest]]; try done.
    exists c, k. split; [done|]. split; [by left|done].
  - destruct (foldR_total
                (value_card of_int fadd fdiv fltb lit_0_3 lit_0_5 random
                   num_simulations state player_idx)
                (fun i (acc : list (Card * F) * nat) =>
                   k <= acc.2 /\
                   (forall x, x ∈ acc.1.*1 -> x ∈ valid_cards) /\
                   (0 < i -> acc.1 ≠ []))
                valid_cards ([], k))
      as ([d k'] & Hrun & Hk & Hkeys & Hfull).
    + split; [done|]. split; [by intros x ?%elem_of_nil|lia].
    + intros i [d j] card Hcard (Hj & Hkeys & _). simpl in *.
      unfold value_card.
      destruct (total_of_Ok num_simulations card state player_idx j b won
                  Hb Hw) as (total & j' & Htot & Hle).
      unfold mbind, result_bind. rewrite Htot.
      rewrite decide_False by lia. eexists. split; [done|]. simpl.
      split; [lia|]. split.
      * intros x Hx. apply dict_set_keys in Hx as [Hx| ->]; [by apply Hkeys|].
        by eapply list_elem_of_lookup_2.
      * intros _. apply dict_set_nonempty.
    + unfold mbind, result_bind. rewrite Hrun. simpl in *.
      destruct d as [|x d'].
      { destruct valid_cards; [done|]. simpl in Hfull. by destruct Hfull; [lia|]. }
      simpl. eexists _, k'. split; [done|]. split; [|done].
      apply Hkeys. apply list_elem_of_fmap. eexists. split; [done|].
      apply max_from_elem.
Qed.

(** X27.  The two ways [play] of the simple Monte Carlo agent fails on its
    own: with no valid card it raises [ValueError] ([max] of no keys), and
    with no simulation and two or more valid cards it raises
    [ZeroDivisionError], whatever the state is. *)
Theorem simple_play_errors num_simulations hand valid_cards current_trick
    trump_suit led_suit player_idx state k :
  SimpleMCTSAgent.play of_int fadd fdiv fltb lit_0_3 lit_0_5 random
    num_simulations hand [] current_trick trump_suit led_suit
    player_idx state k = Raise ValueError /\
  (2 <= length valid_cards ->
   SimpleMCTSAgent.play of_int fadd fdiv fltb lit_0_3 lit_0_5 random
     0 hand valid_cards current_trick trump_suit led_suit
     player_idx state k = Raise ZeroDivisionError).
Proof.
  split; [done|]. intros Hlen. unfold SimpleMCTSAgent.play.
  rewrite decide_False by lia.
  destruct valid_cards as [|c rest]; [simpl in Hlen; lia|].
  cbn [foldR].
  assert (Hstep : value_card of_int fadd fdiv fltb lit_0_3 lit_0_5 random 0
                    state player_idx ([], k) c = Raise ZeroDivisionError)
    by reflexivity.
  rewrite Hstep. done.
Qed.
End SimpleMore.

Section SimpleExamples.

Lemma simple_play_valid_witness :
  exists card k',
    SimpleMCTSAgent.play IntArith.of_int IntArith.fadd IntArith.fdiv
      IntArith.fltb 3%Z 5%Z (fun k => Z.of_nat k) 2
      [mkCard HEARTS 7; mkCard HEARTS 8; mkCard SPADES 3]
      [mkCard HEARTS 7; mkCard HEARTS 8] [(0, mkCard HEARTS 5)]
      (Some CLUBS) (Some HEARTS) 1 hearts_led 0 = Ok (card, k') /\
    card ∈ [mkCard HEARTS 7; mkCard HEARTS 8].
Proof.
  destruct (simple_play_valid IntArith.of_int IntArith.fadd IntArith.fdiv
              IntArith.fltb 3%Z 5%Z (fun k => Z.of_nat k) 2
              [mkCard HEARTS 7; mkCard HEARTS 8; mkCard SPADES 3]
              [mkCard HEARTS 7; mkCard HEARTS 8] [(0, mkCard HEARTS 5)]
              (Some CLUBS) (Some HEARTS) 1 hearts_led 0 1%Z 0%Z
              ltac:(lia) ltac:(discriminate) eq_refl eq_refl)
    as (card & k' & Hrun & Hin & _).
  exists card, k'. split; [exact Hrun|exact Hin].
Defined.
End SimpleExamples.

(* ===================================================================== *)
(** * The trump suit and the selection of a child *)
(* ===================================================================== *)

Section TrumpMore.
Import WizardRules.

(** X28.  The trump suit is one of the four ordinary suits or undefined:
    it is undefined exactly when there is no trump card or the trump card
    is a Jester; a Wizard as trump card makes Hearts trump; any other
    trump card gives its own suit. *)
Theorem get_trump_suit_ordinary trump_card :
  (get_trump_suit trump_card = None <->
   trump_card = None \/ exists c, trump_card = Some c /\ suit c = JESTER) /\
  (forall t, get_trump_suit trump_card = Some t ->
     t ∈ [HEARTS; DIAMONDS; CLUBS; SPADES] /\
     exists c, trump_card = Some c /\
               (suit c = t \/ (suit c = WIZARD /\ t = HEARTS))).
Proof.
  unfold get_trump_suit. destruct trump_card as [[s r]|]; simpl.
  - split.
    + split.
      * destruct s; try done. intros _. right. by eexists.
      * intros [?|(c & [= <-] & Hs)]; [done|]. simpl in Hs. by subst s.
    + intros t Ht. destruct s; try done; injection Ht as <-;
        (split; [set_solver|]); eexists; (split; [done|]); simpl; tauto.
  - split; [tauto|done].
Qed.
End TrumpMore.

Section SelectMore.
Import MCTSAgent.
Context {F : Type}.
Variable of_int : Z -> F.
Variables fadd fmul fdiv : F -> F -> F.
Variables fsqrt flog : F -> F.
Variable finf : F.
Variable fltb : F -> F -> bool.

Implicit Types heap : list (MCTSNode F).
Implicit Types node : MCTSNode F.

(** X29.  For a comparison of floats that is a strict weak order, the
    child that [_select_child] returns is a child of the node, and no
    child of the node has a higher UCB1 score. *)
Theorem select_child_maximal c heap id node cid :
  (forall x, fltb x x = false) ->
  (forall x y z, fltb x y = true -> fltb y z = true -> fltb x z = true) ->
  (forall x y z, fltb x y = false -> fltb y z = false -> fltb x z = false) ->
  heap !! id = Some node ->
  _select_child of_int fadd fmul fdiv fsqrt flog finf fltb c heap id = Ok cid ->
  cid ∈ children node /\
  exists child k,
    heap !! cid = Some child /\
    ucb1 of_int fadd fmul fdiv fsqrt flog finf fltb heap child c = Ok k /\
    forall other ochild k',
      other ∈ children node -> heap !! other = Some ochild ->
      ucb1 of_int fadd fmul fdiv fsqrt flog finf fltb heap ochild c = Ok k' ->
      fltb k k' = false.
Proof.
  intros Hirr Htr Hnt Hn. unfold _select_child, mbind, result_bind, deref.
  rewrite Hn.
  destruct (foldR _ _ _) as [keyed|e] eqn:Hfold; [|done].
  apply (foldR_partial _ (fun i (acc : list (nat * F)) =>
           acc.*1 = take i (children node) /\
           Forall (fun e => exists ch, heap !! e.1 = Some ch /\
                     ucb1 of_int fadd fmul fdiv fsqrt flog finf fltb heap ch c
                       = Ok e.2) acc)) in Hfold.
  2:{ by rewrite take_0. }
  2:{ intros i acc x acc' Hi [Hacc Hall].
      destruct (heap !! x) as [ch|] eqn:Hch; [|done].
      destruct (ucb1 _ _ _ _ _ _ _ _ _ _ _) as [k|] eqn:Hk; [|done].
      intros [= <-]. split.
      - rewrite fmap_app, Hacc. simpl. by rewrite (take_S_r _ _ x).
      - apply Forall_app. split; [done|]. apply Forall_singleton.
        exists ch. by split. }
  destruct Hfold as [Hkeys Hall]. rewrite take_ge in Hkeys by done.
  unfold py_max. destruct keyed as [|x rest] eqn:Hk; [done|].
  intros [= <-].
  set (gt := fun a b : nat * F => fltb b.2 a.2).
  set (best := max_from gt x rest).
  assert (Hbest : best ∈ x :: rest) by apply max_from_elem.
  split.
  { rewrite <- Hkeys. apply list_elem_of_fmap. by exists best. }
  destruct (proj1 (Forall_forall _ _) Hall best Hbest) as (child & Hchild & Hu).
  exists child, best.2. split; [done|]. split; [done|].
  intros other ochild k' Hother Hoc Hk'.
  rewrite <- Hkeys in Hother.
  apply list_elem_of_fmap in Hother as (entry & -> & Hentry).
  destruct (proj1 (Forall_forall _ _) Hall entry Hentry) as (ch & Hch & Hu').
  rewrite Hoc in Hch. injection Hch as <-. rewrite Hk' in Hu'.
  injection Hu' as ->.
  destruct (max_from_not_beaten gt) with (b := x) (l := rest) as [Hb Hl].
  - intros a. apply Hirr.
  - intros a b d H1 H2. unfold gt in *. by eapply Htr.
  - intros a b d H1 H2. unfold gt in *. by eapply Hnt.
  - fold best in Hb, Hl. apply elem_of_cons in Hentry as [->|Hentry]; [done|].
    exact (proj1 (Forall_forall _ _) Hl entry Hentry).
Qed.
End SelectMore.

Section SelectExample.
Import MCTSAgent.

Lemma select_child_maximal_witness :
  let valid_cards := [mkCard HEARTS 7; mkCard HEARTS 8] in
  exists heap node cid,
    IntArith.search_tree 2 1%Z hearts_led 1 valid_cards = Ok heap /\
    heap !! 0 = Some node /\
    _select_child IntArith.of_int IntArith.fadd IntArith.fmul IntArith.fdiv
      IntArith.fsqrt IntArith.flog IntArith.finf IntArith.fltb 1%Z heap 0
      = Ok cid /\
    cid ∈ children node.
Proof.
  intros valid_cards.
  assert (Hrun : exists heap node cid,
            IntArith.search_tree 2 1%Z hearts_led 1 valid_cards = Ok heap /\
            heap !! 0 = Some node /\
            _select_child IntArith.of_int IntArith.fadd IntArith.fmul
              IntArith.fdiv IntArith.fsqrt IntArith.flog IntArith.finf
              IntArith.fltb 1%Z heap 0 = Ok cid).
  { eexists _, _, _. split; [vm_compute; reflexivity|].
    split; [reflexivity|]. vm_compute. reflexivity. }
  destruct Hrun as (heap & node & cid & Hrun & Hn & Hsel).
  destruct (select_child_maximal
              IntArith.of_int IntArith.fadd IntArith.fmul IntArith.fdiv
              IntArith.fsqrt IntArith.flog IntArith.finf IntArith.fltb
              1%Z heap 0 node cid) as [Hin _].
  - intros x. apply Z.ltb_irrefl.
  - intros x y z H1%Z.ltb_lt H2%Z.ltb_lt. apply Z.ltb_lt. lia.
  - intros x y z H1%Z.ltb_ge H2%Z.ltb_ge. apply Z.ltb_ge. lia.
  - exact Hn.
  - exact Hsel.
  - exists heap, node, cid. split; [exact Hrun|]. split; [exact Hn|].
    split; [exact Hsel|exact Hin].
Defined.
End SelectExample.

(* ===================================================================== *)
(** * The sampled hands *)
(* ===================================================================== *)

Section DeterminizeSlices.
Import MCTSAgent.

Lemma opponents_before_S st p k :
  opponents_before st p (S k) =
    opponents_before st p k +
    (if decide (k ≠ p) then length (default [] (hands st !! k)) else 0).
Proof.
  unfold opponents_before. rewrite seq_S, fmap_app, sum_list_with_app. simpl. lia.
Qed.

(** X30.  [_determinize_state] hands the shuffled unknown cards out in
    seat order: every seat but the deciding one gets the slice that starts
    where the slices of the seats before it end and is as long as its true
    hand, cut off where the unknown cards run out.  So a seat gets as many
    cards as it holds exactly when that many unknown cards are left for
    it. *)
Theorem determinize_slices shuffle st p det my_hand i true_hand :
  hands st !! p = Some my_hand ->
  _determinize_state shuffle st p = Ok det ->
  i < num_players st -> i ≠ p ->
  hands st !! i = Some true_hand ->
  let unknown_cards :=
    shuffle (filter (fun c => c ∉ known_cards st my_hand)
                    Deck.create_standard_deck) in
  hands det !! i
    = Some (take (length true_hand)
                 (drop (opponents_before st p i) unknown_cards)) /\
  (opponents_before st p i + length true_hand <= length unknown_cards ->
   exists hand, hands det !! i = Some hand /\ length hand = length true_hand).
Proof.
  intros Hmy Hdet Hi Hip Htrue unknown_cards.
  assert (Hslice : hands det !! i
            = Some (take (length true_hand)
                         (drop (opponents_before st p i) unknown_cards))).
  { revert Hdet. unfold _determinize_state, mbind, result_bind, index.
    rewrite Hmy. fold unknown_cards.
    destruct (foldR _ _ _) as [[det_hands idx]|e] eqn:Hrun; [|done].
    intros [= <-]. simpl.
    apply (foldR_partial _ (fun k (acc : list (list Card) * nat) =>
             acc.2 = opponents_before st p k /\
             forall j th, j < k -> j ≠ p -> hands st !! j = Some th ->
               acc.1 !! j
                 = Some (take (length th)
                              (drop (opponents_before st p j) unknown_cards))))
      in Hrun.
    - rewrite length_seq in Hrun. destruct Hrun as [_ Hall]. by apply Hall.
    - split; [done|]. intros j th Hj. lia.
    - intros k [hs idx0] x [hs' idx'] Hx [Hidx Hall]. simpl in *.
      apply lookup_seq in Hx as [-> Hx]. simpl.
      unfold redistribute, mbind, result_bind, index, store.
      rewrite opponents_before_S.
      case_decide as Hkp.
      2:{ intros [= <- <-]. split; [lia|]. intros j th Hj Hjp.
          apply Hall; [|done]. destruct (decide (j = k)); [congruence|lia]. }
      destruct (hands st !! k) as [kh|] eqn:Hk; [|done].
      case_decide as Hlt; [|done]. intros [= <- <-]. simpl.
      split; [lia|].
      intros j th Hj Hjp Hth. destruct (decide (j = k)) as [->|Hjk].
      + rewrite list_lookup_insert_eq by done.
        rewrite Hk in Hth. injection Hth as <-. by rewrite Hidx.
      + rewrite list_lookup_insert_ne by done. apply Hall; [lia|done..]. }
  split; [done|]. intros Henough. eexists. split; [done|].
  rewrite length_take, length_drop. lia.
Qed.

Lemma determinize_slices_witness :
  exists det,
    _determinize_state reverse hearts_led 1 = Ok det /\
    hands det !! 2
      = Some [mkCard SPADES 11; mkCard SPADES 10; mkCard SPADES 9] /\
    opponents_before hearts_led 1 2 = 2.
Proof.
  assert (Hrun : exists det, _determinize_state reverse hearts_led 1 = Ok det).
  { eexists. vm_compute. reflexivity. }
  destruct Hrun as [det Hrun].
  destruct (determinize_slices reverse hearts_led 1 det _ 2 _ eq_refl Hrun
              ltac:(simpl; lia) ltac:(lia) eq_refl) as [Hslice _].
  exists det. split; [exact Hrun|]. split; [|reflexivity].
  rewrite Hslice. vm_compute. reflexivity.
Defined.
End DeterminizeSlices.
